(** * Dependency graph construction and implicit-graph traversal

    A shallow embedding of [graph/graph.go]: the implicit graph of
    [GraphNode]s (lookup, enumeration, neighbour and edge queries that
    search along neighbour links with a visited set), and the build
    pipeline that turns decoded registry records into a directed graph
    ([CreateMap], [CreateNameToIDMap], [CreateNameToVersionMap],
    [CreateGraph], [CreateEdges]). *)

From stdpp Require Import gmap strings list fin_maps fin_sets.
From Stdlib Require Import ZArith Lia Ascii.

Local Open Scope Z_scope.

(** ** Outcomes of a Go call

    A call either returns, panics, or (in the model only) exhausts the
    recursion budget it was given.  [OutOfFuel] for every budget is how the
    model expresses unbounded recursion. *)

Inductive panic : Type :=
  | PanicNilDeref                 (* nil pointer dereference *)
  | PanicError (msg : string)     (* panic(err) *)
  | PanicSelfEdge                 (* simple: adding self edge *)
  | PanicIDCollision (id : Z).    (* simple: node ID collision *)

Inductive outcome (A : Type) : Type :=
  | Ret (a : A)
  | Panicked (p : panic)
  | OutOfFuel.
Arguments Ret {A} a.
Arguments Panicked {A} p.
Arguments OutOfFuel {A}.

Definition obind {A B} (m : outcome A) (k : A -> outcome B) : outcome B :=
  match m with
  | Ret a => k a
  | Panicked p => Panicked p
  | OutOfFuel => OutOfFuel
  end.

Notation "'let*' x ':=' m 'in' k" := (obind m (fun x => k))
  (at level 10, x pattern, m at level 100, k at level 200).

Definition returns {A} (o : outcome A) : Prop := exists a, o = Ret a.

(** ** The implicit graph *)

Module Implicit.

(** A [*GraphNode] is an address into the heap of allocated nodes. *)
Definition ptr := nat.

(** A [graph.Node] interface value: a [*GraphNode], or a node of some other
    implementation (such as [simple.Node]), of which only the ID is known. *)
Inductive graph_Node : Type :=
  | NGraphNode (p : ptr)
  | NOther (id : Z).

#[global] Instance graph_Node_eq_dec : EqDecision graph_Node.
Proof. solve_decision. Defined.

(** A Go slice value: the nil slice, or an allocated slice with its
    elements.  An allocated slice can be empty: [[]graph.Node{}] has no
    element and is not nil. *)
Inductive slice (A : Type) : Type :=
  | nil_slice
  | make_slice (l : list A).
Arguments nil_slice {A}.
Arguments make_slice {A} l.

(** The elements of a slice, as [range] visits them. *)
Definition items {A} (s : slice A) : list A :=
  match s with
  | nil_slice => []
  | make_slice l => l
  end.

(** [s == nil] *)
Definition is_nil {A} (s : slice A) : bool :=
  match s with
  | nil_slice => true
  | make_slice _ => false
  end.

(** [append(s, x)]: never nil. *)
Definition append {A} (s : slice A) (x : A) : slice A :=
  make_slice (items s ++ [x]).

(** The field [Neighbors] is the slice [Neighbors_slice]; [Neighbors g] are
    its elements, which is what [range g.Neighbors] visits and what an
    iterator over [g.Neighbors] yields. *)
Record GraphNode : Type := mkGraphNode {
  id : Z;
  Neighbors_slice : slice graph_Node;
}.

Definition Neighbors (g : GraphNode) : list graph_Node :=
  items (Neighbors_slice g).

(** The allocated [GraphNode]s; address [p] holds the [p]-th one. *)
Definition heap := list GraphNode.

(** [simple.Edge{F: .., T: ..}] *)
Record simple_Edge : Type := mkEdge { F : graph_Node; T : graph_Node }.

(** The visited set [map[int64]struct{}]. *)
Abbreviation seen_set := (gset Z).

Definition deref (h : heap) (p : ptr) : outcome GraphNode :=
  match h !! p with
  | Some g => Ret g
  | None => Panicked PanicNilDeref
  end.

(** [n.ID()] *)
Definition ID (h : heap) (n : graph_Node) : outcome Z :=
  match n with
  | NGraphNode p => let* g := deref h p in Ret (id g)
  | NOther i => Ret i
  end.

(** [NewGraphNode] followed by the allocation of the node; the composite
    literal [&GraphNode{id: id}] leaves [Neighbors] nil. *)
Definition NewGraphNode (h : heap) (i : Z) : heap * ptr :=
  (h ++ [mkGraphNode i nil_slice], length h).

(** [g.AddNeighbor(n)]: [g.Neighbors = append(g.Neighbors, graph.Node(n))]. *)
Definition AddNeighbor (h : heap) (g n : ptr) : outcome heap :=
  let* gn := deref h g in
  Ret (<[g := mkGraphNode (id gn)
               (append (Neighbors_slice gn) (NGraphNode n))]> h).

(** *** [Has] and [Node] *)

Section HasLoop.
Context (h : heap) (target : Z).
Context (Has_rec : ptr -> seen_set -> outcome (bool * seen_set)).

(** The body of [for _, n := range g.Neighbors] in [Has]. *)
Fixpoint Has_loop (ns : list graph_Node) (seen : seen_set)
  : outcome (bool * seen_set) :=
  match ns with
  | [] => Ret (false, seen)
  | n :: ns' =>
      let* nid := ID h n in
      if decide (nid ∈ seen) then Has_loop ns' seen
      else
        let seen := {[nid]} ∪ seen in
        if decide (nid = target) then Ret (true, seen)
        else
          match n with
          | NGraphNode gn =>
              let* (found, seen) := Has_rec gn seen in
              if found then Ret (true, seen) else Has_loop ns' seen
          | NOther _ => Has_loop ns' seen
          end
  end.
End HasLoop.

Fixpoint Has (fuel : nat) (h : heap) (g : ptr) (seen : seen_set) (target : Z)
  : outcome (bool * seen_set) :=
  match fuel with
  | O => OutOfFuel
  | S fuel' =>
      let* gn := deref h g in
      Has_loop h target (fun p s => Has fuel' h p s target) (Neighbors gn) seen
  end.

Section NodeLoop.
Context (fuel : nat) (h : heap) (target : Z).

Fixpoint Node_loop (ns : list graph_Node) (seen : seen_set)
  : outcome (option graph_Node) :=
  match ns with
  | [] => Ret None
  | n :: ns' =>
      let* nid := ID h n in
      if decide (nid = target) then Ret (Some n)
      else
        match n with
        | NGraphNode gn =>
            let* (found, seen) := Has fuel h gn seen target in
            if found then Ret (Some (NGraphNode gn)) else Node_loop ns' seen
        | NOther _ => Node_loop ns' seen
        end
  end.
End NodeLoop.

(** [g.Node(id)]; [None] is the nil [graph.Node]. *)
Definition Node_fuel (fuel : nat) (h : heap) (g : ptr) (target : Z)
  : outcome (option graph_Node) :=
  let* gn := deref h g in
  if decide (target = id gn) then Ret (Some (NGraphNode g))
  else Node_loop fuel h target (Neighbors gn) {[id gn]}.

(** *** [nodes] and [Nodes] *)

Section NodesLoop.
Context (h : heap) (seen : seen_set).
Context (nodes_rec : ptr -> list graph_Node -> outcome (list graph_Node)).

(** The loop of [nodes].  The visited set is consulted and never written,
    so it is the same for the whole call tree. *)
Fixpoint nodes_loop (ns : list graph_Node) (dst : list graph_Node)
  : outcome (list graph_Node) :=
  match ns with
  | [] => Ret dst
  | n :: ns' =>
      let* nid := ID h n in
      if decide (nid ∈ seen) then nodes_loop ns' dst
      else
        let dst := dst ++ [n] in
        match n with
        | NGraphNode gn =>
            let* dst := nodes_rec gn dst in nodes_loop ns' dst
        | NOther _ => nodes_loop ns' dst
        end
  end.
End NodesLoop.

Fixpoint nodes (fuel : nat) (h : heap) (g : ptr) (dst : list graph_Node)
  (seen : seen_set) : outcome (list graph_Node) :=
  match fuel with
  | O => OutOfFuel
  | S fuel' =>
      let* gn := deref h g in
      nodes_loop h seen (fun p d => nodes fuel' h p d seen) (Neighbors gn) dst
  end.

Section NodesTop.
Context (fuel : nat) (h : heap).

Fixpoint Nodes_loop (ns : list graph_Node) (nodes_acc : list graph_Node)
  (seen : seen_set) : outcome (list graph_Node) :=
  match ns with
  | [] => Ret nodes_acc
  | n :: ns' =>
      let nodes_acc := nodes_acc ++ [n] in
      let* nid := ID h n in
      let seen := {[nid]} ∪ seen in
      match n with
      | NGraphNode gn =>
          let* nodes_acc := nodes fuel h gn nodes_acc seen in
          Nodes_loop ns' nodes_acc seen
      | NOther _ => Nodes_loop ns' nodes_acc seen
      end
  end.
End NodesTop.

(** [g.Nodes()], as the node sequence handed to [iterator.NewOrderedNodes]. *)
Definition Nodes_fuel (fuel : nat) (h : heap) (g : ptr)
  : outcome (list graph_Node) :=
  let* gn := deref h g in
  Nodes_loop fuel h (Neighbors gn) [NGraphNode g] {[id gn]}.

(** *** [FindNeighbors] and [From]

    [FindNeighbors] returns a slice, and its callers test [result != nil]:
    an allocated empty neighbour slice is an answer, the nil slice is not. *)

Section FindNeighborsLoop.
Context (h : heap).
Context (Find_rec : ptr -> seen_set -> outcome (slice graph_Node * seen_set)).

Fixpoint FindNeighbors_loop (ns : list graph_Node) (seen : seen_set)
  : outcome (slice graph_Node * seen_set) :=
  match ns with
  | [] => Ret (nil_slice, seen)
  | n :: ns' =>
      let* nid := ID h n in
      if decide (nid ∈ seen) then FindNeighbors_loop ns' seen
      else
        let seen := {[nid]} ∪ seen in
        match n with
        | NGraphNode gn =>
            let* (result, seen) := Find_rec gn seen in
            if is_nil result then FindNeighbors_loop ns' seen
            else Ret (result, seen)
        | NOther _ => FindNeighbors_loop ns' seen
        end
  end.
End FindNeighborsLoop.

Fixpoint FindNeighbors (fuel : nat) (h : heap) (g : ptr) (target : Z)
  (seen : seen_set) : outcome (slice graph_Node * seen_set) :=
  match fuel with
  | O => OutOfFuel
  | S fuel' =>
      let* gn := deref h g in
      if decide (target = id gn) then Ret (Neighbors_slice gn, seen)
      else
        FindNeighbors_loop h (fun p s => FindNeighbors fuel' h p target s)
          (Neighbors gn) seen
  end.

Section FromLoop.
Context (fuel : nat) (h : heap) (target : Z).

Fixpoint From_loop (ns : list graph_Node) (seen : seen_set)
  : outcome (option (list graph_Node)) :=
  match ns with
  | [] => Ret None
  | n :: ns' =>
      let* nid := ID h n in
      let seen := {[nid]} ∪ seen in
      match n with
      | NGraphNode gn =>
          let* (result, seen) := FindNeighbors fuel h gn target seen in
          if is_nil result then From_loop ns' seen
          else Ret (Some (items result))
      | NOther _ => From_loop ns' seen
      end
  end.
End FromLoop.

(** [g.From(id)]; [None] is the nil [graph.Nodes], [Some l] the iterator
    that [iterator.NewOrderedNodes] makes of a slice with the elements [l]
    (not nil also for the nil slice). *)
Definition From_fuel (fuel : nat) (h : heap) (g : ptr) (target : Z)
  : outcome (option (list graph_Node)) :=
  let* gn := deref h g in
  if decide (target = id gn) then Ret (Some (Neighbors gn))
  else From_loop fuel h target (Neighbors gn) {[id gn]}.

(** *** [edgeBetween] and [EdgeBetween] *)

Section EdgeScan.
Context (h : heap) (uid vid : Z) (g : ptr).

(** The scan of the anchor's own neighbour list, shared by [EdgeBetween]
    and [edgeBetween]. *)
Fixpoint edge_scan (ns : list graph_Node) : outcome (option simple_Edge) :=
  match ns with
  | [] => Ret None
  | n :: ns' =>
      let* nid := ID h n in
      if bool_decide (nid = uid) || bool_decide (nid = vid)
      then Ret (Some (mkEdge (NGraphNode g) n))
      else edge_scan ns'
  end.
End EdgeScan.

Section EdgeBetweenLoop.
Context (h : heap).
Context (edge_rec : ptr -> seen_set -> outcome (option simple_Edge * seen_set)).

Fixpoint edgeBetween_loop (ns : list graph_Node) (seen : seen_set)
  : outcome (option simple_Edge * seen_set) :=
  match ns with
  | [] => Ret (None, seen)
  | n :: ns' =>
      let* nid := ID h n in
      if decide (nid ∈ seen) then edgeBetween_loop ns' seen
      else
        let seen := {[nid]} ∪ seen in
        match n with
        | NGraphNode gn =>
            let* (result, seen) := edge_rec gn seen in
            match result with
            | Some e => Ret (Some e, seen)
            | None => edgeBetween_loop ns' seen
            end
        | NOther _ => edgeBetween_loop ns' seen
        end
  end.
End EdgeBetweenLoop.

Fixpoint edgeBetween (fuel : nat) (h : heap) (g : ptr) (uid vid : Z)
  (seen : seen_set) : outcome (option simple_Edge * seen_set) :=
  match fuel with
  | O => OutOfFuel
  | S fuel' =>
      let* gn := deref h g in
      if bool_decide (uid = id gn) || bool_decide (vid = id gn) then
        let* r := edge_scan h uid vid g (Neighbors gn) in Ret (r, seen)
      else
        edgeBetween_loop h (fun p s => edgeBetween fuel' h p uid vid s)
          (Neighbors gn) seen
  end.

Section EdgeBetweenTop.
Context (fuel : nat) (h : heap) (uid vid : Z).

Fixpoint EdgeBetween_loop (ns : list graph_Node) (seen : seen_set)
  : outcome (option simple_Edge) :=
  match ns with
  | [] => Ret None
  | n :: ns' =>
      let* nid := ID h n in
      let seen := {[nid]} ∪ seen in
      match n with
      | NGraphNode gn =>
          let* (result, seen) := edgeBetween fuel h gn uid vid seen in
          match result with
          | Some e => Ret (Some e)
          | None => EdgeBetween_loop ns' seen
          end
      | NOther _ => EdgeBetween_loop ns' seen
      end
  end.
End EdgeBetweenTop.

(** [g.EdgeBetween(uid, vid)]; [None] is the nil [graph.Edge]. *)
Definition EdgeBetween_fuel (fuel : nat) (h : heap) (g : ptr) (uid vid : Z)
  : outcome (option simple_Edge) :=
  let* gn := deref h g in
  if bool_decide (uid = id gn) || bool_decide (vid = id gn) then
    edge_scan h uid vid g (Neighbors gn)
  else EdgeBetween_loop fuel h uid vid (Neighbors gn) {[id gn]}.

(** [g.HasEdgeBetween(uid, vid)] *)
Definition HasEdgeBetween_fuel (fuel : nat) (h : heap) (g : ptr) (uid vid : Z)
  : outcome bool :=
  let* e := EdgeBetween_fuel fuel h g uid vid in Ret (bool_decide (is_Some e)).

(** *** A recursion budget that always suffices

    Every recursive call of [Has], [FindNeighbors] and [edgeBetween] is made
    right after an ID that was not yet in the visited set is added to it, so
    the recursion depth is at most the number of IDs in the heap plus one. *)

Definition node_ids (h : heap) (n : graph_Node) : list Z :=
  match n with
  | NGraphNode p => match h !! p with Some g => [id g] | None => [] end
  | NOther i => [i]
  end.

Definition heap_ids (h : heap) : list Z :=
  flat_map (fun g => id g :: flat_map (node_ids h) (Neighbors g)) h.

Definition budget (h : heap) : nat := S (length (heap_ids h)).

(** A recursive call that returns, with a visited set that only grew. *)
Definition grows {A} (o : outcome (A * gset Z)) (seen : gset Z) : Prop :=
  exists a seen', o = Ret (a, seen') /\ seen ⊆ seen'.

(** How many IDs of the heap are not yet in the visited set. *)
Definition unseen (h : heap) (seen : gset Z) : nat :=
  size ((list_to_set (heap_ids h) : gset Z) ∖ seen).

(** The methods with that budget.  [Nodes] keeps its budget as an argument:
    [nodes] does not mark what it visits, and on some heaps no budget is
    enough for it. *)
Definition Node (h : heap) := Node_fuel (budget h) h.
Definition From (h : heap) := From_fuel (budget h) h.
Definition EdgeBetween (h : heap) := EdgeBetween_fuel (budget h) h.
Definition HasEdgeBetween (h : heap) := HasEdgeBetween_fuel (budget h) h.
Definition Edge (h : heap) := EdgeBetween h.

(** *** Well-formed heaps and what a search can reach *)

(** The ID of a node, when the node is allocated. *)
Definition node_id (h : heap) (n : graph_Node) : option Z :=
  match n with
  | NGraphNode p => id <$> h !! p
  | NOther i => Some i
  end.

(** No neighbour list holds a dangling [*GraphNode]. *)
Definition closed (h : heap) : Prop :=
  Forall (fun g => Forall (fun n => is_Some (node_id h n)) (Neighbors g)) h.

(** Every node of the structure: the allocated ones and the neighbours. *)
Definition all_nodes (h : heap) : list graph_Node :=
  (NGraphNode <$> seq 0 (length h)) ++ flat_map Neighbors h.

(** IDs identify nodes, as [graph.Graph] requires. *)
Definition unique_ids (h : heap) : Prop :=
  Forall (fun n =>
    Forall (fun m => node_id h n = node_id h m -> n = m) (all_nodes h))
    (all_nodes h).

#[global] Instance closed_dec h : Decision (closed h).
Proof. unfold closed. apply _. Defined.

#[global] Instance unique_ids_dec h : Decision (unique_ids h).
Proof. unfold unique_ids. apply _. Defined.

Section Search.
Context (h : heap) (uid vid : Z).

(** [uid == g.id || vid == g.id]: the node answers the edge query itself. *)
Definition anchor (g : GraphNode) : Prop := uid = id g \/ vid = id g.

(** What [EdgeBetween] can discover from [p]: the nodes at the end of a
    chain of neighbour links that leaves only nodes which are not anchors
    (the search does not look behind an anchor). *)
Inductive discoverable : ptr -> ptr -> Prop :=
  | discoverable_here p : discoverable p p
  | discoverable_step p q r g :
      h !! p = Some g -> ~ anchor g -> NGraphNode q ∈ Neighbors g ->
      discoverable q r -> discoverable p r.

(** The node has one of the two IDs and a direct neighbour with the
    other. *)
Definition has_other_end (g : GraphNode) : Prop :=
  (id g = uid /\ exists n, n ∈ Neighbors g /\ node_id h n = Some vid) \/
  (id g = vid /\ exists n, n ∈ Neighbors g /\ node_id h n = Some uid).

(** What the scan of an anchor's neighbour list looks for. *)
Definition scan_hit (n : graph_Node) : Prop :=
  node_id h n = Some uid \/ node_id h n = Some vid.

(** The search is finished with a node: it did not answer the query, and
    if the search went past it, all its neighbours are marked. *)
Definition explored (seen : gset Z) (g : GraphNode) : Prop :=
  (anchor g -> forall n, n ∈ Neighbors g -> ~ scan_hit n) /\
  (~ anchor g ->
     forall n, n ∈ Neighbors g -> exists i, node_id h n = Some i /\ i ∈ seen).

(** What a call leaves behind when it found nothing: the nodes it marked
    are explored. *)
Definition marked_explored (seen seen' : gset Z) : Prop :=
  forall p g, h !! p = Some g -> id g ∈ seen' -> id g ∉ seen ->
    explored seen' g.
End Search.

(** Reachability along neighbour links. *)
Inductive reachable (h : heap) : ptr -> ptr -> Prop :=
  | reachable_here p : reachable h p p
  | reachable_step p q r g :
      h !! p = Some g -> NGraphNode q ∈ Neighbors g ->
      reachable h q r -> reachable h p r.

(** *** What the searches mean

    The vocabulary of the statements about [Node], [Nodes], [From] and
    [EdgeBetween]. *)

(** [n] is a neighbour of a node reachable from [p]. *)
Definition below (h : heap) (p : ptr) (n : graph_Node) : Prop :=
  exists q g, reachable h p q /\ h !! q = Some g /\ n ∈ Neighbors g.

(** [n] is the node at [p] or below it. *)
Definition reaches (h : heap) (p : ptr) (n : graph_Node) : Prop :=
  n = NGraphNode p \/ below h p n.

(** [n] is the node [x] or, when [x] is a [*GraphNode], below it. *)
Definition at_or_below (h : heap) (x n : graph_Node) : Prop :=
  n = x \/ exists q, x = NGraphNode q /\ below h q n.

(** All neighbours of the node have their ID in the visited set. *)
Definition neighbours_marked (h : heap) (seen : gset Z) (g : GraphNode)
  : Prop :=
  forall n, n ∈ Neighbors g -> exists i, node_id h n = Some i /\ i ∈ seen.

(** The nodes whose ID a call added to the visited set satisfy [P]. *)
Definition marked_done (h : heap) (P : gset Z -> GraphNode -> Prop)
  (seen seen' : gset Z) : Prop :=
  forall p g, h !! p = Some g -> id g ∈ seen' -> id g ∉ seen -> P seen' g.

(** [FindNeighbors] is finished with a node: the node is not an answer (it
    does not have the ID, or its neighbour slice is nil), and its neighbours
    are marked. *)
Definition passed_by (h : heap) (target : Z) (seen : gset Z) (g : GraphNode)
  : Prop :=
  (id g = target -> is_nil (Neighbors_slice g) = true) /\
  neighbours_marked h seen g.

(** Neighbour links strictly decrease [rank]: the structure has no cycle. *)
Definition ranked (h : heap) (rank : ptr -> nat) : Prop :=
  forall p g q, h !! p = Some g -> NGraphNode q ∈ Neighbors g ->
    (rank q < rank p)%nat.

(** [add] holds every neighbour of the node that is not marked. *)
Definition neighbours_listed (h : heap) (seen : gset Z)
  (add : list graph_Node) (g : GraphNode) : Prop :=
  forall n, n ∈ Neighbors g ->
    exists i, node_id h n = Some i /\ (i ∈ seen \/ n ∈ add).

End Implicit.

(** ** The build pipeline *)

Module Build.

Local Open Scope string_scope.

(** *** Decoded registry records

    The two maps of the input ([Versions], [Dependencies]) are only ever
    ranged over, never indexed.  A Go map is embedded here as the list of
    its entries in the order the [range] statement visits them; Go leaves
    that order unspecified, so statements are made for every entry list. *)

Record VersionInfo : Type := mkVersionInfo {
  Timestamp : string;
  Dependencies : list (string * string);
}.

Record PackageInfo : Type := mkPackageInfo {
  Name : string;
  Versions : list (string * VersionInfo);
}.

Record nodeInfo : Type := mknodeInfo {
  ni_id : string;
  ni_Name : string;
  ni_Version : string;
  ni_Timestamp : string;
}.

#[global] Instance nodeInfo_eq_dec : EqDecision nodeInfo.
Proof. solve_decision. Defined.

(** [fmt.Sprintf("%s-%s", a, b)] *)
Definition Sprintf_dash (a b : string) : string := a +:+ "-" +:+ b.

Definition NodeInfo (name version timestamp : string) : nodeInfo :=
  {| ni_id := Sprintf_dash name version;
     ni_Name := name;
     ni_Version := version;
     ni_Timestamp := timestamp |}.

(** *** [int64] arithmetic *)

Definition wrap64 (z : Z) : Z := (z + 2 ^ 63) `mod` 2 ^ 64 - 2 ^ 63.

(** [id++] on an [int64]. *)
Definition incr64 (z : Z) : Z := wrap64 (z + 1).

(** *** The identity index *)

(** One pass of the inner loop body of [CreateMap]: [m[id] = ..; id++]. *)
Definition CreateMap_step (st : Z * gmap Z nodeInfo) (info : nodeInfo)
  : Z * gmap Z nodeInfo :=
  (incr64 st.1, <[st.1 := info]> st.2).

Definition CreateMap (packagesInfo : list PackageInfo) : gmap Z nodeInfo :=
  (foldl (fun st packageInfo =>
            foldl (fun st '(packageVersion, versionInfo) =>
                     CreateMap_step st
                       (NodeInfo (Name packageInfo) packageVersion
                          (Timestamp versionInfo)))
              st (Versions packageInfo))
     (0, ∅) packagesInfo).2.

(** [AddElementToMap]: [m[int64(len(m))] = x]. *)
Definition AddElementToMap (x : PackageInfo) (m : gmap Z PackageInfo)
  : gmap Z PackageInfo :=
  <[wrap64 (Z.of_nat (size m)) := x]> m.

(** [CreateNameToIDMap] ranges over the map [m]; [entries] are the entries
    of [m] in the order of that iteration.  Go leaves the order open, and
    when two entries have the same composite string the last one visited
    wins.  [CreateNameToIDMap] takes the order of [map_to_list]; what is
    stated about the index holds for [CreateNameToIDMap_range] with every
    order, or is stated for pairwise distinct composite strings, where the
    order makes no difference. *)
Definition CreateNameToIDMap_range (entries : list (Z * nodeInfo))
  : gmap string Z :=
  foldl (fun newMap '(id, key) => <[ni_id key := id]> newMap) ∅ entries.

Definition CreateNameToIDMap (m : gmap Z nodeInfo) : gmap string Z :=
  CreateNameToIDMap_range (map_to_list m).

Definition CreateNameToVersionMap (m : list PackageInfo)
  : gmap string (list string) :=
  foldl (fun (newMap : gmap string (list string)) value =>
           let name := Name value in
           foldl (fun (newMap : gmap string (list string)) '(k, _) =>
                    <[name := (default [] (newMap !! name) ++ [k])%list]> newMap)
             newMap (Versions value))
    ∅ m.

(** *** The graph store

    [simple.DirectedGraph] of gonum, by its documented behaviour.  The
    library keeps the nodes by ID and indexes the edges twice, by source and
    by target; the model keeps the set of node IDs and the set of
    (from, to) pairs.  A stored node is represented by its ID. *)

Record DirectedGraph : Type := mkDirectedGraph {
  nodes : gset Z;
  edges : gset (Z * Z);
}.

Definition NewDirectedGraph : DirectedGraph := mkDirectedGraph ∅ ∅.

(** [g.Node(id)]: the node with that ID, or nil. *)
Definition DirectedGraph_Node (g : DirectedGraph) (id : Z) : option Z :=
  if decide (id ∈ nodes g) then Some id else None.

(** [g.AddNode(n)] panics when the ID is already in the graph. *)
Definition AddNode (g : DirectedGraph) (n : Z) : outcome DirectedGraph :=
  if decide (n ∈ nodes g) then Panicked (PanicIDCollision n)
  else Ret (mkDirectedGraph ({[n]} ∪ nodes g) (edges g)).

(** [g.SetEdge(simple.Edge{F: from, T: to})]: calls [ID()] on both ends
    (a nil end panics), panics on a self edge, adds the ends that are not yet
    nodes and records the edge. *)
Definition SetEdge (g : DirectedGraph) (from to : option Z)
  : outcome DirectedGraph :=
  match from, to with
  | Some fid, Some tid =>
      if decide (fid = tid) then Panicked PanicSelfEdge
      else Ret (mkDirectedGraph ({[fid; tid]} ∪ nodes g)
                                ({[(fid, tid)]} ∪ edges g))
  | _, _ => Panicked PanicNilDeref
  end.

(** [CreateGraph] ranges over the keys of the id map. *)
Definition CreateGraph_range (keys : list Z) : outcome DirectedGraph :=
  foldl (fun acc x => let* graph := acc in AddNode graph x)
    (Ret NewDirectedGraph) keys.

Definition CreateGraph (m : gmap Z nodeInfo) : outcome DirectedGraph :=
  CreateGraph_range (map_to_list m).*1.

(** *** Semantic versions

    [semver.Version] of blang/semver; its zero value is [Version{}]. *)

Record semver_Version : Type := mkVersion {
  Major : Z;
  Minor : Z;
  Patch : Z;
  Pre : list string;
  Build : list string;
}.

Definition Version_zero : semver_Version := mkVersion 0 0 0 [] [].

(** [semver.Range] is [func(Version) bool]. *)
Definition semver_Range : Type := semver_Version -> bool.

(** *** Edge resolution

    [CreateEdges] receives the graph, the package list and both indices by
    pointer.  The embedding threads all four through every step, so that
    what a step writes is visible in the type of the state. *)

Record world : Type := mkWorld {
  graph : DirectedGraph;
  inputList : list PackageInfo;
  nameToIDMap : gmap string Z;
  nameToVersionMap : gmap string (list string);
}.

(** A step runs in a world and leaves a world, also when it panics. *)
Definition M (A : Type) : Type := world -> outcome A * world.

Definition mreturn {A} (a : A) : M A := fun w => (Ret a, w).

Definition mpanic {A} (p : panic) : M A := fun w => (Panicked p, w).

Definition mseq {A B} (m : M A) (k : A -> M B) : M B := fun w =>
  match m w with
  | (Ret a, w') => k a w'
  | (Panicked p, w') => (Panicked p, w')
  | (OutOfFuel, w') => (OutOfFuel, w')
  end.

Notation "'do' x '<-' m 'in' k" := (mseq m (fun x => k))
  (at level 10, x pattern, m at level 100, k at level 200).

(** [for _, x := range l { body x }] *)
Fixpoint for_range {A} (l : list A) (body : A -> M unit) : M unit :=
  match l with
  | [] => mreturn tt
  | x :: l' => do _ <- body x in for_range l' body
  end.

(** [for i, x := range l { body i x }], counting from [i]. *)
Fixpoint for_range_indexed {A} (i : nat) (l : list A)
  (body : nat -> A -> M unit) : M unit :=
  match l with
  | [] => mreturn tt
  | x :: l' => do _ <- body i x in for_range_indexed (S i) l' body
  end.

(** [*inputList] *)
Definition read_inputList : M (list PackageInfo) :=
  fun w => (Ret (inputList w), w).

(** [nameToID[k]]: the zero value when [k] is not a key. *)
Definition read_nameToID (k : string) : M Z :=
  fun w => (Ret (default 0 (nameToIDMap w !! k)), w).

(** [nameToVersion[k]]: the nil slice when [k] is not a key. *)
Definition read_nameToVersion (k : string) : M (list string) :=
  fun w => (Ret (default [] (nameToVersionMap w !! k)), w).

(** [graph.Node(id)] *)
Definition call_Node (id : Z) : M (option Z) :=
  fun w => (Ret (DirectedGraph_Node (graph w) id), w).

(** [graph.SetEdge(simple.Edge{F: from, T: to})] *)
Definition call_SetEdge (from to : option Z) : M unit := fun w =>
  match SetEdge (graph w) from to with
  | Ret g' =>
      (Ret tt, mkWorld g' (inputList w) (nameToIDMap w) (nameToVersionMap w))
  | Panicked p => (Panicked p, w)
  | OutOfFuel => (OutOfFuel, w)
  end.

(** What a step may not touch when it only resolves edges: the package list
    and the two indices. *)
Definition same_indices (w w' : world) : Prop :=
  inputList w' = inputList w /\
  nameToIDMap w' = nameToIDMap w /\
  nameToVersionMap w' = nameToVersionMap w.

Definition read_only {A} (m : M A) : Prop :=
  forall w, same_indices w (m w).2.

(** The package list declares the constraint [(dep, range)]. *)
Definition declares (packagesInfo : list PackageInfo) (dep range : string)
  : Prop :=
  exists p v, p ∈ packagesInfo /\ v ∈ Versions p /\
    (dep, range) ∈ Dependencies v.2.

(** The key under which [CreateNameToIDMap] files an entry of the id map. *)
Definition entry_key (e : Z * nodeInfo) : string := ni_id e.2.

(** All (package, version) pairs in the order [CreateMap] numbers them. *)
Definition all_pairs (packagesInfo : list PackageInfo) : list nodeInfo :=
  flat_map (fun packageInfo =>
              map (fun '(packageVersion, versionInfo) =>
                     NodeInfo (Name packageInfo) packageVersion
                       (Timestamp versionInfo))
                (Versions packageInfo))
    packagesInfo.

Section Semver.
(** [semver.ParseRange]: an error or a range. *)
Context (ParseRange : string -> string + semver_Range).
(** [semver.Parse]: the pair [(Version, error)] that Go returns; the error
    is [None] for nil. *)
Context (Parse : string -> semver_Version * option string).

(** The body of [for _, v := range nameToVersion[dependencyName]]. *)
Definition CreateEdges_version (id : nat) (dependencyName : string)
  (c : semver_Range) (v : string) : M unit :=
  let newVersion := (Parse v).1 in
  if c newVersion then
    let dependencyNameVersionString := Sprintf_dash dependencyName v in
    do tid <- read_nameToID dependencyNameVersionString in
    do dependencyNode <- call_Node tid in
    do packageNode <- call_Node (Z.of_nat id) in
    call_SetEdge packageNode dependencyNode
  else mreturn tt.

(** The body of [for dependencyName, dependencyVersion := range ..]. *)
Definition CreateEdges_dependency (id : nat)
  (dep : string * string) : M unit :=
  let '(dependencyName, dependencyVersion) := dep in
  match ParseRange dependencyVersion with
  | inl err => mpanic (PanicError err)
  | inr c =>
      do versions <- read_nameToVersion dependencyName in
      for_range versions (CreateEdges_version id dependencyName c)
  end.

Definition CreateEdges : M unit :=
  do packagesInfo <- read_inputList in
  for_range_indexed 0 packagesInfo (fun id packageInfo =>
    for_range (Versions packageInfo) (fun '(_, dependencyInfo) =>
      for_range (Dependencies dependencyInfo)
        (CreateEdges_dependency id))).
End Semver.

(** The world [CreateEdges] is called in: the graph of [CreateGraph] and the
    two indices, all built from the same package list. *)
Definition built_world (packagesInfo : list PackageInfo) : outcome world :=
  let m := CreateMap packagesInfo in
  let* g := CreateGraph m in
  Ret (mkWorld g packagesInfo (CreateNameToIDMap m)
         (CreateNameToVersionMap packagesInfo)).

(** *** What edge resolution amounts to

    The vocabulary of the statements about [CreateEdges]: the edges it tries
    to set, as a list computed from the package list and the indices, and
    what it takes for [SetEdge] to accept one. *)

(** The world with the edges [E] added to the graph. *)
Definition add_edges (E : list (Z * Z)) (w : world) : world :=
  mkWorld (mkDirectedGraph (nodes (graph w))
             (list_to_set E ∪ edges (graph w)))
    (inputList w) (nameToIDMap w) (nameToVersionMap w).

(** Both ends are nodes of the graph and they differ: [graph.Node] finds
    them and [SetEdge] does not panic. *)
Definition can_set (g : DirectedGraph) (e : Z * Z) : Prop :=
  e.1 ∈ nodes g /\ e.2 ∈ nodes g /\ e.1 <> e.2.

(** The step returns exactly when [ok] holds and every edge of [L] can be
    set, and then it has added the edges of [L]. *)
Definition resolves (m : M unit) (ok : Prop) (L : world -> list (Z * Z))
  : Prop :=
  forall w w', m w = (Ret tt, w') <->
    ok /\ Forall (can_set (graph w)) (L w) /\ w' = add_edges (L w) w.

(** Whatever the outcome, the step has set the first edges of [L] and
    nothing else, all of them when it returns; it needs no recursion
    budget. *)
Definition sets_prefix (m : M unit) (L : world -> list (Z * Z)) : Prop :=
  forall w, exists o E, m w = (o, add_edges E w) /\ o <> OutOfFuel /\
    E `prefix_of` L w /\ (o = Ret tt -> E = L w).

(** The constraints of the package list in the order in which [CreateEdges]
    visits them, each with the index of its package. *)
Fixpoint constraints_from (i : nat) (l : list PackageInfo)
  : list (nat * (string * string)) :=
  match l with
  | [] => []
  | p :: l' =>
      (flat_map (fun ver => pair i <$> Dependencies ver.2) (Versions p)
       ++ constraints_from (S i) l')%list
  end.

Definition constraints (packagesInfo : list PackageInfo)
  : list (nat * (string * string)) :=
  constraints_from 0 packagesInfo.

(** The graph keeps its nodes and its edges; an edge that is new joins two
    different nodes. *)
Definition grows_only (w w' : world) : Prop :=
  nodes (graph w') = nodes (graph w) /\
  edges (graph w) ⊆ edges (graph w') /\
  forall e, e ∈ edges (graph w') ->
    e ∈ edges (graph w) \/ can_set (graph w) e.

Section Attempted.
Context (ParseRange : string -> string + semver_Range).
Context (Parse : string -> semver_Version * option string).

Definition attempted_version (w : world) (i : nat) (dep : string)
  (c : semver_Range) (v : string) : list (Z * Z) :=
  if c (Parse v).1
  then [(Z.of_nat i, default 0 (nameToIDMap w !! Sprintf_dash dep v))]
  else [].

Definition attempted_dependency (w : world) (i : nat)
  (dep : string * string) : list (Z * Z) :=
  match ParseRange dep.2 with
  | inl _ => []
  | inr c =>
      flat_map (attempted_version w i dep.1 c)
        (default [] (nameToVersionMap w !! dep.1))
  end.

Definition attempted_package (w : world) (i : nat) (p : PackageInfo)
  : list (Z * Z) :=
  flat_map (fun ver => flat_map (attempted_dependency w i)
                         (Dependencies ver.2))
    (Versions p).

Fixpoint attempted_from (w : world) (i : nat) (l : list PackageInfo)
  : list (Z * Z) :=
  match l with
  | [] => []
  | p :: l' => (attempted_package w i p ++ attempted_from w (S i) l')%list
  end.

(** Every edge [CreateEdges] tries to set, in order. *)
Definition attempted (w : world) : list (Z * Z) :=
  attempted_from w 0 (inputList w).

(** Every declared range is accepted by [ParseRange]. *)
Definition ranges_parse (packagesInfo : list PackageInfo) : Prop :=
  forall dep range, declares packagesInfo dep range ->
    exists c, ParseRange range = inr c.

(** The range of the constraint is accepted by [ParseRange]. *)
Definition parses (c : nat * (string * string)) : Prop :=
  exists r, ParseRange c.2.2 = inr r.

(** The edges [CreateEdges] tries to set for the constraints [cs]. *)
Definition attempted_of (w : world) (cs : list (nat * (string * string)))
  : list (Z * Z) :=
  flat_map (fun c => attempted_dependency w c.1 c.2) cs.
End Attempted.

(** The version strings of the packages called [name], in input order. *)
Definition versions_of (name : string) (packagesInfo : list PackageInfo)
  : list string :=
  flat_map (fun p => if decide (Name p = name) then (Versions p).*1 else [])
    packagesInfo.

End Build.

(** ** A semver instance for the examples

    A stand-in for blang/semver (v4), which is not part of the repository.
    [Parse] follows the library's [Parse]: [MAJOR.MINOR.PATCH] of decimal
    numbers that fit [uint64], with optional pre-release and build parts,
    the library's error texts, and [Version{}] next to every error.
    [ParseRange] covers the ranges the examples use: one comparator ([>=],
    [<=], [>], [<], [=], [==], [!=], [!] or none) followed by a version,
    without spaces, wildcards or [||]; a range of another form is reported as
    an error.  Strings are taken to be printable ASCII. *)

Module SemverFixture.
Import Build.
Local Open Scope string_scope.

(** [%q] of [fmt]: the string in double quotes, the quote and the backslash
    escaped. *)
Definition quote : ascii := "034"%char.

Definition backslash : ascii := "092"%char.

Fixpoint escaped (s : string) : string :=
  match s with
  | EmptyString => EmptyString
  | String c s' =>
      if decide (c = quote \/ c = backslash)
      then String backslash (String c (escaped s'))
      else String c (escaped s')
  end.

Definition quoted (s : string) : string :=
  String quote (escaped s +:+ String quote EmptyString).

Definition is_digit (c : ascii) : bool :=
  let n := nat_of_ascii c in (48 <=? n)%nat && (n <=? 57)%nat.

(** A letter, a digit or the hyphen. *)
Definition is_alphanum (c : ascii) : bool :=
  let n := nat_of_ascii c in
  is_digit c || ((65 <=? n)%nat && (n <=? 90)%nat)
  || ((97 <=? n)%nat && (n <=? 122)%nat) || (n =? 45)%nat.

Fixpoint containsOnly (set : ascii -> bool) (s : string) : bool :=
  match s with
  | EmptyString => true
  | String c s' => set c && containsOnly set s'
  end.

Definition hasLeadingZeroes (s : string) : bool :=
  match s with
  | String "0" (String _ _) => true
  | _ => false
  end.

Fixpoint digits_value (s : string) (acc : Z) : Z :=
  match s with
  | EmptyString => acc
  | String c s' => digits_value s' (10 * acc + Z.of_nat (nat_of_ascii c - 48))
  end.

(** [strconv.ParseUint(s, 10, 64)] *)
Definition ParseUint (s : string) : string + Z :=
  let failed why := inl ("strconv.ParseUint: parsing " +:+ quoted s +:+ why) in
  match s with
  | EmptyString => failed ": invalid syntax"
  | _ =>
      if containsOnly is_digit s then
        if decide (digits_value s 0 < 2 ^ 64)%Z then inr (digits_value s 0)
        else failed ": value out of range"
      else failed ": invalid syntax"
  end.

(** The text before the first [sep], and the text after it if there is
    one. *)
Fixpoint cut (sep : ascii) (s : string) : string * option string :=
  match s with
  | EmptyString => (EmptyString, None)
  | String c s' =>
      if decide (c = sep) then (EmptyString, Some s')
      else let '(before, after) := cut sep s' in (String c before, after)
  end.

(** [strings.Split(s, sep)] for a separator of one character. *)
Fixpoint Split (sep : ascii) (s cur : string) : list string :=
  match s with
  | EmptyString => [cur]
  | String c s' =>
      if decide (c = sep) then cur :: Split sep s' EmptyString
      else Split sep s' (cur +:+ String c EmptyString)
  end.

(** One of the three numbers of a version. *)
Definition parse_number (what What s : string) : string + Z :=
  if negb (containsOnly is_digit s) then
    inl ("Invalid character(s) found in " +:+ what +:+ " number " +:+ quoted s)
  else if hasLeadingZeroes s then
    inl (What +:+ " number must not contain leading zeroes " +:+ quoted s)
  else ParseUint s.

(** [NewPRVersion]: a pre-release identifier is kept as its text; it is
    numeric when it consists of digits. *)
Definition NewPRVersion (s : string) : string + string :=
  match s with
  | EmptyString => inl "Prerelease is empty"
  | _ =>
      if containsOnly is_digit s then
        if hasLeadingZeroes s then
          inl ("Numeric PreRelease version must not contain leading zeroes "
               +:+ quoted s)
        else match ParseUint s with
             | inl err => inl err
             | inr _ => inr s
             end
      else if containsOnly is_alphanum s then inr s
      else inl ("Invalid character(s) found in prerelease " +:+ quoted s)
  end.

Definition build_meta (s : string) : string + string :=
  match s with
  | EmptyString => inl "Build meta data is empty"
  | _ =>
      if containsOnly is_alphanum s then inr s
      else inl ("Invalid character(s) found in build meta data " +:+ quoted s)
  end.

(** The checked elements, or the first error. *)
Fixpoint each (check : string -> string + string) (l : list string)
  : string + list string :=
  match l with
  | [] => inr []
  | x :: l' =>
      match check x with
      | inl err => inl err
      | inr y =>
          match each check l' with
          | inl err => inl err
          | inr ys => inr (y :: ys)
          end
      end
  end.

Definition parse_version (s : string) : string + semver_Version :=
  match s with
  | EmptyString => inl "Version string empty"
  | _ =>
      match cut "." s with
      | (_, None) => inl "No Major.Minor.Patch elements found"
      | (major, Some rest) =>
          match cut "." rest with
          | (_, None) => inl "No Major.Minor.Patch elements found"
          | (minor, Some patchStr) =>
              match parse_number "major" "Major" major with
              | inl err => inl err
              | inr x =>
                  match parse_number "minor" "Minor" minor with
                  | inl err => inl err
                  | inr y =>
                      let '(patchStr, build) := cut "+" patchStr in
                      let '(patchStr, prerelease) := cut "-" patchStr in
                      let parts o :=
                        match o with
                        | Some t => Split "." t EmptyString
                        | None => []
                        end in
                      match parse_number "patch" "Patch" patchStr with
                      | inl err => inl err
                      | inr z =>
                          match each NewPRVersion (parts prerelease) with
                          | inl err => inl err
                          | inr pre =>
                              match each build_meta (parts build) with
                              | inl err => inl err
                              | inr meta => inr (mkVersion x y z pre meta)
                              end
                          end
                      end
                  end
              end
          end
      end
  end.

Definition Parse (s : string) : semver_Version * option string :=
  match parse_version s with
  | inl err => (Version_zero, Some err)
  | inr v => (v, None)
  end.

(** [PRVersion.Compare]: numeric identifiers by value and below the others,
    the others as strings. *)
Definition PRVersion_Compare (v o : string) : comparison :=
  match containsOnly is_digit v, containsOnly is_digit o with
  | true, true => (digits_value v 0 ?= digits_value o 0)%Z
  | true, false => Lt
  | false, true => Gt
  | false, false => String.compare v o
  end.

Fixpoint Pre_Compare (v o : list string) : comparison :=
  match v, o with
  | [], [] => Eq
  | [], _ :: _ => Lt
  | _ :: _, [] => Gt
  | x :: v', y :: o' =>
      match PRVersion_Compare x y with
      | Eq => Pre_Compare v' o'
      | c => c
      end
  end.

(** [Version.Compare]: a version without pre-release part is above the same
    version with one. *)
Definition Compare (v o : semver_Version) : comparison :=
  match (Major v ?= Major o)%Z with
  | Eq =>
      match (Minor v ?= Minor o)%Z with
      | Eq =>
          match (Patch v ?= Patch o)%Z with
          | Eq =>
              match Pre v, Pre o with
              | [], [] => Eq
              | [], _ :: _ => Gt
              | _ :: _, [] => Lt
              | pv, po => Pre_Compare pv po
              end
          | c => c
          end
      | c => c
      end
  | c => c
  end.

(** [splitComparatorVersion]: the comparator is what stands before the
    first digit. *)
Fixpoint split_comparator (s op : string) : option (string * string) :=
  match s with
  | EmptyString => None
  | String c s' =>
      if is_digit c then Some (op, s)
      else split_comparator s' (op +:+ String c EmptyString)
  end.

Definition parse_comparator (op : string) : option (comparison -> bool) :=
  if decide (op = "" ∨ op = "=" ∨ op = "==") then
    Some (fun c => match c with Eq => true | _ => false end)
  else if decide (op = "!=" ∨ op = "!") then
    Some (fun c => match c with Eq => false | _ => true end)
  else if decide (op = ">") then
    Some (fun c => match c with Gt => true | _ => false end)
  else if decide (op = ">=") then
    Some (fun c => match c with Lt => false | _ => true end)
  else if decide (op = "<") then
    Some (fun c => match c with Lt => true | _ => false end)
  else if decide (op = "<=") then
    Some (fun c => match c with Gt => false | _ => true end)
  else None.

Definition ParseRange (s : string) : string + semver_Range :=
  match split_comparator s "" with
  | None => inl ("Could not get version from string: " +:+ quoted s)
  | Some (op, vs) =>
      let failed why := inl ("Could not parse Range " +:+ quoted s +:+ ": "
                             +:+ why) in
      match parse_comparator op with
      | None =>
          failed ("Could not parse comparator " +:+ quoted op +:+ " in "
                  +:+ quoted (op +:+ vs))
      | Some f =>
          match Parse vs with
          | (o, None) => inr (fun v => f (Compare v o))
          | (_, Some err) =>
              failed ("Could not parse version " +:+ quoted vs +:+ " in "
                      +:+ quoted (op +:+ vs) +:+ ": " +:+ err)
          end
      end
  end.

(** Runs [CreateEdges] in the world built from a package list. *)
Definition build (packagesInfo : list PackageInfo)
  : outcome (outcome unit * world) :=
  let* w := built_world packagesInfo in Ret (CreateEdges ParseRange Parse w).

Definition no_deps (v : string) : string * VersionInfo :=
  (v, mkVersionInfo "t" []).

End SemverFixture.


(** ** Fixtures *)

Module Fixtures.
Import Implicit.

(** A node as [NewGraphNode] and [AddNeighbor] leave it: the neighbour
    slice is nil as long as nothing was appended. *)
Definition gnode (i : Z) (ns : list ptr) : GraphNode :=
  mkGraphNode i
    match ns with
    | [] => nil_slice
    | _ => make_slice (NGraphNode <$> ns)
    end.

(** 0 -> 1 -> 2 *)
Definition chain3 : heap := [gnode 0 [1%nat]; gnode 1 [2%nat]; gnode 2 []].

(** 0 -> 1 -> 2 -> 0 *)
Definition cycle3 : heap :=
  [gnode 0 [1%nat]; gnode 1 [2%nat]; gnode 2 [0%nat]].

(** 0 -> 1 -> 3 and 0 -> 2 -> 3 *)
Definition diamond : heap :=
  [gnode 0 [1%nat; 2%nat]; gnode 1 [3%nat]; gnode 2 [3%nat]; gnode 3 []].

(** 0 -> 1 -> 2 -> 3 -> 2: a cycle that the root and its direct neighbour
    are not part of. *)
Definition lasso : heap :=
  [gnode 0 [1%nat]; gnode 1 [2%nat]; gnode 2 [3%nat]; gnode 3 [2%nat]].

(** 0 -> 1 -> 2 -> 3 -> 1 *)
Definition loop_back : heap :=
  [gnode 0 [1%nat]; gnode 1 [2%nat]; gnode 2 [3%nat]; gnode 3 [1%nat]].

(** Two nodes without neighbours. *)
Definition two_nodes : heap := [gnode 0 []; gnode 1 []].

(** 0 -> 1, where the neighbour slice of 1 is allocated and empty
    ([Neighbors: []graph.Node{}]). *)
Definition empty_slice : heap :=
  [gnode 0 [1%nat]; mkGraphNode 1 (make_slice [])].

End Fixtures.

Module BuildFixtures.
Import Build SemverFixture.
Local Open Scope string_scope.

(** C-1.0.0 depends on every version of A from 1.0.0 on; A has two
    versions, so the index of a package in the list and the node ID of its
    version differ from B on. *)
Definition index_is_not_id : list PackageInfo :=
  [ mkPackageInfo "A" [no_deps "1.0.0"; no_deps "2.0.0"];
    mkPackageInfo "B" [no_deps "1.0.0"];
    mkPackageInfo "C" [("1.0.0", mkVersionInfo "t" [("A", ">=1.0.0")])] ].

(** The same package list with the two versions of A in the other order. *)
Definition index_is_not_id' : list PackageInfo :=
  [ mkPackageInfo "A" [no_deps "2.0.0"; no_deps "1.0.0"];
    mkPackageInfo "B" [no_deps "1.0.0"];
    mkPackageInfo "C" [("1.0.0", mkVersionInfo "t" [("A", ">=1.0.0")])] ].

(** A-1.0.0 has a malformed constraint on B and a well-formed one on C. *)
Definition malformed_range : list PackageInfo :=
  [ mkPackageInfo "A"
      [("1.0.0", mkVersionInfo "t" [("B", "garbage"); ("C", ">=1.0.0")])];
    mkPackageInfo "B" [no_deps "1.0.0"];
    mkPackageInfo "C" [no_deps "1.0.0"] ].

(** The same with the two constraints in the other order. *)
Definition malformed_range' : list PackageInfo :=
  [ mkPackageInfo "A"
      [("1.0.0", mkVersionInfo "t" [("C", ">=1.0.0"); ("B", "garbage")])];
    mkPackageInfo "B" [no_deps "1.0.0"];
    mkPackageInfo "C" [no_deps "1.0.0"] ].

(** B has published a version whose name is not a semantic version. *)
Definition malformed_version : list PackageInfo :=
  [ mkPackageInfo "A" [("1.0.0", mkVersionInfo "t" [("B", ">=0.0.0")])];
    mkPackageInfo "B" [no_deps "latest"] ].

(** The scenario of two packages: A-1.0.0 needs B below 2.0.0. *)
Definition two_packages : list PackageInfo :=
  [ mkPackageInfo "A" [("1.0.0", mkVersionInfo "t" [("B", "<2.0.0")])];
    mkPackageInfo "B" [no_deps "1.0.0"; no_deps "2.0.0"] ].

(** One version per package, all of them semantic versions: A-1.0.0 needs B
    from 1.0.0 on. *)
Definition one_version_each : list PackageInfo :=
  [ mkPackageInfo "A" [("1.0.0", mkVersionInfo "t" [("B", ">=1.0.0")])];
    mkPackageInfo "B" [no_deps "1.5.0"] ].

(** Two different pairs with the composite string "a-b-c". *)
Definition dash_collision : list PackageInfo :=
  [ mkPackageInfo "a-b" [no_deps "c"];
    mkPackageInfo "a" [no_deps "b-c"] ].

(** The world built from [malformed_range]: three nodes, no edge yet. *)
Definition malformed_range_world : world :=
  mkWorld (mkDirectedGraph {[0; 1; 2]} ∅) malformed_range
    (CreateNameToIDMap (CreateMap malformed_range))
    (CreateNameToVersionMap malformed_range).

(** The edges of the graph after [CreateEdges] ran in the built world. *)
Definition built_edges (packagesInfo : list PackageInfo)
  : option (outcome unit * list (Z * Z)) :=
  match build packagesInfo with
  | Ret (o, w) => Some (o, elements (edges (graph w)))
  | _ => None
  end.

(** The world that [built_world] returns for a package list, and the world
    [CreateEdges] leaves when it runs in it. *)
Definition world_of (packagesInfo : list PackageInfo) : world :=
  mkWorld (mkDirectedGraph (dom (CreateMap packagesInfo)) ∅) packagesInfo
    (CreateNameToIDMap (CreateMap packagesInfo))
    (CreateNameToVersionMap packagesInfo).

Definition resolved_world (packagesInfo : list PackageInfo) : world :=
  (CreateEdges ParseRange Parse (world_of packagesInfo)).2.

End BuildFixtures.

(** * Properties of the implicit graph *)

Module ImplicitFacts.
Import Implicit Fixtures.
Local Open Scope nat_scope.

Lemma deref_Some h p g : h !! p = Some g -> deref h p = Ret g.
Proof. unfold deref. by intros ->. Qed.

Lemma ID_node_id h n i : node_id h n = Some i -> ID h n = Ret i.
Proof.
  destruct n as [p|j]; simpl.
  - unfold deref. destruct (h !! p); simpl; congruence.
  - congruence.
Qed.

Lemma node_id_GraphNode h p g : h !! p = Some g -> node_id h (NGraphNode p) = Some (id g).
Proof. simpl. by intros ->. Qed.

Lemma closed_neighbor h p g n :
  closed h -> h !! p = Some g -> n ∈ Neighbors g -> is_Some (node_id h n).
Proof.
  intros Hc Hp Hn. unfold closed in Hc.
  rewrite Forall_forall in Hc. specialize (Hc g (list_elem_of_lookup_2 _ _ _ Hp)).
  rewrite Forall_forall in Hc. by apply Hc.
Qed.

Lemma heap_ids_neighbor h p g n i :
  h !! p = Some g -> n ∈ Neighbors g -> node_id h n = Some i ->
  i ∈ heap_ids h.
Proof.
  intros Hp Hn Hi. unfold heap_ids.
  apply list_elem_of_In, in_flat_map. exists g. split.
  - apply list_elem_of_In. by eapply list_elem_of_lookup_2.
  - right. apply in_flat_map. exists n. split; [by apply list_elem_of_In|].
    destruct n as [q|j]; simpl in *.
    + destruct (h !! q); simplify_eq/=. by left.
    + simplify_eq. by left.
Qed.

Lemma all_nodes_ptr h p g : h !! p = Some g -> NGraphNode p ∈ all_nodes h.
Proof.
  intros Hp. unfold all_nodes. apply elem_of_app. left.
  apply list_elem_of_fmap. exists p. split; [done|].
  apply elem_of_seq. apply lookup_lt_Some in Hp. lia.
Qed.

Lemma all_nodes_neighbor h p g n :
  h !! p = Some g -> n ∈ Neighbors g -> n ∈ all_nodes h.
Proof.
  intros Hp Hn. unfold all_nodes. apply elem_of_app. right.
  apply list_elem_of_In, in_flat_map. exists g.
  split; apply list_elem_of_In; [by eapply list_elem_of_lookup_2|done].
Qed.

Lemma unique_ids_neighbor h p g n p' g' :
  unique_ids h -> h !! p = Some g -> n ∈ Neighbors g ->
  h !! p' = Some g' -> node_id h n = Some (id g') -> n = NGraphNode p'.
Proof.
  intros Hu Hp Hn Hp' Hi. unfold unique_ids in Hu.
  rewrite Forall_forall in Hu.
  specialize (Hu n (all_nodes_neighbor _ _ _ _ Hp Hn)).
  rewrite Forall_forall in Hu.
  apply (Hu _ (all_nodes_ptr _ _ _ Hp')).
  by rewrite Hi, (node_id_GraphNode _ _ _ Hp').
Qed.

Lemma unique_ids_ptr h p g p' g' :
  unique_ids h -> h !! p = Some g -> h !! p' = Some g' -> id g = id g' ->
  p = p'.
Proof.
  intros Hu Hp Hp' Hi. unfold unique_ids in Hu.
  rewrite Forall_forall in Hu.
  specialize (Hu _ (all_nodes_ptr _ _ _ Hp)).
  rewrite Forall_forall in Hu.
  specialize (Hu _ (all_nodes_ptr _ _ _ Hp')).
  rewrite (node_id_GraphNode _ _ _ Hp), (node_id_GraphNode _ _ _ Hp') in Hu.
  by injection (Hu (f_equal Some Hi)).
Qed.

Lemma size_list_to_set_le (l : list Z) :
  size (list_to_set l : gset Z) <= length l.
Proof.
  induction l as [|x l IH]; cbn [list_to_set length].
  - by rewrite size_empty.
  - rewrite size_union_alt, size_singleton.
    assert (size (list_to_set l ∖ {[x]} : gset Z) <= size (list_to_set l : gset Z))
      by (apply subseteq_size; set_solver).
    lia.
Qed.

Lemma unseen_budget h seen : unseen h seen < budget h.
Proof.
  unfold unseen, budget.
  pose proof (size_list_to_set_le (heap_ids h)).
  assert (size ((list_to_set (heap_ids h) : gset Z) ∖ seen)
          <= size (list_to_set (heap_ids h) : gset Z))
    by (apply subseteq_size; set_solver).
  lia.
Qed.

Lemma unseen_mono h seen seen' : seen ⊆ seen' -> unseen h seen' <= unseen h seen.
Proof. intros Hs. unfold unseen. apply subseteq_size. set_solver. Qed.

Lemma unseen_mark h seen i :
  i ∈ heap_ids h -> i ∉ seen -> unseen h ({[i]} ∪ seen) < unseen h seen.
Proof.
  intros Hi Hn. unfold unseen. apply subset_size.
  assert (i ∈ (list_to_set (heap_ids h) : gset Z))
    by by apply elem_of_list_to_set.
  split; [set_solver|].
  intros Hsub. specialize (Hsub i). set_solver.
Qed.

(** *** Termination of the searches that mark what they visit

    [Has], [FindNeighbors] and [edgeBetween] add the ID of a neighbour to the
    visited set before they descend into it, and descend only into
    neighbours whose ID was not in the set: [unseen] decreases along the
    recursion. *)

Section Termination.
Context (h : heap) (Hclosed : closed h).

Lemma grows_trans {A} (o : outcome (A * gset Z)) seen seen' :
  seen ⊆ seen' -> grows o seen' -> grows o seen.
Proof. intros Hs (a & s & -> & Hs'). exists a, s. split; [done|set_solver]. Qed.

(** The first neighbour of a loop: it is allocated, and marking it, if it
    is new, decreases [unseen]. *)
Lemma loop_head p g n ns seen :
  h !! p = Some g -> n :: ns ⊆ Neighbors g ->
  ns ⊆ Neighbors g /\
  exists i, node_id h n = Some i /\
    (i ∉ seen -> unseen h ({[i]} ∪ seen) < unseen h seen).
Proof.
  intros Hp Hns.
  assert (Hn : n ∈ Neighbors g) by (apply Hns; left).
  split; [intros m Hm; apply Hns; by right|].
  destruct (closed_neighbor _ _ _ _ Hclosed Hp Hn) as [i Hi].
  exists i. split; [done|]. intros Hseen.
  by apply unseen_mark; [eapply heap_ids_neighbor|].
Qed.

Lemma node_id_is_Some q i :
  node_id h (NGraphNode q) = Some i -> exists gq, h !! q = Some gq.
Proof. simpl. destruct (h !! q); [eauto|done]. Qed.

Lemma Has_loop_returns target rec fuel p g ns seen :
  (forall q gq s, h !! q = Some gq -> unseen h s < fuel -> grows (rec q s) s) ->
  h !! p = Some g -> ns ⊆ Neighbors g -> unseen h seen < S fuel ->
  grows (Has_loop h target rec ns seen) seen.
Proof.
  intros Hrec Hp. revert seen.
  induction ns as [|n ns IH]; intros seen Hns Hfuel; simpl.
  { by exists false, seen. }
  destruct (loop_head _ _ _ _ seen Hp Hns) as (Hns' & i & Hi & Hlt).
  rewrite (ID_node_id _ _ _ Hi). simpl.
  destruct (decide (i ∈ seen)) as [Hin|Hout]; [by apply IH|].
  specialize (Hlt Hout).
  destruct (decide (i = target)) as [Heq'|Hne'];
    [by exists true, ({[i]} ∪ seen); split; [|set_solver]|].
  assert (Hnext : forall s, {[i]} ∪ seen ⊆ s ->
            grows (Has_loop h target rec ns s) seen).
  { intros s Hs. apply (grows_trans _ _ s); [set_solver|].
    apply IH; [done|]. pose proof (unseen_mono h _ _ Hs). lia. }
  destruct n as [q|j]; [|by apply Hnext].
  destruct (node_id_is_Some _ _ Hi) as [gq Hq].
  destruct (Hrec q gq ({[i]} ∪ seen) Hq) as (b & s & -> & Hs); [lia|].
  simpl. destruct b; [|by apply Hnext].
  exists true, s. split; [done|set_solver].
Qed.

Lemma Has_returns fuel p g seen target :
  h !! p = Some g -> unseen h seen < fuel ->
  grows (Has fuel h p seen target) seen.
Proof.
  revert p g seen. induction fuel as [|fuel IH]; intros p g seen Hp Hfuel;
    [lia|].
  simpl. rewrite (deref_Some _ _ _ Hp). simpl.
  eapply Has_loop_returns; eauto.
Qed.

Lemma Node_returns g target :
  is_Some (h !! g) -> returns (Node h g target).
Proof.
  intros [gn Hg]. unfold Node, Node_fuel.
  pose proof (unseen_budget h) as Hb. revert Hb.
  generalize (budget h). intros fuel Hb.
  rewrite (deref_Some _ _ _ Hg). simpl.
  destruct (decide (target = id gn)) as [Heq|Hne]; [by eexists|].
  assert (Hns : Neighbors gn ⊆ Neighbors gn) by done. revert Hns.
  generalize ({[id gn]} : gset Z).
  generalize (Neighbors gn) at 1 3.
  induction l as [|n ns IH]; intros seen Hns; simpl; [by eexists|].
  destruct (loop_head _ _ _ _ seen Hg Hns) as (Hns' & i & Hi & _).
  rewrite (ID_node_id _ _ _ Hi). simpl.
  destruct (decide (i = target)) as [Heq'|Hne']; [by eexists|].
  destruct n as [q|j]; [|by apply IH].
  destruct (node_id_is_Some _ _ Hi) as [gq Hq].
  destruct (Has_returns fuel q gq seen target Hq (Hb _))
    as (b & s & -> & _).
  simpl.
  destruct b; [by eexists|by apply IH].
Qed.

Lemma FindNeighbors_loop_returns rec fuel p g ns seen :
  (forall q gq s, h !! q = Some gq -> unseen h s < fuel -> grows (rec q s) s) ->
  h !! p = Some g -> ns ⊆ Neighbors g -> unseen h seen < S fuel ->
  grows (FindNeighbors_loop h rec ns seen) seen.
Proof.
  intros Hrec Hp. revert seen.
  induction ns as [|n ns IH]; intros seen Hns Hfuel; simpl.
  { by exists nil_slice, seen. }
  destruct (loop_head _ _ _ _ seen Hp Hns) as (Hns' & i & Hi & Hlt).
  rewrite (ID_node_id _ _ _ Hi). simpl.
  destruct (decide (i ∈ seen)) as [Hin|Hout]; [by apply IH|].
  specialize (Hlt Hout).
  assert (Hnext : forall s, {[i]} ∪ seen ⊆ s ->
            grows (FindNeighbors_loop h rec ns s) seen).
  { intros s Hs. apply (grows_trans _ _ s); [set_solver|].
    apply IH; [done|]. pose proof (unseen_mono h _ _ Hs). lia. }
  destruct n as [q|j]; [|by apply Hnext].
  destruct (node_id_is_Some _ _ Hi) as [gq Hq].
  destruct (Hrec q gq ({[i]} ∪ seen) Hq) as (r & s & -> & Hs); [lia|].
  simpl. destruct (is_nil r); [by apply Hnext|].
  exists r, s. split; [done|set_solver].
Qed.

Lemma FindNeighbors_returns fuel p g target seen :
  h !! p = Some g -> unseen h seen < fuel ->
  grows (FindNeighbors fuel h p target seen) seen.
Proof.
  revert p g seen. induction fuel as [|fuel IH]; intros p g seen Hp Hfuel;
    [lia|].
  simpl. rewrite (deref_Some _ _ _ Hp). simpl.
  destruct (decide (target = id g)) as [Heq|Hne]; [by eexists _, _|].
  eapply FindNeighbors_loop_returns; eauto.
Qed.

Lemma From_returns g target :
  is_Some (h !! g) -> returns (From h g target).
Proof.
  intros [gn Hg]. unfold From, From_fuel.
  pose proof (unseen_budget h) as Hb. revert Hb.
  generalize (budget h). intros fuel Hb.
  rewrite (deref_Some _ _ _ Hg). simpl.
  destruct (decide (target = id gn)) as [Heq|Hne]; [by eexists|].
  assert (Hns : Neighbors gn ⊆ Neighbors gn) by done. revert Hns.
  generalize ({[id gn]} : gset Z).
  generalize (Neighbors gn) at 1 3.
  induction l as [|n ns IH]; intros seen Hns; simpl; [by eexists|].
  destruct (loop_head _ _ _ _ seen Hg Hns) as (Hns' & i & Hi & _).
  rewrite (ID_node_id _ _ _ Hi). simpl.
  destruct n as [q|j]; [|by apply IH].
  destruct (node_id_is_Some _ _ Hi) as [gq Hq].
  destruct (FindNeighbors_returns fuel q gq target ({[i]} ∪ seen) Hq
              (Hb _)) as (r & s & -> & _).
  simpl.
  destruct (is_nil r); [by apply IH|by eexists].
Qed.

Lemma edge_scan_returns uid vid p g ns :
  h !! p = Some g -> ns ⊆ Neighbors g ->
  returns (edge_scan h uid vid p ns).
Proof.
  intros Hp. induction ns as [|n ns IH]; intros Hns; simpl; [by eexists|].
  destruct (loop_head _ _ _ _ ∅ Hp Hns) as (Hns' & i & Hi & _).
  rewrite (ID_node_id _ _ _ Hi). simpl.
  destruct (_ || _); [by eexists|by apply IH].
Qed.

Lemma edgeBetween_loop_returns rec fuel p g ns seen :
  (forall q gq s, h !! q = Some gq -> unseen h s < fuel -> grows (rec q s) s) ->
  h !! p = Some g -> ns ⊆ Neighbors g -> unseen h seen < S fuel ->
  grows (edgeBetween_loop h rec ns seen) seen.
Proof.
  intros Hrec Hp. revert seen.
  induction ns as [|n ns IH]; intros seen Hns Hfuel; simpl.
  { by exists None, seen. }
  destruct (loop_head _ _ _ _ seen Hp Hns) as (Hns' & i & Hi & Hlt).
  rewrite (ID_node_id _ _ _ Hi). simpl.
  destruct (decide (i ∈ seen)) as [Hin|Hout]; [by apply IH|].
  specialize (Hlt Hout).
  assert (Hnext : forall s, {[i]} ∪ seen ⊆ s ->
            grows (edgeBetween_loop h rec ns s) seen).
  { intros s Hs. apply (grows_trans _ _ s); [set_solver|].
    apply IH; [done|]. pose proof (unseen_mono h _ _ Hs). lia. }
  destruct n as [q|j]; [|by apply Hnext].
  destruct (node_id_is_Some _ _ Hi) as [gq Hq].
  destruct (Hrec q gq ({[i]} ∪ seen) Hq) as (r & s & -> & Hs); [lia|].
  simpl. destruct r as [e|]; [|by apply Hnext].
  exists (Some e), s. split; [done|set_solver].
Qed.

Lemma edgeBetween_returns fuel p g uid vid seen :
  h !! p = Some g -> unseen h seen < fuel ->
  grows (edgeBetween fuel h p uid vid seen) seen.
Proof.
  revert p g seen. induction fuel as [|fuel IH]; intros p g seen Hp Hfuel;
    [lia|].
  simpl. rewrite (deref_Some _ _ _ Hp). simpl.
  destruct (_ || _).
  - destruct (edge_scan_returns uid vid p g (Neighbors g) Hp) as [r ->];
      [done|].
    by exists r, seen.
  - eapply edgeBetween_loop_returns; eauto.
Qed.

Lemma EdgeBetween_returns g uid vid :
  is_Some (h !! g) -> returns (EdgeBetween h g uid vid).
Proof.
  intros [gn Hg]. unfold EdgeBetween, EdgeBetween_fuel.
  pose proof (unseen_budget h) as Hb. revert Hb.
  generalize (budget h). intros fuel Hb.
  rewrite (deref_Some _ _ _ Hg). simpl.
  destruct (_ || _); [by eapply edge_scan_returns|].
  assert (Hns : Neighbors gn ⊆ Neighbors gn) by done. revert Hns.
  generalize ({[id gn]} : gset Z).
  generalize (Neighbors gn) at 1 3.
  induction l as [|n ns IH]; intros seen Hns; simpl; [by eexists|].
  destruct (loop_head _ _ _ _ seen Hg Hns) as (Hns' & i & Hi & _).
  rewrite (ID_node_id _ _ _ Hi). simpl.
  destruct n as [q|j]; [|by apply IH].
  destruct (node_id_is_Some _ _ Hi) as [gq Hq].
  destruct (edgeBetween_returns fuel q gq uid vid ({[i]} ∪ seen) Hq
              (Hb _)) as (r & s & -> & _).
  simpl.
  destruct r; [by eexists|by apply IH].
Qed.
End Termination.

(** *** [EdgeBetween] finds every anchor the search can discover *)

Section EdgeSearch.
Context (h : heap) (uid vid : Z).
Context (Hclosed : closed h) (Hunique : unique_ids h).

Local Abbreviation scan_hit := (scan_hit h uid vid).
Local Abbreviation explored := (explored h uid vid).
Local Abbreviation marked_explored := (marked_explored h uid vid).

Lemma explored_mono seen seen' g :
  seen ⊆ seen' -> explored seen g -> explored seen' g.
Proof.
  intros Hs [Ha Hn]. split; [done|].
  intros Hna n Hin. destruct (Hn Hna n Hin) as (i & Hi & Hs').
  exists i. split; [done|set_solver].
Qed.

Lemma edge_scan_spec g ns :
  Forall (fun n => is_Some (node_id h n)) ns ->
  exists r, edge_scan h uid vid g ns = Ret r /\
    (r = None -> forall n, n ∈ ns -> ~ scan_hit n).
Proof.
  induction 1 as [|n ns [i Hi] _ IH]; simpl.
  - exists None. split; [done|]. intros _ n Hn. by apply elem_of_nil in Hn.
  - rewrite (ID_node_id _ _ _ Hi). simpl.
    destruct (bool_decide (i = uid) || bool_decide (i = vid)) eqn:Hb.
    + eexists. split; [done|]. discriminate.
    + destruct IH as (r & -> & Hr). exists r. split; [done|].
      intros Hnone m [->|Hm]%elem_of_cons; [|by apply Hr].
      apply orb_false_iff in Hb as [Hu Hv].
      apply bool_decide_eq_false in Hu, Hv.
      unfold scan_hit. rewrite Hi. intros [?|?]; simplify_eq.
Qed.

Lemma edgeBetween_loop_spec rec fuel p g ns seen :
  (forall q gq s, h !! q = Some gq -> unseen h s < fuel ->
     exists r s', rec q s = Ret (r, s') /\ s ⊆ s' /\
       (r = None -> explored s' gq /\ marked_explored s s')) ->
  h !! p = Some g -> ns ⊆ Neighbors g -> unseen h seen < S fuel ->
  exists r seen', edgeBetween_loop h rec ns seen = Ret (r, seen') /\
    seen ⊆ seen' /\
    (r = None ->
       (forall n, n ∈ ns -> exists i, node_id h n = Some i /\ i ∈ seen') /\
       marked_explored seen seen').
Proof.
  intros Hrec Hp. revert seen.
  induction ns as [|n ns IH]; intros seen Hns Hfuel; simpl.
  - exists None, seen. split_and!; [done..|]. intros _. split.
    + intros n Hn. by apply elem_of_nil in Hn.
    + intros q gq _ Hin Hout. done.
  - assert (Hn : n ∈ Neighbors g) by (apply Hns; left).
    assert (Hns' : ns ⊆ Neighbors g) by (intros m Hm; apply Hns; by right).
    destruct (closed_neighbor _ _ _ _ Hclosed Hp Hn) as [i Hi].
    rewrite (ID_node_id _ _ _ Hi). simpl.
    destruct (decide (i ∈ seen)) as [Hseen|Hseen].
    { destruct (IH seen Hns' Hfuel) as (r & seen' & -> & Hsub & Hr).
      exists r, seen'. split_and!; [done..|].
      intros Hnone. destruct (Hr Hnone) as [Hall Hm]. split; [|done].
      intros m [->|Hm']%elem_of_cons; [|by apply Hall].
      exists i. split; [done|set_solver]. }
    pose proof (unseen_mark h seen i
                  (heap_ids_neighbor _ _ _ _ _ Hp Hn Hi) Hseen) as Hlt.
    destruct n as [q|j].
    + simpl in Hi. destruct (h !! q) as [gq|] eqn:Hq; simplify_eq/=.
      destruct (Hrec q gq ({[id gq]} ∪ seen) Hq) as (r1 & s1 & -> & Hs1 & Hr1);
        [lia|]. simpl.
      destruct r1 as [e|].
      { exists (Some e), s1. split_and!; [done|set_solver|discriminate]. }
      destruct (Hr1 eq_refl) as [Hgq Hm1].
      destruct (IH s1 Hns') as (r & seen' & -> & Hsub & Hr).
      { pose proof (unseen_mono h _ _ Hs1). lia. }
      exists r, seen'. split_and!; [done|set_solver|].
      intros Hnone. destruct (Hr Hnone) as [Hall Hm]. split.
      * intros m [->|Hm']%elem_of_cons; [|by apply Hall].
        exists (id gq). split; [simpl; by rewrite Hq|set_solver].
      * intros p' g' Hp' Hin Hout.
        destruct (decide (id g' ∈ s1)) as [Hin1|Hout1]; [|by apply (Hm p' g')].
        apply (explored_mono s1); [done|].
        destruct (decide (id g' = id gq)) as [Heq|Hne].
        -- assert (p' = q) as ->
             by (eapply unique_ids_ptr; eauto).
           pose proof (eq_trans (eq_sym Hq) Hp') as Hgg.
           by injection Hgg as <-.
        -- apply (Hm1 p' g' Hp' Hin1). set_solver.
    + simpl in Hi. simplify_eq.
      destruct (IH ({[i]} ∪ seen) Hns') as (r & seen' & -> & Hsub & Hr);
        [lia|].
      exists r, seen'. split_and!; [done|set_solver|].
      intros Hnone. destruct (Hr Hnone) as [Hall Hm]. split.
      * intros m [->|Hm']%elem_of_cons; [|by apply Hall].
        exists i. split; [done|set_solver].
      * intros p' g' Hp' Hin Hout.
        destruct (decide (id g' = i)) as [Heq|Hne].
        -- exfalso.
           assert (NOther i = NGraphNode p'); [|done].
           eapply (unique_ids_neighbor h p g (NOther i) p' g'); eauto.
           simpl. by rewrite Heq.
        -- apply (Hm p' g' Hp' Hin). set_solver.
Qed.

Lemma edgeBetween_spec fuel p g seen :
  h !! p = Some g -> unseen h seen < fuel ->
  exists r seen', edgeBetween fuel h p uid vid seen = Ret (r, seen') /\
    seen ⊆ seen' /\
    (r = None -> explored seen' g /\ marked_explored seen seen').
Proof.
  revert p g seen. induction fuel as [|fuel IH]; intros p g seen Hp Hfuel;
    [lia|].
  simpl. rewrite (deref_Some _ _ _ Hp). simpl.
  destruct (bool_decide (uid = id g) || bool_decide (vid = id g)) eqn:Hb.
  - destruct (edge_scan_spec p (Neighbors g)) as (r & -> & Hr).
    { apply Forall_forall. intros n Hn. by eapply closed_neighbor. }
    simpl. exists r, seen. split_and!; [done..|].
    intros Hnone. split.
    + split; [intros _; by apply Hr|].
      intros Hna. exfalso. apply Hna.
      apply orb_true_iff in Hb as [Hb|Hb]; apply bool_decide_eq_true in Hb;
        [by left|by right].
    + intros q gq _ Hin Hout. done.
  - destruct (edgeBetween_loop_spec
                (fun q s => edgeBetween fuel h q uid vid s)
                fuel p g (Neighbors g) seen) as (r & seen' & -> & Hsub & Hr);
      [by intros; apply IH|done|done|lia|].
    exists r, seen'. split_and!; [done..|].
    intros Hnone. destruct (Hr Hnone) as [Hall Hm]. split; [|done].
    split; [|by intros _].
    intros [Ha|Ha]; apply orb_false_iff in Hb as [Hu Hv];
      apply bool_decide_eq_false in Hu, Hv; done.
Qed.

Lemma EdgeBetween_loop_spec fuel p g ns seen :
  budget h <= fuel -> h !! p = Some g -> ns ⊆ Neighbors g ->
  exists r, EdgeBetween_loop fuel h uid vid ns seen = Ret r /\
    (r = None -> exists seen', seen ⊆ seen' /\
       (forall n, n ∈ ns -> exists i, node_id h n = Some i /\ i ∈ seen') /\
       marked_explored seen seen').
Proof.
  intros Hfuel Hp. revert seen.
  induction ns as [|n ns IH]; intros seen Hns; simpl.
  - exists None. split; [done|]. intros _. exists seen. split_and!; [done| |].
    + intros n Hn. by apply elem_of_nil in Hn.
    + by intros q gq _ Hin Hout.
  - assert (Hn : n ∈ Neighbors g) by (apply Hns; left).
    assert (Hns' : ns ⊆ Neighbors g) by (intros m Hm; apply Hns; by right).
    destruct (closed_neighbor _ _ _ _ Hclosed Hp Hn) as [i Hi].
    rewrite (ID_node_id _ _ _ Hi). simpl.
    destruct n as [q|j].
    + simpl in Hi. destruct (h !! q) as [gq|] eqn:Hq; simplify_eq/=.
      destruct (edgeBetween_spec fuel q gq ({[id gq]} ∪ seen) Hq)
        as (r1 & s1 & -> & Hs1 & Hr1).
      { pose proof (unseen_budget h ({[id gq]} ∪ seen)). lia. }
      simpl.
      destruct r1 as [e|]; [by eexists|].
      destruct (Hr1 eq_refl) as [Hgq Hm1].
      destruct (IH s1 Hns') as (r & -> & Hr). exists r. split; [done|].
      intros Hnone. destruct (Hr Hnone) as (seen' & Hsub & Hall & Hm).
      exists seen'. split_and!; [set_solver| |].
      * intros m [->|Hm']%elem_of_cons; [|by apply Hall].
        exists (id gq). split; [simpl; by rewrite Hq|set_solver].
      * intros p' g' Hp' Hin Hout.
        destruct (decide (id g' ∈ s1)) as [Hin1|Hout1]; [|by apply (Hm p' g')].
        apply (explored_mono s1); [done|].
        destruct (decide (id g' = id gq)) as [Heq|Hne].
        -- assert (p' = q) as -> by (eapply unique_ids_ptr; eauto).
           pose proof (eq_trans (eq_sym Hq) Hp') as Hgg.
           by injection Hgg as <-.
        -- apply (Hm1 p' g' Hp' Hin1). set_solver.
    + simpl in Hi. simplify_eq.
      destruct (IH ({[i]} ∪ seen) Hns') as (r & -> & Hr).
      exists r. split; [done|].
      intros Hnone. destruct (Hr Hnone) as (seen' & Hsub & Hall & Hm).
      exists seen'. split_and!; [set_solver| |].
      * intros m [->|Hm']%elem_of_cons; [|by apply Hall].
        exists i. split; [done|set_solver].
      * intros p' g' Hp' Hin Hout.
        destruct (decide (id g' = i)) as [Heq|Hne].
        -- exfalso.
           assert (NOther i = NGraphNode p'); [|done].
           eapply (unique_ids_neighbor h p g (NOther i) p' g'); eauto.
           simpl. by rewrite Heq.
        -- apply (Hm p' g' Hp' Hin). set_solver.
Qed.

Lemma discoverable_start g a ga :
  discoverable h uid vid g a -> h !! a = Some ga -> is_Some (h !! g).
Proof. destruct 1; eauto. Qed.

Lemma has_other_end_hit g :
  has_other_end h uid vid g ->
  anchor uid vid g /\ exists n, n ∈ Neighbors g /\ scan_hit n.
Proof.
  intros [(Hid & n & Hn & Hi)|(Hid & n & Hn & Hi)].
  - split; [by left|]. exists n. split; [done|by right].
  - split; [by right|]. exists n. split; [done|by left].
Qed.

(** Once every marked node is explored, whatever can be discovered from a
    marked node is marked. *)
Lemma discoverable_marked seen p a gp ga :
  (forall q gq, h !! q = Some gq -> id gq ∈ seen -> explored seen gq) ->
  discoverable h uid vid p a ->
  h !! p = Some gp -> id gp ∈ seen -> h !! a = Some ga -> id ga ∈ seen.
Proof.
  intros Hall Hd. revert gp.
  induction Hd as [p|p q r g Hp Hna Hq Hd IH]; intros gp Hgp Hin Ha.
  - pose proof (eq_trans (eq_sym Hgp) Ha) as Heq. by injection Heq as <-.
  - pose proof (eq_trans (eq_sym Hgp) Hp) as Heq. injection Heq as <-.
    destruct (Hall p gp Hgp Hin) as [_ Hnb].
    destruct (Hnb Hna _ Hq) as (i & Hi & Hseen).
    simpl in Hi. destruct (h !! q) as [gq|] eqn:Hgq; simplify_eq/=.
    by apply (IH gq).
Qed.

Lemma EdgeBetween_discovers g a ga :
  discoverable h uid vid g a -> h !! a = Some ga ->
  has_other_end h uid vid ga ->
  exists e, EdgeBetween h g uid vid = Ret (Some e).
Proof.
  intros Hd Ha Hend.
  destruct (discoverable_start _ _ _ Hd Ha) as [gn Hg].
  destruct (has_other_end_hit _ Hend) as [Hanchor (m & Hm & Hhit)].
  unfold EdgeBetween, EdgeBetween_fuel.
  rewrite (deref_Some _ _ _ Hg). simpl.
  destruct (bool_decide (uid = id gn) || bool_decide (vid = id gn)) eqn:Hb.
  - assert (Hgn : anchor uid vid gn).
    { apply orb_true_iff in Hb as [Hb|Hb]; apply bool_decide_eq_true in Hb;
        [by left|by right]. }
    assert (a = g) as ->.
    { destruct Hd as [|p q r g' Hp Hna]; [done|].
      pose proof (eq_trans (eq_sym Hg) Hp) as Heq. by injection Heq as <-. }
    pose proof (eq_trans (eq_sym Hg) Ha) as Heq. injection Heq as <-.
    destruct (edge_scan_spec g (Neighbors gn)) as (r & -> & Hr).
    { apply Forall_forall. intros n Hn. by eapply closed_neighbor. }
    destruct r as [e|]; [by eexists|].
    by destruct (Hr eq_refl m Hm).
  - assert (Hgn : ~ anchor uid vid gn).
    { apply orb_false_iff in Hb as [Hu Hv].
      apply bool_decide_eq_false in Hu, Hv. by intros [?|?]. }
    destruct (EdgeBetween_loop_spec (budget h) g gn (Neighbors gn)
                {[id gn]} (le_n _) Hg) as (r & -> & Hr); [done|].
    destruct r as [e|]; [by eexists|]. exfalso.
    destruct (Hr eq_refl) as (seen' & Hsub & Hall & Hmk).
    assert (Hexp : forall q gq, h !! q = Some gq -> id gq ∈ seen' ->
                                explored seen' gq).
    { intros q gq Hq Hin.
      destruct (decide (id gq = id gn)) as [Heq|Hne].
      - assert (q = g) as -> by (eapply unique_ids_ptr; eauto).
        pose proof (eq_trans (eq_sym Hg) Hq) as Hgg. injection Hgg as <-.
        split; [done|]. intros _. apply Hall.
      - apply (Hmk q gq Hq Hin). set_solver. }
    assert (Hin : id ga ∈ seen').
    { eapply (discoverable_marked seen' g a gn ga); eauto. set_solver. }
    destruct (Hexp a ga Ha Hin) as [Hno _].
    by apply (Hno Hanchor m Hm).
Qed.
End EdgeSearch.

(** *** [EdgeBetween] treats its two IDs alike *)

Lemma edge_scan_sym h uid vid g ns :
  edge_scan h uid vid g ns = edge_scan h vid uid g ns.
Proof.
  induction ns as [|n ns IH]; simpl; [done|].
  destruct (ID h n) as [i| |]; simpl; [|done..].
  by rewrite orb_comm, IH.
Qed.

Lemma edgeBetween_loop_ext h rec1 rec2 ns seen :
  (forall q s, rec1 q s = rec2 q s) ->
  edgeBetween_loop h rec1 ns seen = edgeBetween_loop h rec2 ns seen.
Proof.
  intros Hrec. revert seen. induction ns as [|n ns IH]; intros seen; simpl;
    [done|].
  destruct (ID h n) as [i| |]; simpl; [|done..].
  destruct (decide (i ∈ seen)); [done|].
  destruct n as [q|j]; [|done].
  rewrite Hrec. destruct (rec2 q _) as [[[e|] s]| |]; simpl; done.
Qed.

Lemma edgeBetween_sym fuel h g uid vid seen :
  edgeBetween fuel h g uid vid seen = edgeBetween fuel h g vid uid seen.
Proof.
  revert g seen. induction fuel as [|fuel IH]; intros g seen; simpl; [done|].
  destruct (deref h g) as [gn| |]; simpl; [|done..].
  rewrite orb_comm.
  destruct (bool_decide (vid = id gn) || bool_decide (uid = id gn)).
  - by rewrite edge_scan_sym.
  - by apply edgeBetween_loop_ext.
Qed.

Lemma EdgeBetween_fuel_sym fuel h g uid vid :
  EdgeBetween_fuel fuel h g uid vid = EdgeBetween_fuel fuel h g vid uid.
Proof.
  unfold EdgeBetween_fuel.
  destruct (deref h g) as [gn| |]; simpl; [|done..].
  rewrite orb_comm.
  destruct (bool_decide (vid = id gn) || bool_decide (uid = id gn)).
  - by rewrite edge_scan_sym.
  - generalize ({[id gn]} : gset Z).
    induction (Neighbors gn) as [|n ns IH]; intros seen; simpl; [done|].
    destruct (ID h n) as [i| |]; simpl; [|done..].
    destruct n as [q|j]; [|done].
    rewrite edgeBetween_sym.
    destruct (edgeBetween _ _ _ _ _ _) as [[[e|] s]| |]; simpl; done.
Qed.

(** C6. Whenever the search that [EdgeBetween] runs from [g] can discover a
    node [a] whose ID is one of [uid], [vid] and which has a direct neighbour
    with the other ID, [g.EdgeBetween(uid, vid)] returns an edge (not nil);
    and the query is symmetric: swapping [uid] and [vid] gives the same
    answer.  The heap has no dangling neighbour and IDs identify nodes. *)
Theorem EdgeBetween_anchor_symmetric h g uid vid a ga :
  closed h -> unique_ids h ->
  discoverable h uid vid g a -> h !! a = Some ga ->
  has_other_end h uid vid ga ->
  (exists e, EdgeBetween h g uid vid = Ret (Some e)) /\
  EdgeBetween h g uid vid = EdgeBetween h g vid uid.
Proof.
  intros Hc Hu Hd Ha He. split.
  - by eapply EdgeBetween_discovers.
  - apply EdgeBetween_fuel_sym.
Qed.

Lemma EdgeBetween_anchor_symmetric_witness :
  (exists e, EdgeBetween lasso 0%nat 3 2 = Ret (Some e)) /\
  EdgeBetween lasso 0%nat 3 2 = EdgeBetween lasso 0%nat 2 3.
Proof.
  apply (EdgeBetween_anchor_symmetric lasso 0%nat 3 2 2%nat (gnode 2 [3%nat])).
  - apply (bool_decide_unpack _). vm_compute. exact I.
  - apply (bool_decide_unpack _). vm_compute. exact I.
  - apply (discoverable_step lasso 3 2 0%nat 1%nat 2%nat (gnode 0 [1%nat]));
      [reflexivity| |apply list_elem_of_In; simpl; tauto|].
    { unfold anchor. simpl. lia. }
    apply (discoverable_step lasso 3 2 1%nat 2%nat 2%nat (gnode 1 [2%nat]));
      [reflexivity| |apply list_elem_of_In; simpl; tauto|].
    { unfold anchor. simpl. lia. }
    apply discoverable_here.
  - reflexivity.
  - right. split; [reflexivity|].
    exists (NGraphNode 3%nat). split; [|reflexivity].
    apply list_elem_of_In. simpl. tauto.
Defined.

(** The edge that is returned need not run from [uid] to [vid]: in the chain
    0 -> 1 -> 2 the query for an edge from 2 to 1 is answered with the edge
    from 1 to 2. *)
Example EdgeBetween_not_directed :
  EdgeBetween chain3 0%nat 2 1
  = Ret (Some (mkEdge (NGraphNode 1%nat) (NGraphNode 2%nat))).
Proof. vm_compute. reflexivity. Qed.

(** The search does not look behind an anchor: node 3 (ID 3) is reachable
    and has node 1 as a neighbour, but the search from 0 stops at node 1. *)
Example EdgeBetween_reachable_not_discovered :
  reachable loop_back 0%nat 3%nat /\
  has_other_end loop_back 3 1 (gnode 3 [1%nat]) /\
  EdgeBetween loop_back 0%nat 3 1 = Ret None.
Proof.
  split_and!.
  - do 3 (eapply reachable_step;
            [reflexivity|apply list_elem_of_In; simpl; tauto|]).
    apply reachable_here.
  - left. split; [reflexivity|]. exists (NGraphNode 1%nat).
    split; [apply list_elem_of_In; simpl; tauto|reflexivity].
  - vm_compute. reflexivity.
Qed.

(** *** [Node] *)

(** C3. In the 3-cycle 0 -> 1 -> 2 -> 0 the node with ID 2 is reachable from
    the root, and the lookup of ID 2 at the root terminates, but it returns
    the root's neighbour through which ID 2 was found, whose ID is 1. *)
Theorem Node_returns_neighbor_on_the_way :
  reachable cycle3 0%nat 2%nat /\
  node_id cycle3 (NGraphNode 2%nat) = Some 2%Z /\
  Node cycle3 0%nat 2 = Ret (Some (NGraphNode 1%nat)) /\
  ID cycle3 (NGraphNode 1%nat) = Ret 1%Z.
Proof.
  split_and!; [|reflexivity|vm_compute; reflexivity|reflexivity].
  do 2 (eapply reachable_step;
          [reflexivity|apply list_elem_of_In; simpl; tauto|]).
  apply reachable_here.
Qed.

(** The same happens without a cycle, as soon as the node is not a direct
    neighbour of the root. *)
Example Node_chain3 :
  Node chain3 0%nat 2 = Ret (Some (NGraphNode 1%nat)).
Proof. vm_compute. reflexivity. Qed.

(** The root and its direct neighbours are found. *)
Example Node_cycle3_near :
  Node cycle3 0%nat 0 = Ret (Some (NGraphNode 0%nat)) /\
  Node cycle3 0%nat 1 = Ret (Some (NGraphNode 1%nat)).
Proof. split; vm_compute; reflexivity. Qed.

(** *** [Nodes] *)

(** C4. In the diamond 0 -> 1 -> 3, 0 -> 2 -> 3 the enumeration from the root
    lists node 3 twice, once for each path that leads to it.  The result is
    the same for every recursion budget of at least 2. *)
Theorem Nodes_diamond_duplicate fuel :
  Nodes_fuel (2 + fuel) diamond 0%nat
  = Ret [NGraphNode 0%nat; NGraphNode 1%nat; NGraphNode 3%nat;
         NGraphNode 2%nat; NGraphNode 3%nat].
Proof. vm_compute. reflexivity. Qed.

(** On the 3-cycle the enumeration is right: the two nodes of the cycle
    other than the root are the root's neighbour, which the root marks, and
    a node whose only neighbour is the root. *)
Example Nodes_cycle3 fuel :
  Nodes_fuel (2 + fuel) cycle3 0%nat
  = Ret [NGraphNode 0%nat; NGraphNode 1%nat; NGraphNode 2%nat].
Proof. vm_compute. reflexivity. Qed.

(** [nodes] never writes to the visited set, so a cycle among nodes that the
    root did not mark is walked for ever. *)
Lemma nodes_on_cycle_diverges fuel dst :
  nodes fuel lasso 2%nat dst {[1%Z; 0%Z]} = OutOfFuel /\
  nodes fuel lasso 3%nat dst {[1%Z; 0%Z]} = OutOfFuel.
Proof.
  revert dst. induction fuel as [|fuel IH]; intros dst; [done|].
  split.
  - change (nodes (S fuel) lasso 2%nat dst {[1%Z; 0%Z]})
      with (obind (nodes fuel lasso 3%nat (dst ++ [NGraphNode 3%nat]) {[1%Z; 0%Z]})
              (fun d => Ret d)).
    by rewrite (proj2 (IH _)).
  - change (nodes (S fuel) lasso 3%nat dst {[1%Z; 0%Z]})
      with (obind (nodes fuel lasso 2%nat (dst ++ [NGraphNode 2%nat]) {[1%Z; 0%Z]})
              (fun d => Ret d)).
    by rewrite (proj1 (IH _)).
Qed.

(** C5. On the heap 0 -> 1 -> 2 -> 3 -> 2 the enumeration from the root does
    not terminate: no recursion budget is enough for [Nodes]. *)
Theorem Nodes_lasso_diverges fuel :
  Nodes_fuel fuel lasso 0%nat = OutOfFuel.
Proof.
  change (Nodes_fuel fuel lasso 0%nat)
    with (obind (nodes fuel lasso 1%nat [NGraphNode 0%nat; NGraphNode 1%nat]
                   {[1%Z; 0%Z]})
            (fun d => Ret d)).
  destruct fuel as [|fuel]; [done|].
  change (nodes (S fuel) lasso 1%nat [NGraphNode 0%nat; NGraphNode 1%nat]
            {[1%Z; 0%Z]})
    with (obind (nodes fuel lasso 2%nat
                   [NGraphNode 0%nat; NGraphNode 1%nat; NGraphNode 2%nat]
                   {[1%Z; 0%Z]})
            (fun d => Ret d)).
  by rewrite (proj1 (nodes_on_cycle_diverges _ _)).
Qed.

End ImplicitFacts.

(** * Properties of the build pipeline *)

Module BuildFacts.
Import Build SemverFixture BuildFixtures.
Local Open Scope string_scope.

(** *** What the steps of [CreateEdges] leave alone *)

Section Frame.
Context (ParseRange : string -> string + semver_Range).
Context (Parse : string -> semver_Version * option string).

Lemma same_indices_refl w : same_indices w w.
Proof. by repeat split. Qed.

Lemma same_indices_trans w1 w2 w3 :
  same_indices w1 w2 -> same_indices w2 w3 -> same_indices w1 w3.
Proof. intros (? & ? & ?) (? & ? & ?). repeat split; congruence. Qed.

Lemma read_only_mreturn {A} (a : A) : read_only (mreturn a).
Proof. intros w. apply same_indices_refl. Qed.

Lemma read_only_mpanic {A} p : read_only (@mpanic A p).
Proof. intros w. apply same_indices_refl. Qed.

Lemma read_only_mseq {A B} (m : M A) (k : A -> M B) :
  read_only m -> (forall a, read_only (k a)) -> read_only (mseq m k).
Proof.
  intros Hm Hk w. unfold mseq. specialize (Hm w).
  destruct (m w) as [[a| |] w']; simpl in *; [|done..].
  eapply same_indices_trans; [done|apply Hk].
Qed.

Lemma read_only_for_range {A} (l : list A) body :
  (forall x, read_only (body x)) -> read_only (for_range l body).
Proof.
  intros Hb. induction l as [|x l IH]; simpl.
  - apply read_only_mreturn.
  - apply read_only_mseq; [apply Hb|done].
Qed.

Lemma read_only_for_range_indexed {A} i (l : list A) body :
  (forall j x, read_only (body j x)) ->
  read_only (for_range_indexed i l body).
Proof.
  intros Hb. revert i. induction l as [|x l IH]; intros i; simpl.
  - apply read_only_mreturn.
  - apply read_only_mseq; [apply Hb|done].
Qed.

Lemma read_only_read_inputList : read_only read_inputList.
Proof. intros w. apply same_indices_refl. Qed.

Lemma read_only_read_nameToID k : read_only (read_nameToID k).
Proof. intros w. apply same_indices_refl. Qed.

Lemma read_only_read_nameToVersion k : read_only (read_nameToVersion k).
Proof. intros w. apply same_indices_refl. Qed.

Lemma read_only_call_Node i : read_only (call_Node i).
Proof. intros w. apply same_indices_refl. Qed.

Lemma read_only_call_SetEdge from to : read_only (call_SetEdge from to).
Proof.
  intros w. unfold call_SetEdge.
  destruct (SetEdge (graph w) from to); simpl; by repeat split.
Qed.

Create HintDb frame.
Hint Resolve read_only_mreturn read_only_mpanic read_only_read_inputList
  read_only_read_nameToID read_only_read_nameToVersion read_only_call_Node
  read_only_call_SetEdge : frame.

Lemma read_only_CreateEdges_version i dep c v :
  read_only (CreateEdges_version Parse i dep c v).
Proof.
  unfold CreateEdges_version. destruct (c _); [|auto with frame].
  repeat (apply read_only_mseq; [auto with frame|intros ?]).
  auto with frame.
Qed.

Lemma read_only_CreateEdges_dependency i dep :
  read_only (CreateEdges_dependency ParseRange Parse i dep).
Proof.
  destruct dep as [name range]. unfold CreateEdges_dependency.
  destruct (ParseRange range) as [err|c]; [auto with frame|].
  apply read_only_mseq; [auto with frame|]. intros versions.
  apply read_only_for_range. intros v.
  apply read_only_CreateEdges_version.
Qed.

Lemma read_only_CreateEdges : read_only (CreateEdges ParseRange Parse).
Proof.
  unfold CreateEdges. apply read_only_mseq; [auto with frame|].
  intros packagesInfo. apply read_only_for_range_indexed. intros i p.
  apply read_only_for_range. intros [v vi].
  apply read_only_for_range. intros dep.
  apply read_only_CreateEdges_dependency.
Qed.
End Frame.

(** C9. [CreateEdges] leaves the package list, the name+version -> id index
    and the name -> versions index as they were, whether it returns or
    panics: in the world it ends in, each of the three is the one it
    started with. *)
Theorem CreateEdges_indices_unchanged ParseRange Parse (w : world) :
  let w' := (CreateEdges ParseRange Parse w).2 in
  inputList w' = inputList w /\
  nameToIDMap w' = nameToIDMap w /\
  nameToVersionMap w' = nameToVersionMap w.
Proof. apply read_only_CreateEdges. Qed.

(** Only the graph changes, and it changes: the frame statement is not
    about a step that does nothing. *)
Example CreateEdges_writes_the_graph :
  built_edges two_packages = Some (Ret tt, [(0, 1)]).
Proof. vm_compute. reflexivity. Qed.

(** *** Which node an edge starts from *)

(** C1. With packages A (versions 1.0.0 and 2.0.0), B (1.0.0) and C (1.0.0,
    depending on A >=1.0.0) the node IDs are A-1.0.0 = 0, A-2.0.0 = 1,
    B-1.0.0 = 2, C-1.0.0 = 3, and [CreateEdges] returns with the edges 2 -> 0
    and 2 -> 1: they start at B-1.0.0, which declares no dependency, because
    the source of an edge is the index of the package in the list (2 for C).
    The edges 3 -> 0 and 3 -> 1 that the constraint of C-1.0.0 calls for are
    missing. *)
Theorem CreateEdges_source_is_package_index :
  map_to_list (CreateMap index_is_not_id)
  = [(3, NodeInfo "C" "1.0.0" "t"); (2, NodeInfo "B" "1.0.0" "t");
     (1, NodeInfo "A" "2.0.0" "t"); (0, NodeInfo "A" "1.0.0" "t")] /\
  built_edges index_is_not_id = Some (Ret tt, [(2, 0); (2, 1)]).
Proof. split; vm_compute; reflexivity. Qed.

(** The order in which the two versions of A are visited makes no
    difference to the edges. *)
Example CreateEdges_other_version_order :
  built_edges index_is_not_id' = Some (Ret tt, [(2, 0); (2, 1)]).
Proof. vm_compute. reflexivity. Qed.

(** *** Malformed versions *)

(** C8. B has published the version "latest", which [Parse] rejects, and
    A-1.0.0 depends on B >=0.0.0.  [CreateEdges] returns, and the graph has
    the edge from A-1.0.0 (ID 0) to B-latest (ID 1): the error of [Parse] is
    dropped and the range is applied to the zero version that comes with
    it. *)
Theorem CreateEdges_edge_to_malformed_version :
  (Parse "latest").2 <> None /\
  (Parse "latest").1 = Version_zero /\
  CreateMap malformed_version !! 1 = Some (NodeInfo "B" "latest" "t") /\
  built_edges malformed_version = Some (Ret tt, [(0, 1)]).
Proof. split_and!; [done|vm_compute; reflexivity..]. Qed.

End BuildFacts.

(** * The identity index *)

Module IndexFacts.
Import Build.
Local Open Scope Z_scope.

Lemma incr64_small z : - 2 ^ 63 <= z + 1 < 2 ^ 63 -> incr64 z = z + 1.
Proof.
  intros Hz. unfold incr64, wrap64.
  rewrite Z.mod_small; lia.
Qed.

Lemma foldl_versions_step name (l : list (string * VersionInfo)) st :
  foldl (fun st '(packageVersion, versionInfo) =>
           CreateMap_step st (NodeInfo name packageVersion
                                (Timestamp versionInfo))) st l
  = foldl CreateMap_step st
      (map (fun '(packageVersion, versionInfo) =>
              NodeInfo name packageVersion (Timestamp versionInfo)) l).
Proof.
  revert st. induction l as [|[v vi] l IH]; intros st; simpl; [done|apply IH].
Qed.

(** [CreateMap] numbers the pairs in the order of [all_pairs]. *)
Lemma CreateMap_all_pairs packagesInfo :
  CreateMap packagesInfo
  = (foldl CreateMap_step (0, ∅) (all_pairs packagesInfo)).2.
Proof.
  unfold CreateMap. f_equal. generalize (0, ∅ : gmap Z nodeInfo).
  induction packagesInfo as [|p ps IH]; intros st; simpl; [done|].
  by rewrite foldl_app, <- IH, foldl_versions_step.
Qed.

Lemma CreateMap_step_spec l id0 (m0 : gmap Z nodeInfo) :
  0 <= id0 -> id0 + Z.of_nat (length l) <= 2 ^ 63 ->
  (forall k, id0 <= k -> m0 !! k = None) ->
  let m' := (foldl CreateMap_step (id0, m0) l).2 in
  (forall i x, l !! i = Some x -> m' !! (id0 + Z.of_nat i) = Some x) /\
  (forall k, k < id0 \/ id0 + Z.of_nat (length l) <= k -> m' !! k = m0 !! k) /\
  size m' = (size m0 + length l)%nat.
Proof.
  revert id0 m0. induction l as [|x l IH]; intros id0 m0 Hid Hlen Hfresh; simpl.
  { split_and!; [done|done|lia]. }
  change (CreateMap_step (id0, m0) x) with (incr64 id0, <[id0:=x]> m0).
  assert (Hsize : size (<[id0:=x]> m0) = S (size m0))
    by (apply map_size_insert_None, Hfresh; lia).
  destruct l as [|y l].
  { simpl. split_and!.
    - intros [|i] x'; [|done]. intros [= <-].
      rewrite Z.add_0_r. apply lookup_insert_eq.
    - intros k Hk. apply lookup_insert_ne. lia.
    - lia. }
  rewrite incr64_small by (simpl in Hlen; lia).
  destruct (IH (id0 + 1) (<[id0:=x]> m0)) as (Hget & Hout & Hsz).
  - lia.
  - simpl in *. lia.
  - intros k Hk. rewrite lookup_insert_ne by lia. apply Hfresh. lia.
  - split_and!.
    + intros [|i] x' Hx'.
      * injection Hx' as <-. rewrite Hout by lia.
        rewrite Z.add_0_r. apply lookup_insert_eq.
      * replace (id0 + Z.of_nat (S i)) with (id0 + 1 + Z.of_nat i) by lia.
        by apply Hget.
    + intros k Hk. rewrite Hout by (simpl in *; lia).
      apply lookup_insert_ne. lia.
    + rewrite Hsz, Hsize. simpl. lia.
Qed.

Section Numbering.
Context (packagesInfo : list PackageInfo).
Context (Hlen : Z.of_nat (length (all_pairs packagesInfo)) <= 2 ^ 63).

Local Abbreviation pairs := (all_pairs packagesInfo).
Local Abbreviation m := (CreateMap packagesInfo).

Lemma CreateMap_lookup (i : nat) x :
  pairs !! i = Some x -> m !! Z.of_nat i = Some x.
Proof.
  intros Hx. rewrite CreateMap_all_pairs.
  destruct (CreateMap_step_spec pairs 0 ∅) as (Hget & _ & _); [lia|lia|done|].
  by apply (Hget i x).
Qed.

Lemma CreateMap_size : size m = length pairs.
Proof.
  rewrite CreateMap_all_pairs.
  destruct (CreateMap_step_spec pairs 0 ∅) as (_ & _ & Hsz); [lia|lia|done|].
  by rewrite Hsz, map_size_empty.
Qed.

Lemma CreateMap_lookup_inv k x :
  m !! k = Some x -> exists i : nat, k = Z.of_nat i /\ pairs !! i = Some x.
Proof.
  intros Hk.
  destruct (CreateMap_step_spec pairs 0 ∅) as (_ & Hout & _); [lia|lia|done|].
  rewrite <- CreateMap_all_pairs in Hout.
  destruct (decide (0 <= k < Z.of_nat (length pairs))) as [Hin|Hnot].
  - exists (Z.to_nat k). split; [lia|].
    destruct (lookup_lt_is_Some_2 pairs (Z.to_nat k)) as [y Hy]; [lia|].
    pose proof (CreateMap_lookup _ _ Hy) as Hy'.
    rewrite Z2Nat.id in Hy' by lia. congruence.
  - rewrite Hout in Hk by lia. done.
Qed.
End Numbering.

(** *** [CreateNameToIDMap] *)

Local Abbreviation range_step :=
  (fun (newMap : gmap string Z) '(id, key) => <[ni_id key := id]> newMap).

Lemma range_fold_other entries acc s :
  s ∉ entry_key <$> entries ->
  foldl range_step acc entries !! s = acc !! s.
Proof.
  revert acc. induction entries as [|[id key] es IH]; intros acc Hs; simpl;
    [done|].
  rewrite IH by (intros ?; apply Hs; by right).
  apply lookup_insert_ne. intros <-. apply Hs. by left.
Qed.

Lemma range_fold_lookup entries acc id key :
  NoDup (entry_key <$> entries) -> (id, key) ∈ entries ->
  foldl range_step acc entries !! ni_id key = Some id.
Proof.
  revert acc. induction entries as [|[id' key'] es IH]; intros acc Hnd Hin;
    [by apply elem_of_nil in Hin|].
  simpl in *. apply NoDup_cons in Hnd as [Hfresh Hnd].
  apply elem_of_cons in Hin as [[= -> ->]|Hin]; [|by apply IH].
  rewrite range_fold_other by done. apply lookup_insert_eq.
Qed.

Lemma range_fold_dom entries acc :
  dom (foldl range_step acc entries)
  = list_to_set (entry_key <$> entries) ∪ dom acc.
Proof.
  revert acc. induction entries as [|[id key] es IH]; intros acc; simpl.
  - set_solver.
  - rewrite IH, dom_insert_L. unfold entry_key at 2. simpl. set_solver.
Qed.

(** With pairwise distinct composite strings the order in which the id map
    is ranged over makes no difference to the index. *)
Lemma CreateNameToIDMap_range_order entries entries' :
  NoDup (entry_key <$> entries) -> entries ≡ₚ entries' ->
  CreateNameToIDMap_range entries = CreateNameToIDMap_range entries'.
Proof.
  intros Hnd Hperm. apply map_eq. intros k. unfold CreateNameToIDMap_range.
  assert (Hnd' : NoDup (entry_key <$> entries')) by by rewrite <- Hperm.
  destruct (decide (k ∈ entry_key <$> entries)) as [Hin|Hout].
  - apply list_elem_of_fmap in Hin as ([id key] & -> & Hin).
    unfold entry_key. cbn [snd].
    rewrite (range_fold_lookup entries ∅ id key) by done.
    rewrite (range_fold_lookup entries' ∅ id key); [done..|].
    by rewrite <- Hperm.
  - rewrite !range_fold_other; [done| |done]. by rewrite <- Hperm.
Qed.

Lemma CreateNameToIDMap_range_size entries :
  size (CreateNameToIDMap_range entries)
  = size (list_to_set (entry_key <$> entries) : gset string).
Proof.
  unfold CreateNameToIDMap_range.
  rewrite <- size_dom, range_fold_dom, dom_empty_L. f_equal. set_solver.
Qed.

(** A list with a repetition has two positions with the same element. *)
Lemma repetition_positions {A} `{EqDecision A} (l : list A) :
  ~ NoDup l ->
  exists (i j : nat) x, i <> j /\ l !! i = Some x /\ l !! j = Some x.
Proof.
  induction l as [|x l IH]; intros Hnd; [by destruct Hnd; constructor|].
  destruct (decide (x ∈ l)) as [Hin|Hout].
  - apply list_elem_of_lookup in Hin as [j Hj].
    by exists 0%nat, (S j), x.
  - destruct IH as (i & j & y & Hij & Hi & Hj).
    { intros Hl. apply Hnd. by constructor. }
    exists (S i), (S j), y. split_and!; [lia|done..].
Qed.

Lemma size_list_to_set_repetition (l : list string) :
  ~ NoDup l -> (size (list_to_set l : gset string) < length l)%nat.
Proof.
  induction l as [|x l IH]; intros Hnd; [by destruct Hnd; constructor|].
  cbn [list_to_set length].
  assert (Hle : forall l' : list string,
            (size (list_to_set l' : gset string) <= length l')%nat).
  { induction l' as [|y l' IH']; cbn [list_to_set length].
    - by rewrite size_empty.
    - rewrite size_union_alt, size_singleton.
      assert (size (list_to_set l' ∖ {[y]} : gset string)
              <= size (list_to_set l' : gset string))%nat
        by (apply subseteq_size; set_solver).
      lia. }
  destruct (decide (x ∈ l)) as [Hin|Hout].
  - assert ({[x]} ∪ list_to_set l = (list_to_set l : gset string)) as ->
      by set_solver.
    specialize (Hle l). lia.
  - rewrite size_union_alt, size_singleton.
    assert (size (list_to_set l ∖ {[x]} : gset string)
            <= size (list_to_set l : gset string))%nat
      by (apply subseteq_size; set_solver).
    assert (size (list_to_set l : gset string) < length l)%nat; [|lia].
    apply IH. intros Hl. apply Hnd. by constructor.
Qed.

Section LeftInverse.
Context (packagesInfo : list PackageInfo).
Context (Hlen : Z.of_nat (length (all_pairs packagesInfo)) <= 2 ^ 63).
Context (entries : list (Z * nodeInfo)).
Context (Hentries : entries ≡ₚ map_to_list (CreateMap packagesInfo)).

Local Abbreviation pairs := (all_pairs packagesInfo).
Local Abbreviation m := (CreateMap packagesInfo).
Local Abbreviation r := (CreateNameToIDMap_range entries).

Lemma entries_lookup id info : (id, info) ∈ entries <-> m !! id = Some info.
Proof. rewrite Hentries. apply elem_of_map_to_list. Qed.

Lemma entries_length : length entries = length pairs.
Proof.
  rewrite Hentries, length_map_to_list. by apply CreateMap_size.
Qed.

Lemma entry_keys_NoDup :
  NoDup (ni_id <$> pairs) -> NoDup (entry_key <$> entries).
Proof.
  intros Hnd. apply NoDup_fmap_2_strong.
  - intros [k1 a] [k2 b] H1%entries_lookup H2%entries_lookup Heq.
    unfold entry_key in Heq. simpl in Heq.
    destruct (CreateMap_lookup_inv _ Hlen _ _ H1) as (i & -> & Hi).
    destruct (CreateMap_lookup_inv _ Hlen _ _ H2) as (j & -> & Hj).
    assert (i = j) as ->.
    { eapply (NoDup_lookup _ _ _ _ Hnd); rewrite list_lookup_fmap.
      - by rewrite Hi.
      - by rewrite Hj, Heq. }
    congruence.
  - rewrite Hentries. apply NoDup_map_to_list.
Qed.

Lemma round_trip_distinct :
  NoDup (ni_id <$> pairs) ->
  size r = length pairs /\
  forall id info, m !! id = Some info -> r !! ni_id info = Some id.
Proof.
  intros Hnd. pose proof (entry_keys_NoDup Hnd) as Hkeys. split.
  - rewrite CreateNameToIDMap_range_size, size_list_to_set by done.
    by rewrite length_fmap, entries_length.
  - intros id info Hm. apply range_fold_lookup; [done|].
    by apply entries_lookup.
Qed.

Lemma round_trip_collision :
  ~ NoDup (ni_id <$> pairs) ->
  (size r < length pairs)%nat /\
  exists id info, m !! id = Some info /\ r !! ni_id info <> Some id.
Proof.
  intros Hnd.
  destruct (repetition_positions _ Hnd) as (i & j & s & Hij & Hi & Hj).
  rewrite list_lookup_fmap in Hi, Hj.
  destruct (pairs !! i) as [a|] eqn:Ha; [|done].
  destruct (pairs !! j) as [b|] eqn:Hb; [|done].
  simpl in Hi, Hj. injection Hi as Hi. injection Hj as Hj.
  pose proof (CreateMap_lookup _ Hlen _ _ Ha) as Hma.
  pose proof (CreateMap_lookup _ Hlen _ _ Hb) as Hmb.
  split.
  - rewrite CreateNameToIDMap_range_size.
    rewrite <- entries_length, <- (length_fmap entry_key).
    apply size_list_to_set_repetition. intros Hkeys.
    apply entries_lookup, list_elem_of_lookup in Hma as [i' Hi'].
    apply entries_lookup, list_elem_of_lookup in Hmb as [j' Hj'].
    assert (i' = j') as ->.
    { eapply (NoDup_lookup _ _ _ _ Hkeys); rewrite list_lookup_fmap.
      - by rewrite Hi'.
      - rewrite Hj'. unfold entry_key. simpl. by rewrite Hi, Hj. }
    rewrite Hi' in Hj'. injection Hj' as Hz _. lia.
  - destruct (decide (r !! s = Some (Z.of_nat i))) as [Hr|Hr].
    + exists (Z.of_nat j), b. split; [done|]. rewrite Hj, Hr.
      intros [= Hz]. lia.
    + exists (Z.of_nat i), a. split; [done|]. by rewrite Hi.
Qed.
End LeftInverse.

(** C10.  When the composite strings name-version of all pairs are pairwise
    distinct, the map that [CreateNameToIDMap] builds from the map of
    [CreateMap] has one entry per pair, and looking up the composite string of
    the pair that has an ID returns that ID.  When two pairs share a
    composite string, the map has fewer entries than there are pairs and the
    lookup fails for one of the IDs.  Both hold for every order in which the
    entries of the id map are visited, as long as the [int64] counter does
    not wrap (at most 2^63 pairs). *)
Theorem CreateNameToIDMap_left_inverse packagesInfo entries :
  Z.of_nat (length (all_pairs packagesInfo)) <= 2 ^ 63 ->
  entries ≡ₚ map_to_list (CreateMap packagesInfo) ->
  let m := CreateMap packagesInfo in
  let r := CreateNameToIDMap_range entries in
  (NoDup (ni_id <$> all_pairs packagesInfo) ->
     size r = length (all_pairs packagesInfo) /\
     forall id info, m !! id = Some info -> r !! ni_id info = Some id) /\
  (~ NoDup (ni_id <$> all_pairs packagesInfo) ->
     (size r < length (all_pairs packagesInfo))%nat /\
     exists id info, m !! id = Some info /\ r !! ni_id info <> Some id).
Proof.
  intros Hlen Hentries. split.
  - by apply round_trip_distinct.
  - by apply round_trip_collision.
Qed.

Lemma CreateNameToIDMap_left_inverse_witness :
  size (CreateNameToIDMap (CreateMap BuildFixtures.two_packages)) = 3%nat /\
  forall id info,
    CreateMap BuildFixtures.two_packages !! id = Some info ->
    CreateNameToIDMap (CreateMap BuildFixtures.two_packages) !! ni_id info
    = Some id.
Proof.
  apply (CreateNameToIDMap_left_inverse BuildFixtures.two_packages
           (map_to_list (CreateMap BuildFixtures.two_packages))).
  - vm_compute. discriminate.
  - reflexivity.
  - apply (bool_decide_unpack _). vm_compute. exact I.
Defined.

(** The pairs (a-b, c) and (a, b-c) share the composite string a-b-c: the
    index has one entry for the two of them, and it holds the ID of the pair
    visited last. *)
Example CreateNameToIDMap_dash_collision :
  map_to_list (CreateMap BuildFixtures.dash_collision)
  = [(1, NodeInfo "a" "b-c" "t"); (0, NodeInfo "a-b" "c" "t")] /\
  map_to_list (CreateNameToIDMap (CreateMap BuildFixtures.dash_collision))
  = [("a-b-c"%string, 0)].
Proof. split; vm_compute; reflexivity. Qed.

End IndexFacts.

(** * Adding nodes, neighbours and edges twice *)

Module StoreFacts.
Import Build.

Lemma AddNeighbor_appends h g n gn :
  h !! g = Some gn ->
  exists h', Implicit.AddNeighbor h g n = Ret h' /\
    h' !! g = Some (Implicit.mkGraphNode (Implicit.id gn)
                      (Implicit.append (Implicit.Neighbors_slice gn)
                         (Implicit.NGraphNode n))).
Proof.
  intros Hg. unfold Implicit.AddNeighbor, Implicit.deref. rewrite Hg. simpl.
  eexists. split; [done|].
  apply list_lookup_insert_eq. by eapply lookup_lt_Some.
Qed.

Lemma SetEdge_twice G from to G1 :
  SetEdge G from to = Ret G1 -> SetEdge G1 from to = Ret G1.
Proof.
  unfold SetEdge. destruct from as [fid|], to as [tid|]; try done.
  destruct (decide (fid = tid)) as [|Hne]; [done|].
  intros [= <-]. simpl. do 2 f_equal; set_solver.
Qed.

Lemma AddNode_twice G n G1 :
  AddNode G n = Ret G1 -> AddNode G1 n = Panicked (PanicIDCollision n).
Proof.
  unfold AddNode. destruct (decide (n ∈ nodes G)) as [|Hn]; [done|].
  intros [= <-]. simpl. destruct (decide _) as [|Hn']; [done|]. set_solver.
Qed.

Lemma CreateGraph_range_fresh keys G :
  NoDup keys -> (forall k, k ∈ keys -> k ∉ nodes G) ->
  foldl (fun acc x => obind acc (fun graph => AddNode graph x)) (Ret G) keys
  = Ret (mkDirectedGraph (list_to_set keys ∪ nodes G) (edges G)).
Proof.
  revert G. induction keys as [|k keys IH]; intros G Hnd Hfresh; simpl.
  - destruct G. simpl. do 2 f_equal. set_solver.
  - apply NoDup_cons in Hnd as [Hk Hnd]. unfold AddNode at 2.
    destruct (decide (k ∈ nodes G)) as [Hin|_].
    { exfalso. apply (Hfresh k); [left|done]. }
    rewrite IH; [|done|].
    + simpl. do 2 f_equal. set_solver.
    + intros k' Hk'. simpl. apply not_elem_of_union. split.
      * apply not_elem_of_singleton. by intros ->.
      * apply Hfresh. by right.
Qed.

Lemma CreateGraph_range_nodes (m : gmap Z nodeInfo) keys :
  keys ≡ₚ (map_to_list m).*1 ->
  CreateGraph_range keys = Ret (mkDirectedGraph (dom m) ∅).
Proof.
  intros Hperm. unfold CreateGraph_range.
  rewrite CreateGraph_range_fresh.
  - simpl. do 2 f_equal. apply set_eq. intros k.
    rewrite elem_of_union, elem_of_list_to_set, Hperm, elem_of_dom.
    split.
    + intros [([k' x] & -> & Hin)%list_elem_of_fmap|[]%not_elem_of_empty].
      exists x. by apply elem_of_map_to_list.
    + intros [x Hx]. left. apply list_elem_of_fmap. exists (k, x).
      split; [done|]. by apply elem_of_map_to_list.
  - rewrite Hperm. apply NoDup_fst_map_to_list.
  - intros k _. apply not_elem_of_empty.
Qed.

(** C7, as the code has it.  [AddNeighbor] appends: adding the same
    neighbour a second time puts it into the list a second time.  In the
    graph store, setting an edge that is already there changes nothing; a
    node ID is not added twice: adding an ID again panics, and [CreateGraph]
    adds each key of the id map once, whatever the order, so that the graph
    has exactly one node per entry and no edge. *)
Theorem adding_twice h g n gn G from to G1 (m : gmap Z nodeInfo) keys :
  h !! g = Some gn -> SetEdge G from to = Ret G1 ->
  keys ≡ₚ (map_to_list m).*1 ->
  (exists h1 h2,
     Implicit.AddNeighbor h g n = Ret h1 /\
     Implicit.AddNeighbor h1 g n = Ret h2 /\
     Implicit.Neighbors <$> h1 !! g
     = Some (Implicit.Neighbors gn ++ [Implicit.NGraphNode n]) /\
     Implicit.Neighbors <$> h2 !! g
     = Some (Implicit.Neighbors gn
             ++ [Implicit.NGraphNode n; Implicit.NGraphNode n])) /\
  SetEdge G1 from to = Ret G1 /\
  (forall G' k G'', AddNode G' k = Ret G'' ->
     AddNode G'' k = Panicked (PanicIDCollision k)) /\
  (exists G', CreateGraph_range keys = Ret G' /\
     nodes G' = dom m /\ size (nodes G') = size m /\ edges G' = ∅).
Proof.
  intros Hg Hset Hperm. split_and!.
  - destruct (AddNeighbor_appends h g n gn Hg) as (h1 & Hh1 & Hl1).
    destruct (AddNeighbor_appends h1 g n _ Hl1) as (h2 & Hh2 & Hl2).
    exists h1, h2. split_and!; [done..|by rewrite Hl1|].
    rewrite Hl2. unfold Implicit.Neighbors. simpl. by rewrite <- app_assoc.
  - by eapply SetEdge_twice.
  - apply AddNode_twice.
  - eexists. split; [by apply CreateGraph_range_nodes|]. simpl.
    split_and!; [done|apply size_dom|done].
Qed.

Lemma adding_twice_witness :
  (exists h1 h2,
     Implicit.AddNeighbor Fixtures.two_nodes 0%nat 1%nat = Ret h1 /\
     Implicit.AddNeighbor h1 0%nat 1%nat = Ret h2 /\
     Implicit.Neighbors <$> h1 !! 0%nat = Some [Implicit.NGraphNode 1%nat] /\
     Implicit.Neighbors <$> h2 !! 0%nat
     = Some [Implicit.NGraphNode 1%nat; Implicit.NGraphNode 1%nat]) /\
  SetEdge (mkDirectedGraph {[0; 1]} {[(0, 1)]}) (Some 0) (Some 1)
  = Ret (mkDirectedGraph {[0; 1]} {[(0, 1)]}) /\
  (forall G' k G'', AddNode G' k = Ret G'' ->
     AddNode G'' k = Panicked (PanicIDCollision k)) /\
  (exists G', CreateGraph (CreateMap BuildFixtures.two_packages) = Ret G' /\
     nodes G' = dom (CreateMap BuildFixtures.two_packages) /\
     size (nodes G') = size (CreateMap BuildFixtures.two_packages) /\
     edges G' = ∅).
Proof.
  apply (adding_twice Fixtures.two_nodes 0%nat 1%nat (Fixtures.gnode 0 [])
           (mkDirectedGraph {[0; 1]} ∅) (Some 0) (Some 1)
           (mkDirectedGraph {[0; 1]} {[(0, 1)]})
           (CreateMap BuildFixtures.two_packages)
           (map_to_list (CreateMap BuildFixtures.two_packages)).*1).
  - reflexivity.
  - vm_compute. reflexivity.
  - reflexivity.
Defined.

(** C7, as the specification has it, fails: the second [AddNeighbor] of the
    same neighbour leaves two entries, and the second [AddNode] of the same
    ID panics. *)
Lemma second_addition_is_not_idempotent :
  Implicit.AddNeighbor Fixtures.two_nodes 0%nat 1%nat
  = Ret [Fixtures.gnode 0 [1%nat]; Fixtures.gnode 1 []] /\
  Implicit.AddNeighbor [Fixtures.gnode 0 [1%nat]; Fixtures.gnode 1 []]
    0%nat 1%nat
  = Ret [Fixtures.gnode 0 [1%nat; 1%nat]; Fixtures.gnode 1 []] /\
  AddNode NewDirectedGraph 7 = Ret (mkDirectedGraph ({[7]} ∪ ∅) ∅) /\
  AddNode (mkDirectedGraph ({[7]} ∪ ∅) ∅) 7 = Panicked (PanicIDCollision 7).
Proof. split_and!; vm_compute; reflexivity. Qed.

End StoreFacts.


(** * What the searches of the implicit graph compute *)

Module SearchFacts.
Import Implicit Fixtures ImplicitFacts.
Local Open Scope nat_scope.

Lemma ID_Ret h n i : ID h n = Ret i -> node_id h n = Some i.
Proof.
  destruct n as [p|j]; simpl.
  - unfold deref. destruct (h !! p); simpl; [|done]. by intros [= <-].
  - by intros [= <-].
Qed.

Lemma deref_Ret h p g : deref h p = Ret g -> h !! p = Some g.
Proof. unfold deref. destruct (h !! p); [|done]. by intros [= <-]. Qed.

Lemma below_neighbor h p g n : h !! p = Some g -> n ∈ Neighbors g -> below h p n.
Proof. intros Hp Hn. exists p, g. split_and!; [constructor|done..]. Qed.

Lemma below_step h p g q n :
  h !! p = Some g -> NGraphNode q ∈ Neighbors g -> below h q n -> below h p n.
Proof.
  intros Hp Hq (q' & g' & Hr & Hq' & Hn). exists q', g'.
  split_and!; [by eapply reachable_step|done..].
Qed.

Lemma at_or_below_neighbor h p g m n :
  h !! p = Some g -> m ∈ Neighbors g -> at_or_below h m n -> below h p n.
Proof.
  intros Hp Hm [->|(q & -> & Hb)].
  - by eapply below_neighbor.
  - by eapply below_step.
Qed.

(** *** [Has] and [Node]: what a positive answer means *)

Section HasSound.
Context (h : heap) (target : Z).

Lemma Has_loop_sound rec ns seen seen' :
  (forall q s s', rec q s = Ret (true, s') ->
     exists n, below h q n /\ node_id h n = Some target) ->
  Has_loop h target rec ns seen = Ret (true, seen') ->
  exists m n, m ∈ ns /\ at_or_below h m n /\ node_id h n = Some target.
Proof.
  intros Hrec. revert seen. induction ns as [|m ns IH]; intros seen; simpl;
    [done|].
  assert (Hnext : forall s, Has_loop h target rec ns s = Ret (true, seen') ->
            exists m' n, m' ∈ m :: ns /\ at_or_below h m' n /\
                         node_id h n = Some target).
  { intros s Hs. destruct (IH s Hs) as (m' & n & Hm' & Hn).
    exists m', n. split; [by right|done]. }
  destruct (ID h m) as [i| |] eqn:Hi; simpl; [|done..].
  apply ID_Ret in Hi.
  destruct (decide (i ∈ seen)) as [Hin|Hout]; [by apply Hnext|].
  destruct (decide (i = target)) as [->|Hne].
  { intros _. exists m, m. split_and!; [by left|by left|done]. }
  destruct m as [q|j]; [|by apply Hnext].
  destruct (rec q _) as [[[] s]| |] eqn:Hq; simpl; [|by apply Hnext|done..].
  intros _. destruct (Hrec _ _ _ Hq) as (n & Hb & Hn).
  exists (NGraphNode q), n. split_and!; [by left| |done].
  right. by exists q.
Qed.

Lemma Has_sound fuel p seen seen' :
  Has fuel h p seen target = Ret (true, seen') ->
  exists n, below h p n /\ node_id h n = Some target.
Proof.
  revert p seen seen'. induction fuel as [|fuel IH]; intros p seen seen';
    simpl; [done|].
  destruct (deref h p) as [g| |] eqn:Hp; simpl; [|done..].
  apply deref_Ret in Hp. intros Hloop.
  destruct (Has_loop_sound _ _ _ _ (fun q s s' => IH q s s') Hloop)
    as (m & n & Hm & Hb & Hn).
  exists n. split; [by eapply at_or_below_neighbor|done].
Qed.

Lemma Node_loop_sound fuel ns seen x :
  Node_loop fuel h target ns seen = Ret (Some x) ->
  x ∈ ns /\ exists n, at_or_below h x n /\ node_id h n = Some target.
Proof.
  revert seen. induction ns as [|m ns IH]; intros seen; simpl; [done|].
  assert (Hnext : forall s, Node_loop fuel h target ns s = Ret (Some x) ->
            x ∈ m :: ns /\
            exists n, at_or_below h x n /\ node_id h n = Some target).
  { intros s Hs. destruct (IH s Hs) as [Hx Hn]. split; [by right|done]. }
  destruct (ID h m) as [i| |] eqn:Hi; simpl; [|done..].
  apply ID_Ret in Hi.
  destruct (decide (i = target)) as [->|Hne].
  { intros [= <-]. split; [by left|]. exists m. split; [by left|done]. }
  destruct m as [q|j]; [|by apply Hnext].
  destruct (Has fuel h q seen target) as [[[] s]| |] eqn:Hq; simpl;
    [|by apply Hnext|done..].
  intros [= <-]. split; [by left|].
  destruct (Has_sound _ _ _ _ Hq) as (n & Hb & Hn).
  exists n. split; [|done]. right. by exists q.
Qed.
End HasSound.

(** *** Bookkeeping of the visited set *)

Section Marking.
Context (h : heap) (Hunique : unique_ids h).
Context (P : gset Z -> GraphNode -> Prop).

Lemma marked_done_refl seen : marked_done h P seen seen.
Proof. by intros p g _ Hin Hout. Qed.

(** A neighbour that is a [*GraphNode] was marked and then searched. *)
Lemma marked_done_ptr seen s1 seen' q gq :
  (forall s s' g, s ⊆ s' -> P s g -> P s' g) ->
  h !! q = Some gq -> s1 ⊆ seen' -> P s1 gq ->
  marked_done h P ({[id gq]} ∪ seen) s1 -> marked_done h P s1 seen' ->
  marked_done h P seen seen'.
Proof.
  intros Pmono Hq Hsub Hgq Hm1 Hm p' g' Hp' Hin Hout.
  destruct (decide (id g' ∈ s1)) as [Hin1|Hout1]; [|by apply (Hm p' g')].
  apply (Pmono s1); [done|].
  destruct (decide (id g' = id gq)) as [Heq|Hne].
  - assert (p' = q) as -> by (eapply unique_ids_ptr; eauto).
    pose proof (eq_trans (eq_sym Hq) Hp') as Hgg. by injection Hgg as <-.
  - apply (Hm1 p' g' Hp' Hin1). set_solver.
Qed.

(** A neighbour of another implementation was marked: no [GraphNode] has its
    ID. *)
Lemma marked_done_other seen seen' i p g :
  h !! p = Some g -> NOther i ∈ Neighbors g ->
  marked_done h P ({[i]} ∪ seen) seen' -> marked_done h P seen seen'.
Proof.
  intros Hp Hn Hm p' g' Hp' Hin Hout.
  destruct (decide (id g' = i)) as [Heq|Hne].
  - exfalso. assert (NOther i = NGraphNode p'); [|done].
    eapply (unique_ids_neighbor h p g (NOther i) p' g'); eauto.
    simpl. by rewrite Heq.
  - apply (Hm p' g' Hp' Hin). set_solver.
Qed.
End Marking.

Lemma neighbours_marked_mono h s s' g :
  s ⊆ s' -> neighbours_marked h s g -> neighbours_marked h s' g.
Proof.
  intros Hs Hn n Hin. destruct (Hn n Hin) as (i & Hi & Hs').
  exists i. split; [done|set_solver].
Qed.

(** *** [Has] and [Node]: a negative answer means that the ID is not there *)

Section HasComplete.
Context (h : heap) (target : Z).
Context (Hclosed : closed h) (Hunique : unique_ids h).

Local Abbreviation NM := (neighbours_marked h).
Local Abbreviation MD := (marked_done h (neighbours_marked h)).

Lemma Has_loop_spec rec fuel p g ns seen :
  (forall q gq s, h !! q = Some gq -> unseen h s < fuel ->
     exists b s', rec q s = Ret (b, s') /\ s ⊆ s' /\
       (b = false -> NM s' gq /\ MD s s' /\ (target ∈ s' -> target ∈ s))) ->
  h !! p = Some g -> ns ⊆ Neighbors g -> unseen h seen < S fuel ->
  exists b seen', Has_loop h target rec ns seen = Ret (b, seen') /\
    seen ⊆ seen' /\
    (b = false ->
       (forall n, n ∈ ns -> exists i, node_id h n = Some i /\ i ∈ seen') /\
       MD seen seen' /\ (target ∈ seen' -> target ∈ seen)).
Proof.
  intros Hrec Hp. revert seen.
  induction ns as [|n ns IH]; intros seen Hns Hfuel; simpl.
  { exists false, seen. split_and!; [done..|]. intros _. split_and!; [|by apply marked_done_refl|done].
    intros n Hn. by apply elem_of_nil in Hn. }
  destruct (loop_head h Hclosed _ _ _ _ seen Hp Hns) as (Hns' & i & Hi & Hlt).
  assert (Hn : n ∈ Neighbors g) by (apply Hns; left).
  rewrite (ID_node_id _ _ _ Hi). simpl.
  destruct (decide (i ∈ seen)) as [Hin|Hout].
  { destruct (IH seen Hns' Hfuel) as (b & seen' & -> & Hsub & Hb).
    exists b, seen'. split_and!; [done..|].
    intros Hf. destruct (Hb Hf) as (Hall & Hm & Ht). split_and!; [|done..].
    intros m [->|Hm']%elem_of_cons; [|by apply Hall].
    exists i. split; [done|set_solver]. }
  specialize (Hlt Hout).
  destruct (decide (i = target)) as [->|Hne].
  { exists true, ({[target]} ∪ seen). split_and!; [done|set_solver|done]. }
  destruct n as [q|j].
  - destruct (node_id_is_Some h _ _ Hi) as [gq Hq].
    assert (i = id gq) as -> by (simpl in Hi; rewrite Hq in Hi; by injection Hi).
    destruct (Hrec q gq ({[id gq]} ∪ seen) Hq) as (b1 & s1 & -> & Hs1 & Hb1);
      [lia|]. simpl.
    destruct b1.
    { exists true, s1. split_and!; [done|set_solver|done]. }
    destruct (Hb1 eq_refl) as (Hgq & Hm1 & Ht1).
    destruct (IH s1 Hns') as (b & seen' & -> & Hsub & Hb).
    { pose proof (unseen_mono h _ _ Hs1). lia. }
    exists b, seen'. split_and!; [done|set_solver|].
    intros Hf. destruct (Hb Hf) as (Hall & Hm & Ht). split_and!.
    + intros m [->|Hm']%elem_of_cons; [|by apply Hall].
      exists (id gq). split; [done|set_solver].
    + eapply (marked_done_ptr h Hunique (neighbours_marked h) _ _ _ _ _
                (neighbours_marked_mono h)); eauto.
    + intros Hin'. specialize (Ht1 (Ht Hin')). set_solver.
  - simpl in Hi. injection Hi as ->.
    destruct (IH ({[i]} ∪ seen) Hns') as (b & seen' & -> & Hsub & Hb); [lia|].
    exists b, seen'. split_and!; [done|set_solver|].
    intros Hf. destruct (Hb Hf) as (Hall & Hm & Ht). split_and!.
    + intros m [->|Hm']%elem_of_cons; [|by apply Hall].
      exists i. split; [done|set_solver].
    + eapply (marked_done_other h Hunique); eauto.
    + intros Hin'. specialize (Ht Hin'). set_solver.
Qed.

Lemma Has_spec fuel p g seen :
  h !! p = Some g -> unseen h seen < fuel ->
  exists b seen', Has fuel h p seen target = Ret (b, seen') /\ seen ⊆ seen' /\
    (b = false -> NM seen' g /\ MD seen seen' /\ (target ∈ seen' -> target ∈ seen)).
Proof.
  revert p g seen. induction fuel as [|fuel IH]; intros p g seen Hp Hfuel;
    [lia|].
  simpl. rewrite (deref_Some _ _ _ Hp). simpl.
  destruct (Has_loop_spec (fun q s => Has fuel h q s target) fuel p g
              (Neighbors g) seen) as (b & seen' & -> & Hsub & Hb);
    [by intros; apply IH|done|done|lia|].
  exists b, seen'. split_and!; [done..|].
  intros Hf. destruct (Hb Hf) as (Hall & Hm & Ht). done.
Qed.

Lemma Node_loop_spec fuel p g ns seen :
  budget h <= fuel -> h !! p = Some g -> ns ⊆ Neighbors g ->
  exists r, Node_loop fuel h target ns seen = Ret r /\
    (r = None -> exists seen', seen ⊆ seen' /\
       (forall n, n ∈ ns -> exists i, node_id h n = Some i /\ i <> target /\
          forall q gq, n = NGraphNode q -> h !! q = Some gq -> NM seen' gq) /\
       MD seen seen' /\ (target ∈ seen' -> target ∈ seen)).
Proof.
  intros Hfuel Hp. revert seen.
  induction ns as [|n ns IH]; intros seen Hns; simpl.
  { exists None. split; [done|]. intros _. exists seen.
    split_and!; [done| |by apply marked_done_refl|done].
    intros n Hn. by apply elem_of_nil in Hn. }
  destruct (loop_head h Hclosed _ _ _ _ seen Hp Hns) as (Hns' & i & Hi & _).
  rewrite (ID_node_id _ _ _ Hi). simpl.
  destruct (decide (i = target)) as [->|Hne]; [by eexists|].
  destruct n as [q|j].
  - destruct (node_id_is_Some h _ _ Hi) as [gq Hq].
    destruct (Has_spec fuel q gq seen Hq) as (b1 & s1 & -> & Hs1 & Hb1).
    { pose proof (unseen_budget h seen). lia. }
    simpl. destruct b1; [by eexists|].
    destruct (Hb1 eq_refl) as (Hgq & Hm1 & Ht1).
    destruct (IH s1 Hns') as (r & -> & Hr). exists r. split; [done|].
    intros Hnone. destruct (Hr Hnone) as (seen' & Hsub & Hall & Hm & Ht).
    exists seen'. split_and!; [set_solver| | |by auto].
    + intros m [->|Hm']%elem_of_cons; [|by apply Hall].
      exists i. split_and!; [done..|].
      intros q' gq' [= <-] Hq'.
      pose proof (eq_trans (eq_sym Hq) Hq') as Hgg. injection Hgg as <-.
      by apply (neighbours_marked_mono h s1).
    + intros p' g' Hp' Hin Hout.
      destruct (decide (id g' ∈ s1)) as [Hin1|Hout1]; [|by apply (Hm p' g')].
      apply (neighbours_marked_mono h s1); [done|]. by apply (Hm1 p' g').
  - destruct (IH seen Hns') as (r & -> & Hr). exists r. split; [done|].
    intros Hnone. destruct (Hr Hnone) as (seen' & Hsub & Hall & Hm & Ht).
    exists seen'. split_and!; [done| |done..].
    intros m [->|Hm']%elem_of_cons; [|by apply Hall].
    exists i. split_and!; [done..|]. by intros q' gq' [=].
Qed.

Lemma Node_complete g n :
  reaches h g n -> node_id h n = Some target -> is_Some (h !! g) ->
  exists x, Node h g target = Ret (Some x).
Proof.
  intros Hreach Hn [gn Hg]. unfold Node, Node_fuel.
  rewrite (deref_Some _ _ _ Hg). simpl.
  destruct (decide (target = id gn)) as [Heq|Hne]; [by eexists|].
  destruct (Node_loop_spec (budget h) g gn (Neighbors gn) {[id gn]}
              (le_n _) Hg) as (r & -> & Hr); [done|].
  destruct r as [x|]; [by eexists|]. exfalso.
  destruct (Hr eq_refl) as (seen' & Hsub & Hall & Hm & Ht).
  set (InS := fun m : graph_Node =>
         m = NGraphNode g \/ m ∈ Neighbors gn \/
         exists i, node_id h m = Some i /\ i ∈ seen').
  assert (Hsafe : forall m, InS m -> node_id h m <> Some target).
  { intros m [->|[Hm'|(i & Hi & Hin)]].
    - simpl. rewrite Hg. simpl. congruence.
    - destruct (Hall m Hm') as (i & Hi & Hne' & _). congruence.
    - rewrite Hi. intros [= ->]. specialize (Ht Hin). set_solver. }
  assert (Hstep : forall q gq m, InS (NGraphNode q) -> h !! q = Some gq ->
                    m ∈ Neighbors gq -> InS m).
  { assert (Hroot : forall gq m, h !! g = Some gq -> m ∈ Neighbors gq -> InS m).
    { intros gq m Hq Hm'.
      pose proof (eq_trans (eq_sym Hg) Hq) as Hgg. injection Hgg as <-.
      right. by left. }
    intros q gq m [[= ->]|[Hq'|(i & Hi & Hin)]] Hq Hm'.
    - by eapply Hroot.
    - destruct (Hall _ Hq') as (i & Hi & _ & Hnm).
      right. right. by apply (Hnm q gq).
    - simpl in Hi. rewrite Hq in Hi. injection Hi as <-.
      destruct (decide (id gq = id gn)) as [Heq|Hne'].
      + assert (q = g) as -> by (eapply unique_ids_ptr; eauto).
        by eapply Hroot.
      + right. right. apply (Hm q gq Hq Hin); [set_solver|done]. }
  assert (Hreachable : forall p r, reachable h p r ->
                         InS (NGraphNode p) -> InS (NGraphNode r)).
  { induction 1 as [p|p q r gp Hp Hq _ IH]; [done|].
    intros Hin. apply IH. by eapply Hstep. }
  apply (Hsafe n); [|done].
  destruct Hreach as [->|(q & gq & Hr' & Hq & Hm')]; [by left|].
  apply (Hstep q gq n); [|done..]. apply (Hreachable g q Hr'). by left.
Qed.
End HasComplete.

(** X1.  On a heap without dangling neighbours in which IDs identify nodes,
    the lookup [g.Node(id)] returns nil exactly when no node with that ID is
    the root or can be reached from it; otherwise it returns a node. *)
Theorem Node_nil_iff_unreachable h g target :
  closed h -> unique_ids h -> is_Some (h !! g) ->
  (Node h g target = Ret None <->
   ~ exists n, reaches h g n /\ node_id h n = Some target) /\
  ((exists x, Node h g target = Ret (Some x)) <->
   exists n, reaches h g n /\ node_id h n = Some target).
Proof.
  intros Hc Hu Hg.
  assert (Hsound : forall x, Node h g target = Ret (Some x) ->
            exists n, reaches h g n /\ node_id h n = Some target).
  { intros x Hx. unfold Node, Node_fuel in Hx.
    destruct Hg as [gn Hg]. rewrite (deref_Some _ _ _ Hg) in Hx. simpl in Hx.
    destruct (decide (target = id gn)) as [->|Hne].
    - exists (NGraphNode g). split; [by left|]. simpl. by rewrite Hg.
    - apply Node_loop_sound in Hx as (Hin & n & Hb & Hn).
      exists n. split; [|done]. right. by eapply at_or_below_neighbor. }
  assert (Hcomplete : (exists n, reaches h g n /\ node_id h n = Some target) ->
            exists x, Node h g target = Ret (Some x)).
  { intros (n & Hr & Hn). by eapply Node_complete. }
  split; [|by split; [intros [x Hx]; eauto|]].
  split.
  - intros Hnone Hex. destruct (Hcomplete Hex) as [x Hx]. congruence.
  - intros Hno. destruct (Node_returns h Hc g target Hg) as [[x|] Hr]; [|done].
    destruct Hno. eauto.
Qed.

(** X2.  Whatever [g.Node(id)] returns is the root itself or one of its
    direct neighbours, and a node with the ID that was asked for is that node
    or lies below it. *)
Theorem Node_returns_root_or_neighbor h g gn target x :
  h !! g = Some gn -> Node h g target = Ret (Some x) ->
  (x = NGraphNode g \/ x ∈ Neighbors gn) /\
  exists n, at_or_below h x n /\ node_id h n = Some target.
Proof.
  intros Hg Hx. unfold Node, Node_fuel in Hx.
  rewrite (deref_Some _ _ _ Hg) in Hx. simpl in Hx.
  destruct (decide (target = id gn)) as [->|Hne].
  - injection Hx as <-. split; [by left|].
    exists (NGraphNode g). split; [by left|]. simpl. by rewrite Hg.
  - apply Node_loop_sound in Hx as (Hin & n & Hb & Hn).
    split; [by right|]. by exists n.
Qed.

(** *** [FindNeighbors] and [From] *)

Lemma is_nil_items {A} (s : slice A) : items s <> [] -> is_nil s = false.
Proof. by destruct s. Qed.

Section FromSound.
Context (h : heap) (target : Z).

(** The slice is the neighbour slice of a node with the ID, found from
    [p]. *)
Local Abbreviation found_from := (fun (p : ptr) (l : slice graph_Node) =>
  exists r gr, reachable h p r /\ h !! r = Some gr /\ id gr = target /\
    Neighbors_slice gr = l).

Lemma FindNeighbors_loop_sound rec ns seen l seen' :
  (forall q s l' s', rec q s = Ret (l', s') -> is_nil l' = false ->
     found_from q l') ->
  FindNeighbors_loop h rec ns seen = Ret (l, seen') -> is_nil l = false ->
  exists q, NGraphNode q ∈ ns /\ found_from q l.
Proof.
  intros Hrec. revert seen. induction ns as [|m ns IH]; intros seen; simpl.
  { by intros [= <- _]. }
  assert (Hnext : forall s, FindNeighbors_loop h rec ns s = Ret (l, seen') ->
            is_nil l = false ->
            exists q, NGraphNode q ∈ m :: ns /\ found_from q l).
  { intros s Hs Hl. destruct (IH s Hs Hl) as (q & Hq & Hf).
    exists q. split; [by right|done]. }
  destruct (ID h m) as [i| |] eqn:Hi; simpl; [|done..].
  destruct (decide (i ∈ seen)) as [Hin|Hout]; [by apply Hnext|].
  destruct m as [q|j]; [|by apply Hnext].
  destruct (rec q _) as [[l' s]| |] eqn:Hq; simpl; [|done..].
  destruct (is_nil l') eqn:Hnil; [by apply Hnext|].
  intros [= <- <-] Hl. exists q. split; [by left|]. by eapply Hrec.
Qed.

Lemma FindNeighbors_sound fuel p seen l seen' :
  FindNeighbors fuel h p target seen = Ret (l, seen') -> is_nil l = false ->
  found_from p l.
Proof.
  revert p seen l seen'.
  induction fuel as [|fuel IH]; intros p seen l seen'; simpl; [done|].
  destruct (deref h p) as [g| |] eqn:Hp; simpl; [|done..].
  apply deref_Ret in Hp.
  destruct (decide (target = id g)) as [->|Hne].
  { intros [= <- _] _. exists p, g. split_and!; [constructor|done..]. }
  intros Hloop Hl.
  destruct (FindNeighbors_loop_sound _ _ _ _ _
              (fun q s l' s' => IH q s l' s') Hloop Hl)
    as (q & Hq & r & gr & Hr & Hgr & Hid & Hnb).
  exists r, gr. split_and!; [by eapply reachable_step|done..].
Qed.

Lemma From_loop_sound fuel ns seen l :
  From_loop fuel h target ns seen = Ret (Some l) ->
  exists s, is_nil s = false /\ items s = l /\
    exists q, NGraphNode q ∈ ns /\ found_from q s.
Proof.
  revert seen. induction ns as [|m ns IH]; intros seen; simpl; [done|].
  assert (Hnext : forall s, From_loop fuel h target ns s = Ret (Some l) ->
            exists s, is_nil s = false /\ items s = l /\
              exists q, NGraphNode q ∈ m :: ns /\ found_from q s).
  { intros s Hs. destruct (IH s Hs) as (sl & Hl & Hit & q & Hq & Hf).
    exists sl. split_and!; [done..|]. exists q. split; [by right|done]. }
  destruct (ID h m) as [i| |] eqn:Hi; simpl; [|done..].
  destruct m as [q|j]; [|by apply Hnext].
  destruct (FindNeighbors fuel h q target _) as [[l' s]| |] eqn:Hq; simpl;
    [|done..].
  destruct (is_nil l') eqn:Hnil; [by apply Hnext|].
  intros [= <-]. exists l'. split_and!; [done..|].
  exists q. split; [by left|]. by eapply FindNeighbors_sound.
Qed.

Lemma From_sound g gn l :
  h !! g = Some gn -> From h g target = Ret (Some l) ->
  exists r gr, reachable h g r /\ h !! r = Some gr /\ id gr = target /\
    Neighbors gr = l /\ (r = g \/ is_nil (Neighbors_slice gr) = false).
Proof.
  intros Hg. unfold From, From_fuel. rewrite (deref_Some _ _ _ Hg). simpl.
  destruct (decide (target = id gn)) as [->|Hne].
  - intros [= <-]. exists g, gn. split_and!; [constructor|done..|by left].
  - intros (sl & Hl & <- & q & Hq & r & gr & Hr & Hgr & Hid & <-)%From_loop_sound.
    exists r, gr. split_and!; [by eapply reachable_step|done..|by right].
Qed.
End FromSound.

Lemma passed_by_mono h target s s' g :
  s ⊆ s' -> passed_by h target s g -> passed_by h target s' g.
Proof. intros Hs [Ht Hn]. split; [done|by eapply neighbours_marked_mono]. Qed.

Section FromComplete.
Context (h : heap) (target : Z).
Context (Hclosed : closed h) (Hunique : unique_ids h).

Local Abbreviation PB := (passed_by h target).
Local Abbreviation MD := (marked_done h (passed_by h target)).

Lemma FindNeighbors_loop_spec rec fuel p g ns seen :
  (forall q gq s, h !! q = Some gq -> unseen h s < fuel ->
     exists l s', rec q s = Ret (l, s') /\ s ⊆ s' /\
       (is_nil l = true -> PB s' gq /\ MD s s')) ->
  h !! p = Some g -> ns ⊆ Neighbors g -> unseen h seen < S fuel ->
  exists l seen', FindNeighbors_loop h rec ns seen = Ret (l, seen') /\
    seen ⊆ seen' /\
    (is_nil l = true ->
       (forall n, n ∈ ns -> exists i, node_id h n = Some i /\ i ∈ seen') /\
       MD seen seen').
Proof.
  intros Hrec Hp. revert seen.
  induction ns as [|n ns IH]; intros seen Hns Hfuel; simpl.
  { exists nil_slice, seen. split_and!; [done..|]. intros _.
    split; [|by apply marked_done_refl].
    intros n Hn. by apply elem_of_nil in Hn. }
  destruct (loop_head h Hclosed _ _ _ _ seen Hp Hns) as (Hns' & i & Hi & Hlt).
  assert (Hn : n ∈ Neighbors g) by (apply Hns; left).
  rewrite (ID_node_id _ _ _ Hi). simpl.
  destruct (decide (i ∈ seen)) as [Hin|Hout].
  { destruct (IH seen Hns' Hfuel) as (l & seen' & -> & Hsub & Hl).
    exists l, seen'. split_and!; [done..|].
    intros Hnil. destruct (Hl Hnil) as (Hall & Hm). split; [|done].
    intros m [->|Hm']%elem_of_cons; [|by apply Hall].
    exists i. split; [done|set_solver]. }
  specialize (Hlt Hout).
  destruct n as [q|j].
  - destruct (node_id_is_Some h _ _ Hi) as [gq Hq].
    assert (i = id gq) as -> by (simpl in Hi; rewrite Hq in Hi; by injection Hi).
    destruct (Hrec q gq ({[id gq]} ∪ seen) Hq) as (l1 & s1 & -> & Hs1 & Hl1);
      [lia|]. simpl.
    destruct l1 as [|l1]; simpl.
    2:{ exists (make_slice l1), s1. split_and!; [done|set_solver|done]. }
    destruct (Hl1 eq_refl) as (Hgq & Hm1).
    destruct (IH s1 Hns') as (l & seen' & -> & Hsub & Hl).
    { pose proof (unseen_mono h _ _ Hs1). lia. }
    exists l, seen'. split_and!; [done|set_solver|].
    intros Hnil. destruct (Hl Hnil) as (Hall & Hm). split.
    + intros m [->|Hm']%elem_of_cons; [|by apply Hall].
      exists (id gq). split; [done|set_solver].
    + eapply (marked_done_ptr h Hunique (passed_by h target) _ _ _ _ _
                (passed_by_mono h target));
      eauto.
  - simpl in Hi. injection Hi as ->.
    destruct (IH ({[i]} ∪ seen) Hns') as (l & seen' & -> & Hsub & Hl); [lia|].
    exists l, seen'. split_and!; [done|set_solver|].
    intros Hnil. destruct (Hl Hnil) as (Hall & Hm). split.
    + intros m [->|Hm']%elem_of_cons; [|by apply Hall].
      exists i. split; [done|set_solver].
    + eapply (marked_done_other h Hunique); eauto.
Qed.

Lemma FindNeighbors_spec fuel p g seen :
  h !! p = Some g -> unseen h seen < fuel ->
  exists l seen', FindNeighbors fuel h p target seen = Ret (l, seen') /\
    seen ⊆ seen' /\ (is_nil l = true -> PB seen' g /\ MD seen seen').
Proof.
  revert p g seen. induction fuel as [|fuel IH]; intros p g seen Hp Hfuel;
    [lia|].
  simpl. rewrite (deref_Some _ _ _ Hp). simpl.
  destruct (decide (target = id g)) as [Heq|Hne].
  { exists (Neighbors_slice g), seen. split_and!; [done..|].
    intros Hnil. split; [|by apply marked_done_refl].
    split; [done|]. intros n Hn. unfold Neighbors in Hn.
    destruct (Neighbors_slice g); [|done]. by apply elem_of_nil in Hn. }
  destruct (FindNeighbors_loop_spec (fun q s => FindNeighbors fuel h q target s)
              fuel p g (Neighbors g) seen) as (l & seen' & -> & Hsub & Hl);
    [by intros; apply IH|done|done|lia|].
  exists l, seen'. split_and!; [done..|].
  intros Hnil. destruct (Hl Hnil) as (Hall & Hm). split; [|done].
  split; [by intros <-|done].
Qed.

Lemma From_loop_spec fuel p g ns seen :
  budget h <= fuel -> h !! p = Some g -> ns ⊆ Neighbors g ->
  exists r, From_loop fuel h target ns seen = Ret r /\
    (r = None -> exists seen', seen ⊆ seen' /\
       (forall n, n ∈ ns -> exists i, node_id h n = Some i /\ i ∈ seen') /\
       MD seen seen').
Proof.
  intros Hfuel Hp. revert seen.
  induction ns as [|n ns IH]; intros seen Hns; simpl.
  { exists None. split; [done|]. intros _. exists seen.
    split_and!; [done| |by apply marked_done_refl].
    intros n Hn. by apply elem_of_nil in Hn. }
  destruct (loop_head h Hclosed _ _ _ _ seen Hp Hns) as (Hns' & i & Hi & _).
  assert (Hn : n ∈ Neighbors g) by (apply Hns; left).
  rewrite (ID_node_id _ _ _ Hi). simpl.
  destruct n as [q|j].
  - destruct (node_id_is_Some h _ _ Hi) as [gq Hq].
    assert (i = id gq) as -> by (simpl in Hi; rewrite Hq in Hi; by injection Hi).
    destruct (FindNeighbors_spec fuel q gq ({[id gq]} ∪ seen) Hq)
      as (l1 & s1 & -> & Hs1 & Hl1).
    { pose proof (unseen_budget h ({[id gq]} ∪ seen)). lia. }
    simpl. destruct l1 as [|l1]; simpl; [|by eexists].
    destruct (Hl1 eq_refl) as (Hgq & Hm1).
    destruct (IH s1 Hns') as (r & -> & Hr). exists r. split; [done|].
    intros Hnone. destruct (Hr Hnone) as (seen' & Hsub & Hall & Hm).
    exists seen'. split_and!; [set_solver| |].
    + intros m [->|Hm']%elem_of_cons; [|by apply Hall].
      exists (id gq). split; [done|set_solver].
    + eapply (marked_done_ptr h Hunique (passed_by h target) _ _ _ _ _
                (passed_by_mono h target));
      eauto.
  - simpl in Hi. injection Hi as ->.
    destruct (IH ({[i]} ∪ seen) Hns') as (r & -> & Hr). exists r.
    split; [done|].
    intros Hnone. destruct (Hr Hnone) as (seen' & Hsub & Hall & Hm).
    exists seen'. split_and!; [set_solver| |].
    + intros m [->|Hm']%elem_of_cons; [|by apply Hall].
      exists i. split; [done|set_solver].
    + eapply (marked_done_other h Hunique); eauto.
Qed.

Lemma From_complete g q gq :
  reachable h g q -> h !! q = Some gq -> id gq = target ->
  q = g \/ is_nil (Neighbors_slice gq) = false ->
  From h g target = Ret (Some (Neighbors gq)).
Proof.
  intros Hreach Hq Hid Hnb.
  assert (exists gn, h !! g = Some gn) as [gn Hg].
  { destruct Hreach; eauto. }
  destruct (decide (target = id gn)) as [Heq|Hne].
  { assert (q = g) as -> by (eapply unique_ids_ptr; eauto; congruence).
    pose proof (eq_trans (eq_sym Hg) Hq) as Hgg. injection Hgg as <-.
    unfold From, From_fuel. rewrite (deref_Some _ _ _ Hg). simpl.
    by destruct (decide (target = id gn)). }
  assert (Hnb' : is_nil (Neighbors_slice gq) = false).
  { destruct Hnb as [->|?]; [|done].
    pose proof (eq_trans (eq_sym Hg) Hq) as Hgg. injection Hgg as <-.
    congruence. }
  assert (exists l, From h g target = Ret (Some l)) as [l Hl].
  { unfold From, From_fuel. rewrite (deref_Some _ _ _ Hg). simpl.
    destruct (decide (target = id gn)) as [|_]; [done|].
    destruct (From_loop_spec (budget h) g gn (Neighbors gn) {[id gn]}
                (le_n _) Hg) as (r & -> & Hr); [done|].
    destruct r as [l|]; [by eexists|]. exfalso.
    destruct (Hr eq_refl) as (seen' & Hsub & Hall & Hm).
    assert (Hpb : forall p' g', h !! p' = Some g' -> id g' ∈ seen' ->
                                PB seen' g').
    { intros p' g' Hp' Hin.
      destruct (decide (id g' = id gn)) as [Heq|Hne'].
      - assert (p' = g) as -> by (eapply unique_ids_ptr; eauto).
        pose proof (eq_trans (eq_sym Hg) Hp') as Hgg. injection Hgg as <-.
        split; [congruence|done].
      - apply (Hm p' g' Hp' Hin). set_solver. }
    assert (Hin : forall p r, reachable h p r ->
              forall gp gr, h !! p = Some gp -> id gp ∈ seen' ->
                h !! r = Some gr -> id gr ∈ seen').
    { induction 1 as [p|p p' r gp' Hp Hp' _ IH]; intros gp gr Hgp Hin Hgr.
      - pose proof (eq_trans (eq_sym Hgp) Hgr) as Hgg. by injection Hgg as <-.
      - pose proof (eq_trans (eq_sym Hgp) Hp) as Hgg. injection Hgg as <-.
        destruct (Hpb p gp Hgp Hin) as [_ Hnm].
        destruct (Hnm _ Hp') as (i & Hi & Hseen).
        destruct (node_id_is_Some h _ _ Hi) as [g' Hg'].
        simpl in Hi. rewrite Hg' in Hi. injection Hi as <-.
        by apply (IH g' gr). }
    assert (Hqin : id gq ∈ seen').
    { apply (Hin g q Hreach gn gq Hg); [set_solver|done]. }
    destruct (Hpb q gq Hq Hqin) as [Hnil _].
    rewrite (Hnil Hid) in Hnb'. done. }
  rewrite Hl. do 2 f_equal.
  destruct (From_sound h target g gn l Hg Hl)
    as (r & gr & Hr & Hgr & Hidr & <- & _).
  assert (r = q) as -> by (eapply unique_ids_ptr; eauto; congruence).
  pose proof (eq_trans (eq_sym Hq) Hgr) as Hgg. by injection Hgg as <-.
Qed.
End FromComplete.

(** X3.  On a heap without dangling neighbours in which IDs identify nodes,
    [g.From(id)] returns the neighbour list of the node with that ID whenever
    that node is the root, or is reachable from the root and has at least one
    neighbour. *)
Theorem From_lists_neighbors h g q gq :
  closed h -> unique_ids h ->
  reachable h g q -> h !! q = Some gq -> q = g \/ Neighbors gq <> [] ->
  From h g (id gq) = Ret (Some (Neighbors gq)).
Proof.
  intros Hc Hu Hr Hq Hnb. eapply From_complete; [done..|].
  destruct Hnb as [->|Hnb]; [by left|right]. by apply is_nil_items.
Qed.

(** X4.  On a heap without dangling neighbours in which IDs identify nodes,
    [g.From(id)] returns nil exactly when no reachable node has that ID, or
    the node that has it is not the root and its neighbour slice is nil (as
    [NewGraphNode] leaves it): such a node is reported like a node that is
    not there.  In every other case the result is not nil and yields the
    neighbours of that node; for the root with a nil slice, and for a node
    whose neighbour slice is allocated but empty, it yields nothing. *)
Theorem From_nil_iff h g target :
  closed h -> unique_ids h -> is_Some (h !! g) ->
  (From h g target = Ret None <->
   ~ exists q gq, reachable h g q /\ h !! q = Some gq /\ id gq = target /\
       (q = g \/ is_nil (Neighbors_slice gq) = false)) /\
  (forall q gq, reachable h g q -> h !! q = Some gq -> id gq = target ->
     q = g \/ is_nil (Neighbors_slice gq) = false ->
     From h g target = Ret (Some (Neighbors gq))).
Proof.
  intros Hc Hu Hg. split; [split|].
  - intros Hnone (q & gq & Hr & Hq & Hid & Hnb).
    rewrite <- Hid, (From_complete h (id gq) Hc Hu g q gq) in Hnone; done.
  - intros Hno. destruct (From_returns h Hc g target Hg) as [[l|] Hl]; [|done].
    destruct Hg as [gn Hg]. destruct Hno.
    destruct (From_sound h target g gn l Hg Hl)
      as (r & gr & Hr & Hgr & Hid & Hnb & Hor).
    by exists r, gr.
  - intros q gq Hr Hq Hid Hnb. by apply (From_complete h target Hc Hu g q gq).
Qed.

(** *** [edgeBetween] and [EdgeBetween]: where a returned edge comes from *)

Section EdgeSound.
Context (h : heap) (uid vid : Z).

(** The edge runs from an anchor that the search from [p] can discover to
    one of its neighbours with one of the two IDs. *)
Local Abbreviation from_anchor := (fun (p : ptr) (e : simple_Edge) =>
  exists a ga, discoverable h uid vid p a /\ h !! a = Some ga /\
    anchor uid vid ga /\ F e = NGraphNode a /\ T e ∈ Neighbors ga /\
    scan_hit h uid vid (T e)).

Lemma anchor_test g :
  bool_decide (uid = id g) || bool_decide (vid = id g) = true
  <-> anchor uid vid g.
Proof.
  rewrite orb_true_iff, !bool_decide_eq_true. done.
Qed.

Lemma edge_scan_sound p ns e :
  edge_scan h uid vid p ns = Ret (Some e) ->
  F e = NGraphNode p /\ T e ∈ ns /\ scan_hit h uid vid (T e).
Proof.
  induction ns as [|n ns IH]; simpl; [done|].
  destruct (ID h n) as [i| |] eqn:Hi; simpl; [|done..].
  apply ID_Ret in Hi.
  destruct (bool_decide (i = uid) || bool_decide (i = vid)) eqn:Hb.
  - intros [= <-]. simpl. split_and!; [done|by left|].
    apply orb_true_iff in Hb as [Hb|Hb]; apply bool_decide_eq_true in Hb;
      subst; [by left|by right].
  - intros He. destruct (IH He) as (HF & HT & Hhit).
    split_and!; [done|by right|done].
Qed.

Lemma edgeBetween_loop_sound rec ns seen e seen' :
  (forall q s e' s', rec q s = Ret (Some e', s') -> from_anchor q e') ->
  edgeBetween_loop h rec ns seen = Ret (Some e, seen') ->
  exists q, NGraphNode q ∈ ns /\ from_anchor q e.
Proof.
  intros Hrec. revert seen. induction ns as [|m ns IH]; intros seen; simpl;
    [done|].
  assert (Hnext : forall s, edgeBetween_loop h rec ns s = Ret (Some e, seen') ->
            exists q, NGraphNode q ∈ m :: ns /\ from_anchor q e).
  { intros s Hs. destruct (IH s Hs) as (q & Hq & Hf).
    exists q. split; [by right|done]. }
  destruct (ID h m) as [i| |] eqn:Hi; simpl; [|done..].
  destruct (decide (i ∈ seen)) as [Hin|Hout]; [by apply Hnext|].
  destruct m as [q|j]; [|by apply Hnext].
  destruct (rec q _) as [[[e'|] s]| |] eqn:Hq; simpl; [|by apply Hnext|done..].
  intros [= <- <-]. exists q. split; [by left|]. by eapply Hrec.
Qed.

Lemma from_anchor_step p g q e :
  h !! p = Some g -> ~ anchor uid vid g -> NGraphNode q ∈ Neighbors g ->
  from_anchor q e -> from_anchor p e.
Proof.
  intros Hp Hna Hq (a & ga & Hd & Ha & Hrest). exists a, ga.
  split; [by eapply discoverable_step|done].
Qed.

Lemma from_anchor_here p g e :
  h !! p = Some g -> anchor uid vid g ->
  F e = NGraphNode p /\ T e ∈ Neighbors g /\ scan_hit h uid vid (T e) ->
  from_anchor p e.
Proof.
  intros Hp Ha (HF & HT & Hhit). exists p, g.
  split_and!; [constructor|done..].
Qed.

Lemma edgeBetween_sound fuel p seen e seen' :
  edgeBetween fuel h p uid vid seen = Ret (Some e, seen') -> from_anchor p e.
Proof.
  revert p seen e seen'.
  induction fuel as [|fuel IH]; intros p seen e seen'; simpl; [done|].
  destruct (deref h p) as [g| |] eqn:Hp; simpl; [|done..].
  apply deref_Ret in Hp.
  destruct (bool_decide (uid = id g) || bool_decide (vid = id g)) eqn:Hb.
  - apply anchor_test in Hb.
    destruct (edge_scan h uid vid p (Neighbors g)) as [[e'|]| |] eqn:Hs;
      simpl; [|done..].
    intros [= <- _]. eapply from_anchor_here; eauto using edge_scan_sound.
  - intros Hloop.
    destruct (edgeBetween_loop_sound _ _ _ _ _
                (fun q s e' s' => IH q s e' s') Hloop) as (q & Hq & Hf).
    eapply from_anchor_step; eauto.
    rewrite <- anchor_test. by rewrite Hb.
Qed.

Lemma EdgeBetween_loop_sound fuel ns seen e :
  EdgeBetween_loop fuel h uid vid ns seen = Ret (Some e) ->
  exists q, NGraphNode q ∈ ns /\ from_anchor q e.
Proof.
  revert seen. induction ns as [|m ns IH]; intros seen; simpl; [done|].
  assert (Hnext : forall s, EdgeBetween_loop fuel h uid vid ns s = Ret (Some e) ->
            exists q, NGraphNode q ∈ m :: ns /\ from_anchor q e).
  { intros s Hs. destruct (IH s Hs) as (q & Hq & Hf).
    exists q. split; [by right|done]. }
  destruct (ID h m) as [i| |] eqn:Hi; simpl; [|done..].
  destruct m as [q|j]; [|by apply Hnext].
  destruct (edgeBetween fuel h q uid vid _) as [[[e'|] s]| |] eqn:Hq; simpl;
    [|by apply Hnext|done..].
  intros [= <-]. exists q. split; [by left|]. by eapply edgeBetween_sound.
Qed.

Lemma EdgeBetween_sound g e :
  EdgeBetween h g uid vid = Ret (Some e) -> from_anchor g e.
Proof.
  unfold EdgeBetween, EdgeBetween_fuel.
  destruct (deref h g) as [gn| |] eqn:Hg; simpl; [|done..].
  apply deref_Ret in Hg.
  destruct (bool_decide (uid = id gn) || bool_decide (vid = id gn)) eqn:Hb.
  - apply anchor_test in Hb. intros Hs.
    eapply from_anchor_here; eauto using edge_scan_sound.
  - intros (q & Hq & Hf)%EdgeBetween_loop_sound.
    eapply from_anchor_step; eauto.
    rewrite <- anchor_test. by rewrite Hb.
Qed.

Context (Hclosed : closed h) (Hunique : unique_ids h).

Lemma EdgeBetween_hit g a ga m :
  discoverable h uid vid g a -> h !! a = Some ga -> anchor uid vid ga ->
  m ∈ Neighbors ga -> scan_hit h uid vid m ->
  exists e, EdgeBetween h g uid vid = Ret (Some e).
Proof.
  intros Hd Ha Hanchor Hm Hhit.
  destruct (discoverable_start _ _ _ _ _ _ Hd Ha) as [gn Hg].
  unfold EdgeBetween, EdgeBetween_fuel.
  rewrite (deref_Some _ _ _ Hg). simpl.
  destruct (bool_decide (uid = id gn) || bool_decide (vid = id gn)) eqn:Hb.
  - apply anchor_test in Hb.
    assert (a = g) as ->.
    { destruct Hd as [|p q r g' Hp Hna]; [done|].
      pose proof (eq_trans (eq_sym Hg) Hp) as Heq. by injection Heq as <-. }
    pose proof (eq_trans (eq_sym Hg) Ha) as Heq. injection Heq as <-.
    destruct (edge_scan_spec h uid vid g (Neighbors gn)) as (r & -> & Hr).
    { apply Forall_forall. intros n Hn. by eapply closed_neighbor. }
    destruct r as [e|]; [by eexists|].
    by destruct (Hr eq_refl m Hm).
  - assert (Hgn : ~ anchor uid vid gn).
    { rewrite <- anchor_test. by rewrite Hb. }
    destruct (EdgeBetween_loop_spec h uid vid Hclosed Hunique (budget h) g gn
                (Neighbors gn) {[id gn]} (le_n _) Hg) as (r & -> & Hr); [done|].
    destruct r as [e|]; [by eexists|]. exfalso.
    destruct (Hr eq_refl) as (seen' & Hsub & Hall & Hmk).
    assert (Hexp : forall q gq, h !! q = Some gq -> id gq ∈ seen' ->
                                explored h uid vid seen' gq).
    { intros q gq Hq Hin.
      destruct (decide (id gq = id gn)) as [Heq|Hne].
      - assert (q = g) as -> by (eapply unique_ids_ptr; eauto).
        pose proof (eq_trans (eq_sym Hg) Hq) as Hgg. injection Hgg as <-.
        split; [done|]. intros _. apply Hall.
      - apply (Hmk q gq Hq Hin). set_solver. }
    assert (Hin : id ga ∈ seen').
    { eapply (discoverable_marked h uid vid seen' g a gn ga); eauto.
      set_solver. }
    destruct (Hexp a ga Ha Hin) as [Hno _].
    by apply (Hno Hanchor m Hm).
Qed.
End EdgeSound.

(** X5.  An edge that [g.EdgeBetween(uid, vid)] returns starts at a node
    with one of the two IDs that the search can discover from [g], and ends
    at a direct neighbour of that node whose ID is again one of the two
    (possibly the same one). *)
Theorem EdgeBetween_edge_from_anchor h g uid vid e :
  EdgeBetween h g uid vid = Ret (Some e) ->
  exists a ga, discoverable h uid vid g a /\ h !! a = Some ga /\
    anchor uid vid ga /\ F e = NGraphNode a /\ T e ∈ Neighbors ga /\
    scan_hit h uid vid (T e).
Proof. apply EdgeBetween_sound. Qed.

(** X6.  On a heap without dangling neighbours in which IDs identify nodes,
    [g.EdgeBetween(uid, vid)] returns nil exactly when no node that the
    search can discover from [g] has one of the two IDs and a direct
    neighbour with one of the two IDs. *)
Theorem EdgeBetween_nil_iff h g uid vid :
  closed h -> unique_ids h -> is_Some (h !! g) ->
  (EdgeBetween h g uid vid = Ret None <->
   ~ exists a ga m, discoverable h uid vid g a /\ h !! a = Some ga /\
       anchor uid vid ga /\ m ∈ Neighbors ga /\ scan_hit h uid vid m).
Proof.
  intros Hc Hu Hg. split.
  - intros Hnone (a & ga & m & Hd & Ha & Hanchor & Hm & Hhit).
    destruct (EdgeBetween_hit h uid vid Hc Hu g a ga m) as [e He]; [done..|].
    congruence.
  - intros Hno.
    destruct (EdgeBetween_returns h Hc g uid vid Hg) as [[e|] He]; [|done].
    destruct Hno.
    destruct (EdgeBetween_sound h uid vid g e He)
      as (a & ga & Hd & Ha & Hanchor & _ & HT & Hhit).
    by exists a, ga, (T e).
Qed.

(** *** [nodes] and [Nodes]: what the enumeration lists *)

Lemma unique_ids_nodes h n m :
  unique_ids h -> n ∈ all_nodes h -> m ∈ all_nodes h ->
  node_id h n = node_id h m -> n = m.
Proof.
  intros Hu Hn Hm. unfold unique_ids in Hu. rewrite Forall_forall in Hu.
  specialize (Hu n Hn). rewrite Forall_forall in Hu. by apply Hu.
Qed.

Lemma neighbours_listed_mono h seen seen' add add' g :
  seen ⊆ seen' -> add ⊆ add' ->
  neighbours_listed h seen add g -> neighbours_listed h seen' add' g.
Proof.
  intros Hs Ha Hl n Hn. destruct (Hl n Hn) as (i & Hi & [Hin|Hin]);
    exists i; (split; [done|]); [left; set_solver|right; set_solver].
Qed.

Section NodesSpec.
Context (h : heap).

(** What a call of [nodes] at [q] appended: nodes below [q], among them all
    unmarked neighbours of [q] and of every [GraphNode] it appended. *)
Local Abbreviation appended := (fun (seen : gset Z) (q : ptr)
                                    (add : list graph_Node) =>
  (forall x, x ∈ add -> below h q x) /\
  (forall gq, h !! q = Some gq -> neighbours_listed h seen add gq) /\
  (forall q' gq', NGraphNode q' ∈ add -> h !! q' = Some gq' ->
     neighbours_listed h seen add gq')).

Lemma nodes_loop_spec seen rec ns dst dst' :
  (forall q d d', rec q d = Ret d' ->
     exists add, d' = d ++ add /\ appended seen q add) ->
  nodes_loop h seen rec ns dst = Ret dst' ->
  exists add, dst' = dst ++ add /\
    (forall n, n ∈ ns ->
       exists i, node_id h n = Some i /\ (i ∈ seen \/ n ∈ add)) /\
    (forall x, x ∈ add ->
       x ∈ ns \/ exists q, NGraphNode q ∈ ns /\ below h q x) /\
    (forall q' gq', NGraphNode q' ∈ add -> h !! q' = Some gq' ->
       neighbours_listed h seen add gq').
Proof.
  intros Hrec. revert dst. induction ns as [|n ns IH]; intros dst; simpl.
  { intros [= <-]. exists []. rewrite app_nil_r. split_and!; [done|..].
    - intros n Hn. by apply elem_of_nil in Hn.
    - intros x Hx. by apply elem_of_nil in Hx.
    - intros q' gq' Hq'. by apply elem_of_nil in Hq'. }
  destruct (ID h n) as [i| |] eqn:Hi; simpl; [|done..].
  apply ID_Ret in Hi.
  destruct (decide (i ∈ seen)) as [Hin|Hout].
  { intros Hl. destruct (IH dst Hl) as (add & -> & Hall & Hsound & Hcl).
    exists add. split_and!; [done| |by intros x Hx; destruct (Hsound x Hx) as [?|(q & ? & ?)]; [left; by right|right; exists q; split; [by right|done]]|done].
    intros m [->|Hm]%elem_of_cons; [|by apply Hall].
    exists i. split; [done|by left]. }
  destruct n as [q|j].
  - destruct (rec q (dst ++ [NGraphNode q])) as [d1| |] eqn:Hq; simpl;
      [|done..].
    destruct (Hrec _ _ _ Hq) as (add1 & -> & Hb1 & Hq1 & Hcl1).
    intros Hl. destruct (IH _ Hl) as (add2 & -> & Hall & Hsound & Hcl).
    exists ([NGraphNode q] ++ add1 ++ add2).
    split_and!; [by rewrite <- !app_assoc| | |].
    + intros m [->|Hm]%elem_of_cons.
      * exists i. split; [done|]. right. set_solver.
      * destruct (Hall m Hm) as (i' & Hi' & [?|?]); exists i';
          (split; [done|]); [by left|right; set_solver].
    + intros x [->%list_elem_of_singleton|[Hx|Hx]%elem_of_app]%elem_of_app.
      * left. by left.
      * right. exists q. split; [by left|by apply Hb1].
      * destruct (Hsound x Hx) as [?|(q' & ? & ?)]; [left; by right|].
        right. exists q'. split; [by right|done].
    + intros q' gq' [[= ->]%list_elem_of_singleton|[Hx|Hx]%elem_of_app]%elem_of_app Hq'.
      * eapply neighbours_listed_mono; [done| |by apply Hq1]. set_solver.
      * eapply neighbours_listed_mono; [done| |by eapply Hcl1]. set_solver.
      * eapply neighbours_listed_mono; [done| |by eapply Hcl]. set_solver.
  - intros Hl. destruct (IH _ Hl) as (add2 & -> & Hall & Hsound & Hcl).
    exists ([NOther j] ++ add2). split_and!; [by rewrite <- !app_assoc| | |].
    + intros m [->|Hm]%elem_of_cons.
      * exists i. split; [done|]. right. set_solver.
      * destruct (Hall m Hm) as (i' & Hi' & [?|?]); exists i';
          (split; [done|]); [by left|right; set_solver].
    + intros x [->%list_elem_of_singleton|Hx]%elem_of_app.
      * left. by left.
      * destruct (Hsound x Hx) as [?|(q' & ? & ?)]; [left; by right|].
        right. exists q'. split; [by right|done].
    + intros q' gq' [[=]%list_elem_of_singleton|Hx]%elem_of_app Hq'.
      eapply neighbours_listed_mono; [done| |by eapply Hcl]. set_solver.
Qed.

Lemma nodes_spec fuel q dst seen dst' :
  nodes fuel h q dst seen = Ret dst' ->
  exists add, dst' = dst ++ add /\ appended seen q add.
Proof.
  revert q dst dst'.
  induction fuel as [|fuel IH]; intros q dst dst'; simpl; [done|].
  destruct (deref h q) as [gq| |] eqn:Hq; simpl; [|done..].
  apply deref_Ret in Hq. intros Hl.
  destruct (nodes_loop_spec seen _ _ _ _ (fun q' d d' => IH q' d d') Hl)
    as (add & -> & Hall & Hsound & Hcl).
  exists add. split; [done|]. split_and!; [|by intros gq' [= <-]%(eq_trans (eq_sym Hq))|done].
  intros x Hx. destruct (Hsound x Hx) as [Hn|(q' & Hq' & Hb)].
  - by eapply below_neighbor.
  - by eapply below_step.
Qed.

Lemma Nodes_loop_spec fuel ns acc seen l :
  Nodes_loop fuel h ns acc seen = Ret l ->
  exists add seen', l = acc ++ add /\ seen ⊆ seen' /\
    (forall n, n ∈ ns -> n ∈ add) /\
    (forall i, i ∈ seen' ->
       i ∈ seen \/ exists n, n ∈ ns /\ node_id h n = Some i) /\
    (forall x, x ∈ add ->
       x ∈ ns \/ exists q, NGraphNode q ∈ ns /\ below h q x) /\
    (forall q' gq', NGraphNode q' ∈ add -> h !! q' = Some gq' ->
       neighbours_listed h seen' add gq').
Proof.
  revert acc seen. induction ns as [|n ns IH]; intros acc seen; simpl.
  { intros [= <-]. exists [], seen. rewrite app_nil_r.
    split_and!; [done..| | | |].
    - intros n Hn. by apply elem_of_nil in Hn.
    - intros i Hi. by left.
    - intros x Hx. by apply elem_of_nil in Hx.
    - intros q' gq' Hq'. by apply elem_of_nil in Hq'. }
  destruct (ID h n) as [i| |] eqn:Hi; simpl; [|done..].
  apply ID_Ret in Hi.
  assert (Hseen : forall (seen' : gset Z) j,
            (j ∈ seen' -> j ∈ {[i]} ∪ seen \/
               exists m, m ∈ ns /\ node_id h m = Some j) ->
            j ∈ seen' ->
            j ∈ seen \/ exists m, m ∈ n :: ns /\ node_id h m = Some j).
  { intros seen' j Hj Hin.
    destruct (Hj Hin) as [[->%elem_of_singleton|?]%elem_of_union|(m & ? & ?)].
    - right. exists n. split; [by left|done].
    - by left.
    - right. exists m. split; [by right|done]. }
  destruct n as [q|j].
  - destruct (nodes fuel h q (acc ++ [NGraphNode q]) ({[i]} ∪ seen))
      as [d1| |] eqn:Hq; simpl; [|done..].
    destruct (nodes_spec _ _ _ _ _ Hq) as (add1 & -> & Hb1 & Hq1 & Hcl1).
    intros Hl.
    destruct (IH _ _ Hl) as (add2 & seen' & -> & Hsub & Hall & Hids & Hsound & Hcl).
    exists ([NGraphNode q] ++ add1 ++ add2), seen'.
    split_and!; [by rewrite <- !app_assoc|set_solver| | | |].
    + intros m [->|Hm]%elem_of_cons; [set_solver|].
      specialize (Hall m Hm). set_solver.
    + intros j' Hj'. by apply (Hseen seen' j' (Hids j')).
    + intros x [->%list_elem_of_singleton|[Hx|Hx]%elem_of_app]%elem_of_app.
      * left. by left.
      * right. exists q. split; [by left|by apply Hb1].
      * destruct (Hsound x Hx) as [?|(q' & ? & ?)]; [left; by right|].
        right. exists q'. split; [by right|done].
    + intros q' gq' [[= ->]%list_elem_of_singleton|[Hx|Hx]%elem_of_app]%elem_of_app Hq'.
      * apply (neighbours_listed_mono h ({[i]} ∪ seen) seen' add1 _ gq');
          [done|set_solver|by apply Hq1].
      * apply (neighbours_listed_mono h ({[i]} ∪ seen) seen' add1 _ gq');
          [done|set_solver|by eapply Hcl1].
      * apply (neighbours_listed_mono h seen' seen' add2 _ gq');
          [done|set_solver|by eapply Hcl].
  - intros Hl.
    destruct (IH _ _ Hl) as (add2 & seen' & -> & Hsub & Hall & Hids & Hsound & Hcl).
    exists ([NOther j] ++ add2), seen'.
    split_and!; [by rewrite <- !app_assoc|set_solver| | | |].
    + intros m [->|Hm]%elem_of_cons; [set_solver|].
      specialize (Hall m Hm). set_solver.
    + intros j' Hj'. by apply (Hseen seen' j' (Hids j')).
    + intros x [->%list_elem_of_singleton|Hx]%elem_of_app.
      * left. by left.
      * destruct (Hsound x Hx) as [?|(q' & ? & ?)]; [left; by right|].
        right. exists q'. split; [by right|done].
    + intros q' gq' [[=]%list_elem_of_singleton|Hx]%elem_of_app Hq'.
      apply (neighbours_listed_mono h seen' seen' add2 _ gq');
        [done|set_solver|by eapply Hcl].
Qed.

Lemma Nodes_sound_complete fuel g gn l :
  h !! g = Some gn -> Nodes_fuel fuel h g = Ret l ->
  (exists l', l = NGraphNode g :: l') /\
  (forall x, x ∈ l -> reaches h g x) /\
  (unique_ids h -> forall x, reaches h g x -> x ∈ l).
Proof.
  intros Hg. unfold Nodes_fuel. rewrite (deref_Some _ _ _ Hg). simpl.
  intros Hl.
  destruct (Nodes_loop_spec _ _ _ _ _ Hl)
    as (add & seen' & -> & Hsub & Hall & Hids & Hsound & Hcl).
  split_and!; [by eexists| |].
  - intros x [->|Hx]%elem_of_cons; [by left|]. right.
    destruct (Hsound x Hx) as [Hn|(q & Hq & Hb)].
    + by eapply below_neighbor.
    + by eapply below_step.
  - intros Hu.
    assert (Hmarked : forall p gp n i, h !! p = Some gp -> n ∈ Neighbors gp ->
              node_id h n = Some i -> i ∈ seen' ->
              n ∈ NGraphNode g :: add).
    { intros p gp n i Hp Hn Hi Hin.
      destruct (Hids i Hin) as [->%elem_of_singleton|(d & Hd & Hdi)].
      - assert (n = NGraphNode g) as ->; [|by left].
        by eapply (unique_ids_neighbor h p gp n g gn).
      - right. assert (n = d) as ->; [|by apply Hall].
        apply (unique_ids_nodes h n d Hu);
          [by apply (all_nodes_neighbor h p gp)
          |by apply (all_nodes_neighbor h g gn)|].
        by rewrite Hi, Hdi. }
    assert (Hstep : forall q gq n, NGraphNode q ∈ NGraphNode g :: add ->
              h !! q = Some gq -> n ∈ Neighbors gq ->
              n ∈ NGraphNode g :: add).
    { intros q gq n [[= ->]|Hq]%elem_of_cons Hgq Hn.
      - pose proof (eq_trans (eq_sym Hg) Hgq) as Hgg. injection Hgg as <-.
        right. by apply Hall.
      - destruct (Hcl q gq Hq Hgq n Hn) as (i & Hi & [Hin|Hin]);
          [by eapply Hmarked|by right]. }
    assert (Hreachable : forall p r, reachable h p r ->
              NGraphNode p ∈ NGraphNode g :: add ->
              NGraphNode r ∈ NGraphNode g :: add).
    { induction 1 as [p|p q r gp Hp Hq _ IH]; [done|].
      intros Hin. apply IH. by eapply Hstep. }
    intros x [->|(q & gq & Hr & Hq & Hn)]; [by left|].
    apply (Hstep q gq x); [|done..]. apply (Hreachable g q Hr). by left.
Qed.
End NodesSpec.

(** X7.  Whenever [g.Nodes()] returns, the list starts with the root and
    every node in it is the root or reachable from it; if IDs identify nodes,
    every such node is in the list (possibly more than once). *)
Theorem Nodes_lists_reachable fuel h g gn l :
  h !! g = Some gn -> Nodes_fuel fuel h g = Ret l ->
  (exists l', l = NGraphNode g :: l') /\
  (forall x, x ∈ l -> reaches h g x) /\
  (unique_ids h -> forall x, reaches h g x -> x ∈ l).
Proof. apply Nodes_sound_complete. Qed.

(** *** [Nodes] on structures without cycles *)

Section NodesRanked.
Context (h : heap) (rank : ptr -> nat).
Context (Hclosed : closed h) (Hranked : ranked h rank).

Lemma nodes_loop_returns_ranked seen rec fuel q gq ns dst :
  (forall q' gq' d, h !! q' = Some gq' -> rank q' < fuel ->
     returns (rec q' d)) ->
  h !! q = Some gq -> ns ⊆ Neighbors gq -> rank q <= fuel ->
  returns (nodes_loop h seen rec ns dst).
Proof.
  intros Hrec Hq. revert dst.
  induction ns as [|n ns IH]; intros dst Hns Hfuel; simpl; [by eexists|].
  destruct (loop_head h Hclosed _ _ _ _ seen Hq Hns) as (Hns' & i & Hi & _).
  assert (Hn : n ∈ Neighbors gq) by (apply Hns; left).
  rewrite (ID_node_id _ _ _ Hi). simpl.
  destruct (decide (i ∈ seen)) as [Hin|Hout]; [by apply IH|].
  destruct n as [q'|j]; [|by apply IH].
  destruct (node_id_is_Some h _ _ Hi) as [gq' Hq'].
  destruct (Hrec q' gq' (dst ++ [NGraphNode q']) Hq') as [d ->].
  { pose proof (Hranked q gq q' Hq Hn). lia. }
  simpl. by apply IH.
Qed.

Lemma nodes_returns_ranked fuel q gq dst seen :
  h !! q = Some gq -> rank q < fuel -> returns (nodes fuel h q dst seen).
Proof.
  revert q gq dst. induction fuel as [|fuel IH]; intros q gq dst Hq Hfuel;
    [lia|].
  simpl. rewrite (deref_Some _ _ _ Hq). simpl.
  eapply nodes_loop_returns_ranked; eauto. lia.
Qed.

Lemma Nodes_returns_ranked fuel g :
  is_Some (h !! g) -> rank g <= fuel -> returns (Nodes_fuel fuel h g).
Proof.
  intros [gn Hg] Hfuel. unfold Nodes_fuel.
  rewrite (deref_Some _ _ _ Hg). simpl.
  assert (Hns : Neighbors gn ⊆ Neighbors gn) by done. revert Hns.
  generalize ({[id gn]} : gset Z). generalize [NGraphNode g].
  generalize (Neighbors gn) at 1 3.
  induction l as [|n ns IH]; intros acc seen Hns; simpl; [by eexists|].
  destruct (loop_head h Hclosed _ _ _ _ seen Hg Hns) as (Hns' & i & Hi & _).
  assert (Hn : n ∈ Neighbors gn) by (apply Hns; left).
  rewrite (ID_node_id _ _ _ Hi). simpl.
  destruct n as [q|j]; [|by apply IH].
  destruct (node_id_is_Some h _ _ Hi) as [gq Hq].
  destruct (nodes_returns_ranked fuel q gq (acc ++ [NGraphNode q])
              ({[i]} ∪ seen) Hq) as [d ->].
  { pose proof (Hranked g gn q Hg Hn). lia. }
  simpl. by apply IH.
Qed.
End NodesRanked.

(** X8.  On a heap without dangling neighbours and without cycles (neighbour
    links strictly decrease a rank) in which IDs identify nodes, [g.Nodes()]
    returns, with a recursion depth of at most the rank of the root, and the
    list holds exactly the root and the nodes reachable from it. *)
Theorem Nodes_returns_acyclic h rank fuel g :
  closed h -> unique_ids h -> ranked h rank ->
  is_Some (h !! g) -> rank g <= fuel ->
  exists l, Nodes_fuel fuel h g = Ret l /\
    forall x, x ∈ l <-> reaches h g x.
Proof.
  intros Hc Hu Hr Hg Hfuel.
  destruct (Nodes_returns_ranked h rank Hc Hr fuel g Hg Hfuel) as [l Hl].
  exists l. split; [done|]. destruct Hg as [gn Hg].
  destruct (Nodes_sound_complete h fuel g gn l Hg Hl) as (_ & Hs & Hcpl).
  intros x. split; [apply Hs|by apply Hcpl].
Qed.

(** *** Termination *)

(** X9.  On a heap without dangling neighbours the searches that mark what
    they visit return from every allocated root: [Node], [From],
    [EdgeBetween] and [HasEdgeBetween] neither recurse without bound nor
    panic, cycles or not. *)
Theorem marking_searches_return h g target uid vid :
  closed h -> is_Some (h !! g) ->
  returns (Node h g target) /\ returns (From h g target) /\
  returns (EdgeBetween h g uid vid) /\ returns (HasEdgeBetween h g uid vid).
Proof.
  intros Hc Hg. split_and!.
  - by apply Node_returns.
  - by apply From_returns.
  - by apply EdgeBetween_returns.
  - unfold HasEdgeBetween, HasEdgeBetween_fuel.
    destruct (EdgeBetween_returns h Hc g uid vid Hg) as [e He].
    unfold EdgeBetween in He. rewrite He. by eexists.
Qed.

(** *** Building the structure *)

Lemma closed_alt h :
  closed h <->
  forall p g n, h !! p = Some g -> n ∈ Neighbors g -> is_Some (node_id h n).
Proof.
  split; [intros Hc p g n; by apply closed_neighbor|].
  intros Hall. unfold closed. apply Forall_forall. intros g Hg.
  apply list_elem_of_lookup in Hg as [p Hp].
  apply Forall_forall. intros n Hn. by eapply Hall.
Qed.

Lemma node_id_insert h g gn gn' n :
  h !! g = Some gn -> id gn' = id gn ->
  node_id (<[g := gn']> h) n = node_id h n.
Proof.
  intros Hg Hid. destruct n as [p|j]; [|done]. unfold node_id, ptr in *.
  destruct (decide (p = g)) as [->|Hne].
  - assert (<[g := gn']> h !! g = Some gn') as ->
      by (apply list_lookup_insert_eq; by eapply lookup_lt_Some).
    rewrite Hg. simpl. by rewrite Hid.
  - by assert (<[g := gn']> h !! p = h !! p) as ->
      by (by apply list_lookup_insert_ne).
Qed.

Lemma edge_scan_last h uid vid p ns m :
  Forall (fun n => is_Some (node_id h n)) ns ->
  node_id h m = Some vid ->
  exists e, edge_scan h uid vid p (ns ++ [m]) = Ret (Some e).
Proof.
  intros Hns Hm. induction Hns as [|n ns [i Hi] _ IH]; simpl.
  - rewrite (ID_node_id _ _ _ Hm). simpl.
    rewrite (bool_decide_eq_true_2 (vid = vid)) by done.
    rewrite orb_true_r. by eexists.
  - rewrite (ID_node_id _ _ _ Hi). simpl.
    destruct (_ || _); [by eexists|done].
Qed.

(** X10.  After [g.AddNeighbor(n)] on a heap without dangling neighbours,
    with [g] and [n] allocated: the heap still has no dangling neighbour,
    every other node is as it was, [g.From(g.id)] lists the old neighbours
    followed by [n], and [g.HasEdgeBetween(g.id, n.id)] holds. *)
Theorem AddNeighbor_then_query h g n gn nn :
  closed h -> h !! g = Some gn -> h !! n = Some nn ->
  exists h', AddNeighbor h g n = Ret h' /\ closed h' /\
    (forall p, p <> g -> h' !! p = h !! p) /\
    From h' g (id gn) = Ret (Some (Neighbors gn ++ [NGraphNode n])) /\
    HasEdgeBetween h' g (id gn) (id nn) = Ret true.
Proof.
  intros Hc Hg Hn. unfold ptr in *.
  set (gn' := mkGraphNode (id gn) (append (Neighbors_slice gn) (NGraphNode n))).
  assert (Hnb : Neighbors gn' = Neighbors gn ++ [NGraphNode n]) by done.
  exists (<[g := gn']> h).
  assert (Hg' : <[g := gn']> h !! g = Some gn').
  { apply list_lookup_insert_eq. by eapply lookup_lt_Some. }
  assert (Hid : forall m, node_id (<[g := gn']> h) m = node_id h m).
  { intros m. by eapply node_id_insert. }
  assert (Hnew : forall m, m ∈ Neighbors gn' -> is_Some (node_id h m)).
  { intros m [Hm|Hm%list_elem_of_singleton]%elem_of_app.
    - by apply (closed_neighbor h g gn).
    - subst m. rewrite (node_id_GraphNode _ _ _ Hn). by eexists. }
  split_and!.
  - unfold AddNeighbor. by rewrite (deref_Some _ _ _ Hg).
  - apply closed_alt. intros p gp m Hp Hm. rewrite Hid.
    destruct (decide (p = g)) as [->|Hne].
    + rewrite Hg' in Hp. injection Hp as <-. by apply Hnew.
    + assert (<[g := gn']> h !! p = h !! p) as Heq
        by (by apply list_lookup_insert_ne).
      rewrite Heq in Hp. by apply (closed_neighbor h p gp).
  - intros p Hne. by apply list_lookup_insert_ne.
  - unfold From, From_fuel. rewrite (deref_Some _ _ _ Hg'). simpl.
    by destruct (decide (id gn = id gn)).
  - unfold HasEdgeBetween, HasEdgeBetween_fuel, EdgeBetween_fuel.
    rewrite (deref_Some _ _ _ Hg'). simpl.
    rewrite (bool_decide_eq_true_2 (id gn = id gn)) by done. simpl.
    rewrite Hnb.
    destruct (edge_scan_last (<[g := gn']> h) (id gn) (id nn) g
                (Neighbors gn) (NGraphNode n)) as [e ->]; [| |done].
    + apply Forall_forall. intros m Hm. rewrite Hid.
      by apply (closed_neighbor h g gn).
    + rewrite Hid. apply (node_id_GraphNode _ _ _ Hn).
Qed.

(** *** Instances on the fixtures *)

Ltac decide_holds := apply (bool_decide_unpack _); vm_compute; exact I.

Ltac in_list := apply list_elem_of_In; simpl; tauto.

Lemma Node_nil_iff_unreachable_witness :
  (Node cycle3 0%nat 2 = Ret None <->
   ~ exists n, reaches cycle3 0%nat n /\ node_id cycle3 n = Some 2%Z) /\
  ((exists x, Node cycle3 0%nat 2 = Ret (Some x)) <->
   exists n, reaches cycle3 0%nat n /\ node_id cycle3 n = Some 2%Z).
Proof.
  apply (Node_nil_iff_unreachable cycle3 0%nat 2);
    [decide_holds|decide_holds|by eexists].
Defined.

Lemma Node_returns_root_or_neighbor_witness :
  (NGraphNode 1%nat = NGraphNode 0%nat \/
   NGraphNode 1%nat ∈ Neighbors (gnode 0 [1%nat])) /\
  exists n, at_or_below cycle3 (NGraphNode 1%nat) n /\
    node_id cycle3 n = Some 2%Z.
Proof.
  apply (Node_returns_root_or_neighbor cycle3 0%nat (gnode 0 [1%nat]) 2
           (NGraphNode 1%nat)); [reflexivity|vm_compute; reflexivity].
Defined.

Lemma From_lists_neighbors_witness :
  From lasso 0%nat 2 = Ret (Some [NGraphNode 3%nat]).
Proof.
  apply (From_lists_neighbors lasso 0%nat 2%nat (gnode 2 [3%nat]));
    [decide_holds|decide_holds| |reflexivity|right; discriminate].
  do 2 (eapply reachable_step; [reflexivity|in_list|]).
  apply reachable_here.
Defined.

Lemma From_nil_iff_witness :
  (From empty_slice 0%nat 1 = Ret None <->
   ~ exists q gq, reachable empty_slice 0%nat q /\
       empty_slice !! q = Some gq /\ id gq = 1%Z /\
       (q = 0%nat \/ is_nil (Neighbors_slice gq) = false)) /\
  (forall q gq, reachable empty_slice 0%nat q ->
     empty_slice !! q = Some gq -> id gq = 1%Z ->
     q = 0%nat \/ is_nil (Neighbors_slice gq) = false ->
     From empty_slice 0%nat 1 = Ret (Some (Neighbors gq))).
Proof.
  apply (From_nil_iff empty_slice 0%nat 1);
    [decide_holds|decide_holds|by eexists].
Defined.

(** The two kinds of node without neighbours: in [chain3] the last node has
    the nil slice of [NewGraphNode] and [From] reports nil for it; in
    [empty_slice] the slice is allocated and [From] returns an iterator that
    yields nothing. *)
Example From_nil_slice_and_empty_slice :
  From chain3 0%nat 2 = Ret None /\ From empty_slice 0%nat 1 = Ret (Some []).
Proof. split; vm_compute; reflexivity. Qed.

Lemma EdgeBetween_edge_from_anchor_witness :
  exists a ga, discoverable chain3 2 1 0%nat a /\ chain3 !! a = Some ga /\
    anchor 2 1 ga /\ NGraphNode 1%nat = NGraphNode a /\
    NGraphNode 2%nat ∈ Neighbors ga /\
    scan_hit chain3 2 1 (NGraphNode 2%nat).
Proof.
  apply (EdgeBetween_edge_from_anchor chain3 0%nat 2 1
           (mkEdge (NGraphNode 1%nat) (NGraphNode 2%nat))).
  vm_compute. reflexivity.
Defined.

Lemma EdgeBetween_nil_iff_witness :
  EdgeBetween loop_back 0%nat 3 1 = Ret None <->
  ~ exists a ga m, discoverable loop_back 3 1 0%nat a /\
      loop_back !! a = Some ga /\ anchor 3 1 ga /\ m ∈ Neighbors ga /\
      scan_hit loop_back 3 1 m.
Proof.
  apply (EdgeBetween_nil_iff loop_back 0%nat 3 1);
    [decide_holds|decide_holds|by eexists].
Defined.

Lemma Nodes_lists_reachable_witness :
  (exists l', [NGraphNode 0%nat; NGraphNode 1%nat; NGraphNode 2%nat]
              = NGraphNode 0%nat :: l') /\
  (forall x, x ∈ [NGraphNode 0%nat; NGraphNode 1%nat; NGraphNode 2%nat] ->
     reaches cycle3 0%nat x) /\
  (unique_ids cycle3 -> forall x, reaches cycle3 0%nat x ->
     x ∈ [NGraphNode 0%nat; NGraphNode 1%nat; NGraphNode 2%nat]).
Proof.
  apply (Nodes_lists_reachable 2 cycle3 0%nat (gnode 0 [1%nat]));
    [reflexivity|vm_compute; reflexivity].
Defined.

Lemma diamond_ranked : ranked diamond (fun p => 3 - p).
Proof.
  intros p g q Hp Hq.
  destruct p as [|[|[|[|p]]]]; simpl in Hp; [| | | |done];
    injection Hp as <-; apply list_elem_of_In in Hq; simpl in Hq;
    intuition; simplify_eq; simpl; lia.
Defined.

Lemma Nodes_returns_acyclic_witness :
  exists l, Nodes_fuel 3 diamond 0%nat = Ret l /\
    forall x, x ∈ l <-> reaches diamond 0%nat x.
Proof.
  apply (Nodes_returns_acyclic diamond (fun p => 3 - p) 3 0%nat);
    [decide_holds|decide_holds|exact diamond_ranked|by eexists|simpl; lia].
Defined.

Lemma marking_searches_return_witness :
  returns (Node lasso 0%nat 3) /\ returns (From lasso 0%nat 3) /\
  returns (EdgeBetween lasso 0%nat 3 2) /\
  returns (HasEdgeBetween lasso 0%nat 3 2).
Proof.
  apply (marking_searches_return lasso 0%nat 3 3 2);
    [decide_holds|by eexists].
Defined.

Lemma AddNeighbor_then_query_witness :
  exists h', AddNeighbor chain3 2%nat 0%nat = Ret h' /\ closed h' /\
    (forall p, p <> 2%nat -> h' !! p = chain3 !! p) /\
    From h' 2%nat 2 = Ret (Some [NGraphNode 0%nat]) /\
    HasEdgeBetween h' 2%nat 2 0 = Ret true.
Proof.
  apply (AddNeighbor_then_query chain3 2%nat 0%nat (gnode 2 [])
           (gnode 0 [1%nat])); [decide_holds|reflexivity|reflexivity].
Defined.

End SearchFacts.


(** * What the build pipeline computes *)

Module BuildExtra.
Import Build SemverFixture BuildFixtures BuildFacts IndexFacts.
Local Open Scope string_scope.

(** *** [CreateMap] *)

(** X11.  [CreateMap] numbers the (package, version) pairs from 0 in the
    order it visits them: with N pairs (at most 2^63, so that the [int64]
    counter does not wrap) the map has N entries, the entry of ID k is the
    k-th pair, and no other ID is a key. *)
Theorem CreateMap_numbers_pairs packagesInfo :
  (Z.of_nat (length (all_pairs packagesInfo)) <= 2 ^ 63)%Z ->
  size (CreateMap packagesInfo) = length (all_pairs packagesInfo) /\
  forall k : Z,
    CreateMap packagesInfo !! k
    = if decide (0 <= k < Z.of_nat (length (all_pairs packagesInfo)))%Z
      then all_pairs packagesInfo !! Z.to_nat k
      else None.
Proof.
  intros Hlen. split; [by apply CreateMap_size|]. intros k.
  destruct (decide _) as [Hk|Hk].
  - destruct (lookup_lt_is_Some_2 (all_pairs packagesInfo) (Z.to_nat k))
      as [x Hx]; [lia|].
    rewrite Hx. rewrite <- (Z2Nat.id k) at 1 by lia.
    by apply CreateMap_lookup.
  - destruct (CreateMap packagesInfo !! k) as [x|] eqn:Hx; [|done].
    destruct (CreateMap_lookup_inv _ Hlen _ _ Hx) as (i & -> & Hi).
    apply lookup_lt_Some in Hi. lia.
Qed.

Lemma CreateMap_numbers_pairs_witness :
  size (CreateMap index_is_not_id) = length (all_pairs index_is_not_id) /\
  forall k : Z,
    CreateMap index_is_not_id !! k
    = if decide (0 <= k < Z.of_nat (length (all_pairs index_is_not_id)))%Z
      then all_pairs index_is_not_id !! Z.to_nat k
      else None.
Proof.
  apply (CreateMap_numbers_pairs index_is_not_id). vm_compute. discriminate.
Defined.

(** *** [CreateNameToVersionMap] *)

Lemma versions_fold_lookup nm name (l : list (string * VersionInfo))
  (acc : gmap string (list string)) :
  foldl (fun (newMap : gmap string (list string)) '(k, _) =>
           <[nm := (default [] (newMap !! nm) ++ [k])%list]> newMap) acc l
    !! name
  = if decide (nm = name)
    then match l.*1 with
         | [] => acc !! name
         | ks => Some (default [] (acc !! name) ++ ks)%list
         end
    else acc !! name.
Proof.
  revert acc. induction l as [|[k vi] l IH]; intros acc; simpl.
  { by destruct (decide _). }
  rewrite IH. destruct (decide (nm = name)) as [->|Hne].
  - rewrite lookup_insert_eq. simpl.
    change (list_fmap (string * VersionInfo)%type string fst l) with (l.*1).
    destruct (l.*1) as [|k' ks]; [done|]. by rewrite <- app_assoc.
  - by rewrite lookup_insert_ne.
Qed.

Lemma CreateNameToVersionMap_fold name packagesInfo
  (acc : gmap string (list string)) :
  foldl (fun (newMap : gmap string (list string)) value =>
           let name := Name value in
           foldl (fun (newMap : gmap string (list string)) '(k, _) =>
                    <[name := (default [] (newMap !! name) ++ [k])%list]>
                      newMap)
             newMap (Versions value))
    acc packagesInfo !! name
  = match versions_of name packagesInfo with
    | [] => acc !! name
    | vs => Some (default [] (acc !! name) ++ vs)%list
    end.
Proof.
  revert acc. induction packagesInfo as [|p ps IH]; intros acc; [done|].
  cbn [foldl versions_of flat_map]. rewrite IH.
  fold (versions_of name ps). cbv zeta. rewrite versions_fold_lookup.
  destruct (decide (Name p = name)) as [Heq|Hne]; [|done].
  destruct ((Versions p).*1) as [|k ks]; [done|]. simpl.
  destruct (versions_of name ps) as [|v vs]; [by rewrite app_nil_r|].
  by rewrite <- app_assoc.
Qed.

(** X12.  [CreateNameToVersionMap] files under a name the version strings
    of all packages of that name, in input order (a name that occurs twice in
    the package list gets the versions of both entries, repetitions
    included); a name without any version is not a key. *)
Theorem CreateNameToVersionMap_lookup name packagesInfo :
  CreateNameToVersionMap packagesInfo !! name
  = match versions_of name packagesInfo with
    | [] => None
    | vs => Some vs
    end.
Proof.
  unfold CreateNameToVersionMap. rewrite CreateNameToVersionMap_fold.
  by rewrite lookup_empty.
Qed.

(** *** [AddElementToMap] *)

Lemma wrap64_small z : (- 2 ^ 63 <= z < 2 ^ 63)%Z -> wrap64 z = z.
Proof. intros Hz. unfold wrap64. rewrite Z.mod_small; lia. Qed.

Lemma AddElementToMap_fold (l : list PackageInfo) :
  (Z.of_nat (length l) <= 2 ^ 63)%Z ->
  size (foldl (fun m x => AddElementToMap x m) ∅ l) = length l /\
  forall i : nat,
    foldl (fun m x => AddElementToMap x m) ∅ l !! Z.of_nat i = l !! i.
Proof.
  induction l as [|x l IH] using rev_ind; intros Hlen.
  { split; [apply map_size_empty|]. intros i. apply lookup_empty. }
  rewrite length_app in Hlen. simpl in Hlen.
  destruct IH as [Hsize Hget]; [lia|].
  rewrite foldl_app. simpl. unfold AddElementToMap at 1 3.
  rewrite Hsize, wrap64_small by lia.
  assert (Hfresh : foldl (fun m x => AddElementToMap x m) ∅ l
                     !! Z.of_nat (length l) = None).
  { rewrite Hget. by apply lookup_ge_None. }
  split.
  - rewrite map_size_insert_None by done. rewrite Hsize, length_app. simpl. lia.
  - intros i. destruct (decide (i = length l)) as [->|Hne].
    + rewrite lookup_insert_eq. by rewrite list_lookup_middle.
    + rewrite lookup_insert_ne by lia. rewrite Hget.
      destruct (decide (i < length l)%nat) as [Hlt|Hge].
      * by rewrite lookup_app_l.
      * rewrite lookup_ge_None_2 by lia. symmetry. apply lookup_ge_None.
        rewrite length_app. simpl. lia.
Qed.

(** X13.  Filling an empty map with [AddElementToMap], one package after the
    other, numbers the packages by their position: the map has as many
    entries as the list, and the entry of key i is the i-th package (for at
    most 2^63 packages). *)
Theorem AddElementToMap_numbers_by_position (l : list PackageInfo) :
  (Z.of_nat (length l) <= 2 ^ 63)%Z ->
  size (foldl (fun m x => AddElementToMap x m) ∅ l) = length l /\
  forall i : nat,
    foldl (fun m x => AddElementToMap x m) ∅ l !! Z.of_nat i = l !! i.
Proof. apply AddElementToMap_fold. Qed.

Lemma AddElementToMap_numbers_by_position_witness :
  size (foldl (fun m x => AddElementToMap x m) ∅ two_packages)
  = length two_packages /\
  forall i : nat,
    foldl (fun m x => AddElementToMap x m) ∅ two_packages !! Z.of_nat i
    = two_packages !! i.
Proof.
  apply (AddElementToMap_numbers_by_position two_packages).
  vm_compute. discriminate.
Defined.

(** *** [CreateEdges]: when it returns and what it has added *)

Lemma add_edges_nil w : add_edges [] w = w.
Proof.
  destruct w as [[ns es] l n2i n2v]. unfold add_edges. simpl.
  do 2 f_equal. set_solver.
Qed.

Lemma add_edges_app E1 E2 w :
  add_edges E2 (add_edges E1 w) = add_edges (E1 ++ E2) w.
Proof.
  unfold add_edges. simpl. do 2 f_equal. rewrite list_to_set_app_L.
  set_solver.
Qed.

Lemma mseq_Ret {A} (m : M A) (k : A -> M unit) w w' :
  mseq m k w = (Ret tt, w') <->
  exists a w1, m w = (Ret a, w1) /\ k a w1 = (Ret tt, w').
Proof.
  unfold mseq. destruct (m w) as [[a|p|] w1]; split.
  - intros Hk. by exists a, w1.
  - by intros (a' & w1' & [= <- <-] & Hk).
  - done.
  - by intros (a' & w1' & [=] & _).
  - done.
  - by intros (a' & w1' & [=] & _).
Qed.

Lemma resolves_for_range {A} (l : list A) (body : A -> M unit)
  (ok : A -> Prop) (L : A -> world -> list (Z * Z)) :
  (forall x, resolves (body x) (ok x) (L x)) ->
  (forall x E w, L x (add_edges E w) = L x w) ->
  resolves (for_range l body) (forall x, x ∈ l -> ok x)
    (fun w => flat_map (fun x => L x w) l).
Proof.
  intros Hbody Hstable. induction l as [|x l IH]; intros w w'; simpl.
  { unfold mreturn. split.
    - intros [= <-]. split_and!; [|constructor|by rewrite add_edges_nil].
      intros x Hx. by apply elem_of_nil in Hx.
    - intros (_ & _ & ->). by rewrite add_edges_nil. }
  assert (Heq : flat_map (fun y => L y (add_edges (L x w) w)) l
                = flat_map (fun y => L y w) l).
  { apply flat_map_ext. intros y. apply Hstable. }
  rewrite mseq_Ret. split.
  - intros ([] & w1 & (Hok & Hf & ->)%Hbody & (Hoks & Hfs & ->)%IH).
    rewrite Heq in Hfs. rewrite Heq.
    split_and!.
    + intros y [->|Hy]%elem_of_cons; [done|by apply Hoks].
    + apply Forall_app. by split.
    + by rewrite add_edges_app.
  - intros (Hoks & [Hf Hfs]%Forall_app & ->).
    exists tt, (add_edges (L x w) w). split.
    + apply Hbody. split_and!; [|done..]. apply Hoks. by left.
    + apply IH. rewrite Heq.
      split_and!; [|done|by rewrite add_edges_app].
      intros y Hy. apply Hoks. by right.
Qed.

Section Resolution.
Context (ParseRange : string -> string + semver_Range).
Context (Parse : string -> semver_Version * option string).

Lemma set_edge_world w a b :
  a ∈ nodes (graph w) -> b ∈ nodes (graph w) ->
  mkWorld (mkDirectedGraph ({[a; b]} ∪ nodes (graph w))
             ({[(a, b)]} ∪ edges (graph w)))
    (inputList w) (nameToIDMap w) (nameToVersionMap w)
  = add_edges [(a, b)] w.
Proof.
  intros Ha Hb. unfold add_edges. do 2 f_equal; set_solver.
Qed.

Lemma CreateEdges_version_resolves i dep c v :
  resolves (CreateEdges_version Parse i dep c v) True
    (fun w => attempted_version Parse w i dep c v).
Proof.
  intros w w'. unfold CreateEdges_version, attempted_version.
  destruct (c (Parse v).1).
  2:{ unfold mreturn. split.
      - intros [= <-]. split_and!; [done|constructor|by rewrite add_edges_nil].
      - intros (_ & _ & ->). by rewrite add_edges_nil. }
  unfold mseq, read_nameToID, call_Node, call_SetEdge, DirectedGraph_Node,
    SetEdge. cbn [fst snd].
  set (tid := default 0%Z (nameToIDMap w !! Sprintf_dash dep v)).
  destruct (decide (tid ∈ nodes (graph w))) as [Ht|Ht];
    destruct (decide (Z.of_nat i ∈ nodes (graph w))) as [Hi|Hi];
    try destruct (decide (Z.of_nat i = tid)) as [He|He]; cbn [fst snd];
    (split;
     [intros [= <-]
     |intros (_ & [(H1 & H2 & H3) _]%Forall_cons & ->); simpl in *; try done]).
  - split_and!; [done| |by rewrite set_edge_world].
    by repeat constructor.
  - by rewrite set_edge_world.
Qed.

Lemma CreateEdges_dependency_resolves i d :
  resolves (CreateEdges_dependency ParseRange Parse i d)
    (exists c, ParseRange d.2 = inr c)
    (fun w => attempted_dependency ParseRange Parse w i d).
Proof.
  destruct d as [dep range]. intros w w'.
  unfold CreateEdges_dependency, attempted_dependency. cbn [fst snd].
  destruct (ParseRange range) as [err|c].
  { unfold mpanic. split; [done|]. by intros ([c [=]] & _). }
  unfold mseq, read_nameToVersion.
  pose proof (resolves_for_range (default [] (nameToVersionMap w !! dep)) _
                (fun _ => True)
                (fun v w => attempted_version Parse w i dep c v)
                (CreateEdges_version_resolves i dep c)
                (fun _ _ _ => eq_refl) w w') as Hr.
  cbn beta in Hr. split.
  - intros (_ & Hf & ->)%Hr. split_and!; [by eexists|done..].
  - intros (_ & Hf & ->). by apply Hr.
Qed.

Lemma CreateEdges_package_resolves i p :
  resolves
    (for_range (Versions p) (fun '(_, dependencyInfo) =>
       for_range (Dependencies dependencyInfo)
         (CreateEdges_dependency ParseRange Parse i)))
    (forall ver, ver ∈ Versions p ->
       forall d, d ∈ Dependencies ver.2 -> exists c, ParseRange d.2 = inr c)
    (fun w => attempted_package ParseRange Parse w i p).
Proof.
  apply (resolves_for_range (Versions p) _
           (fun ver => forall d, d ∈ Dependencies ver.2 ->
                         exists c, ParseRange d.2 = inr c)
           (fun ver w => flat_map (attempted_dependency ParseRange Parse w i)
                           (Dependencies ver.2))); [|done].
  intros [v vi]. cbn [snd].
  apply (resolves_for_range (Dependencies vi) _
           (fun d => exists c, ParseRange d.2 = inr c)
           (fun d w => attempted_dependency ParseRange Parse w i d));
    [|done].
  apply CreateEdges_dependency_resolves.
Qed.

Lemma CreateEdges_packages_resolves i l :
  resolves
    (for_range_indexed i l (fun id packageInfo =>
       for_range (Versions packageInfo) (fun '(_, dependencyInfo) =>
         for_range (Dependencies dependencyInfo)
           (CreateEdges_dependency ParseRange Parse id))))
    (forall p, p ∈ l -> forall ver, ver ∈ Versions p ->
       forall d, d ∈ Dependencies ver.2 -> exists c, ParseRange d.2 = inr c)
    (fun w => attempted_from ParseRange Parse w i l).
Proof.
  revert i. induction l as [|p l IH]; intros i w w'; simpl.
  { unfold mreturn. split.
    - intros [= <-]. split_and!; [|constructor|by rewrite add_edges_nil].
      intros x Hx. by apply elem_of_nil in Hx.
    - intros (_ & _ & ->). by rewrite add_edges_nil. }
  assert (Heq : forall E, attempted_from ParseRange Parse (add_edges E w) (S i) l
                          = attempted_from ParseRange Parse w (S i) l).
  { intros E. clear. revert i. induction l as [|q l IH]; intros i; [done|].
    simpl. by rewrite IH. }
  rewrite mseq_Ret. split.
  - intros ([] & w1 & (Hok & Hf & ->)%CreateEdges_package_resolves
                     & (Hoks & Hfs & ->)%IH).
    rewrite Heq in Hfs. rewrite Heq.
    split_and!.
    + intros y [->|Hy]%elem_of_cons; [done|by apply Hoks].
    + apply Forall_app. by split.
    + by rewrite add_edges_app.
  - intros (Hoks & [Hf Hfs]%Forall_app & ->).
    exists tt, (add_edges (attempted_package ParseRange Parse w i p) w). split.
    + apply CreateEdges_package_resolves. split_and!; [|done..].
      apply Hoks. by left.
    + apply IH. rewrite Heq. split_and!; [|done|by rewrite add_edges_app].
      intros y Hy. apply Hoks. by right.
Qed.

Lemma ranges_parse_alt l :
  ranges_parse ParseRange l <->
  forall p, p ∈ l -> forall ver, ver ∈ Versions p ->
    forall d, d ∈ Dependencies ver.2 -> exists c, ParseRange d.2 = inr c.
Proof.
  unfold ranges_parse, declares. split.
  - intros H p Hp ver Hver [dep range] Hd. apply (H dep range). eauto.
  - intros H dep range (p & ver & Hp & Hver & Hd).
    apply (H p Hp ver Hver (dep, range) Hd).
Qed.

Lemma CreateEdges_resolves w w' :
  CreateEdges ParseRange Parse w = (Ret tt, w') <->
  ranges_parse ParseRange (inputList w) /\
  Forall (can_set (graph w)) (attempted ParseRange Parse w) /\
  w' = add_edges (attempted ParseRange Parse w) w.
Proof.
  rewrite ranges_parse_alt. unfold CreateEdges, attempted.
  unfold mseq at 1. unfold read_inputList.
  apply CreateEdges_packages_resolves.
Qed.
End Resolution.

(** X14.  [CreateEdges] returns (instead of panicking) exactly when every
    declared range parses and every edge it tries to set joins two different
    nodes that are in the graph; the graph it leaves is then the graph it
    started with plus all these edges, on the same nodes, and the package
    list and the indices are unchanged. *)
Theorem CreateEdges_returns_iff ParseRange Parse (w w' : world) :
  CreateEdges ParseRange Parse w = (Ret tt, w') <->
  ranges_parse ParseRange (inputList w) /\
  Forall (can_set (graph w)) (attempted ParseRange Parse w) /\
  w' = add_edges (attempted ParseRange Parse w) w.
Proof. apply CreateEdges_resolves. Qed.

(** *** [CreateEdges]: what it does to the graph, whatever the outcome *)

Lemma grows_only_refl w : grows_only w w.
Proof. split_and!; [done..|]. intros e He. by left. Qed.

Lemma grows_only_trans w1 w2 w3 :
  grows_only w1 w2 -> grows_only w2 w3 -> grows_only w1 w3.
Proof.
  intros (Hn1 & He1 & Hnew1) (Hn2 & He2 & Hnew2). split_and!.
  - congruence.
  - set_solver.
  - intros e He. destruct (Hnew2 e He) as [Hold|Hcan].
    + by apply Hnew1.
    + right. unfold can_set in *. by rewrite <- Hn1.
Qed.

Section Keeps.
Context (R : world -> world -> Prop).
Context (Rrefl : forall w, R w w).
Context (Rtrans : forall w1 w2 w3, R w1 w2 -> R w2 w3 -> R w1 w3).

Lemma keeps_mseq {A B} (m : M A) (k : A -> M B) :
  (forall w, R w (m w).2) -> (forall a w, R w (k a w).2) ->
  forall w, R w (mseq m k w).2.
Proof.
  intros Hm Hk w. unfold mseq. specialize (Hm w).
  destruct (m w) as [[a| |] w1]; simpl in *; [|done..].
  eapply Rtrans; [done|apply Hk].
Qed.

Lemma keeps_for_range {A} (l : list A) body :
  (forall x w, R w (body x w).2) -> forall w, R w (for_range l body w).2.
Proof.
  intros Hb. induction l as [|x l IH]; simpl; [by intros w; apply Rrefl|].
  apply keeps_mseq; [apply Hb|by intros _].
Qed.

Lemma keeps_for_range_indexed {A} i (l : list A) body :
  (forall j x w, R w (body j x w).2) ->
  forall w, R w (for_range_indexed i l body w).2.
Proof.
  intros Hb. revert i. induction l as [|x l IH]; intros i; simpl;
    [by intros w; apply Rrefl|].
  apply keeps_mseq; [apply Hb|by intros _].
Qed.
End Keeps.

Lemma CreateEdges_version_grows_only Parse i dep c v w :
  grows_only w (CreateEdges_version Parse i dep c v w).2.
Proof.
  unfold CreateEdges_version.
  destruct (c (Parse v).1); [|apply grows_only_refl].
  unfold mseq, read_nameToID, call_Node, call_SetEdge, DirectedGraph_Node,
    SetEdge. cbn [fst snd].
  set (tid := default 0%Z (nameToIDMap w !! Sprintf_dash dep v)).
  destruct (decide (tid ∈ nodes (graph w))) as [Ht|Ht];
    destruct (decide (Z.of_nat i ∈ nodes (graph w))) as [Hi|Hi];
    try destruct (decide (Z.of_nat i = tid)) as [He|He]; cbn [fst snd];
    try apply grows_only_refl.
  split_and!; simpl.
  - set_solver.
  - set_solver.
  - intros e [->%elem_of_singleton|He']%elem_of_union; [by right|by left].
Qed.

Lemma CreateEdges_grows_only ParseRange Parse w :
  grows_only w (CreateEdges ParseRange Parse w).2.
Proof.
  unfold CreateEdges. revert w.
  apply (keeps_mseq _ grows_only_trans); [intros w; apply grows_only_refl|].
  intros l. apply (keeps_for_range_indexed _ grows_only_refl grows_only_trans).
  intros j p. apply (keeps_for_range _ grows_only_refl grows_only_trans).
  intros [ver vi]. apply (keeps_for_range _ grows_only_refl grows_only_trans).
  intros [dep range] w. unfold CreateEdges_dependency.
  destruct (ParseRange range) as [err|c]; [apply grows_only_refl|].
  revert w.
  apply (keeps_mseq _ grows_only_trans); [intros w; apply grows_only_refl|].
  intros versions.
  apply (keeps_for_range _ grows_only_refl grows_only_trans).
  intros v w. apply CreateEdges_version_grows_only.
Qed.

(** X15.  Whether [CreateEdges] returns or panics, it leaves the node set of
    the graph as it was and removes no edge, and every edge it has added
    joins two different nodes of the graph: it creates no node and no self
    edge. *)
Theorem CreateEdges_graph_grows_only ParseRange Parse (w : world) :
  let w' := (CreateEdges ParseRange Parse w).2 in
  nodes (graph w') = nodes (graph w) /\
  edges (graph w) ⊆ edges (graph w') /\
  forall e, e ∈ edges (graph w') ->
    e ∈ edges (graph w) \/
    (e.1 ∈ nodes (graph w) /\ e.2 ∈ nodes (graph w) /\ e.1 <> e.2).
Proof. apply CreateEdges_grows_only. Qed.

(** *** [CreateEdges] in the world built from a package list *)

Lemma elem_of_flat_map {A B} (f : A -> list B) (l : list A) (y : B) :
  y ∈ flat_map f l <-> exists x, x ∈ l /\ y ∈ f x.
Proof.
  rewrite list_elem_of_In, in_flat_map. split; intros (x & Hx & Hy);
    exists x; by rewrite ?list_elem_of_In in *.
Qed.

Section Attempted.
Context (ParseRange : string -> string + semver_Range).
Context (Parse : string -> semver_Version * option string).

Lemma elem_of_attempted_package w i p e :
  e ∈ attempted_package ParseRange Parse w i p <->
  exists ver d c v, ver ∈ Versions p /\ d ∈ Dependencies ver.2 /\
    ParseRange d.2 = inr c /\
    v ∈ default [] (nameToVersionMap w !! d.1) /\ c (Parse v).1 = true /\
    e = (Z.of_nat i, default 0%Z (nameToIDMap w !! Sprintf_dash d.1 v)).
Proof.
  unfold attempted_package. rewrite elem_of_flat_map. split.
  - intros (ver & Hver & (d & Hd & He)%elem_of_flat_map).
    unfold attempted_dependency in He.
    destruct (ParseRange d.2) as [err|c] eqn:Hc;
      [by apply elem_of_nil in He|].
    apply elem_of_flat_map in He as (v & Hv & He).
    unfold attempted_version in He.
    destruct (c (Parse v).1) eqn:Hm; [|by apply elem_of_nil in He].
    apply list_elem_of_singleton in He. by exists ver, d, c, v.
  - intros (ver & d & c & v & Hver & Hd & Hc & Hv & Hm & ->).
    exists ver. split; [done|]. apply elem_of_flat_map. exists d.
    split; [done|]. unfold attempted_dependency. rewrite Hc.
    apply elem_of_flat_map. exists v. split; [done|].
    unfold attempted_version. rewrite Hm. by left.
Qed.

Lemma elem_of_attempted_from w i0 l e :
  e ∈ attempted_from ParseRange Parse w i0 l <->
  exists j p, l !! j = Some p /\
    e ∈ attempted_package ParseRange Parse w (i0 + j) p.
Proof.
  revert i0. induction l as [|p l IH]; intros i0; simpl.
  { split; [by intros ?%elem_of_nil|by intros (j & p & ? & _)]. }
  rewrite elem_of_app, IH. split.
  - intros [He|(j & q & Hq & He)].
    + exists 0%nat, p. by rewrite Nat.add_0_r.
    + exists (S j), q. split; [done|]. by rewrite Nat.add_succ_r.
  - intros ([|j] & q & Hq & He).
    + left. injection Hq as <-. by rewrite Nat.add_0_r in He.
    + right. exists j, q. split; [done|]. by rewrite Nat.add_succ_r in He.
Qed.
End Attempted.

Lemma all_pairs_elem_of packagesInfo info :
  info ∈ all_pairs packagesInfo <->
  exists p ver, p ∈ packagesInfo /\ ver ∈ Versions p /\
    info = NodeInfo (Name p) ver.1 (Timestamp ver.2).
Proof.
  unfold all_pairs. rewrite elem_of_flat_map. split.
  - intros (p & Hp & ([v vi] & -> & Hver)%list_elem_of_fmap).
    by exists p, (v, vi).
  - intros (p & [v vi] & Hp & Hver & ->). exists p. split; [done|].
    apply list_elem_of_fmap. by exists (v, vi).
Qed.

Lemma versions_of_elem_of name packagesInfo v :
  v ∈ versions_of name packagesInfo <->
  exists info, info ∈ all_pairs packagesInfo /\
    ni_Name info = name /\ ni_Version info = v.
Proof.
  unfold versions_of. rewrite elem_of_flat_map. split.
  - intros (p & Hp & Hv). destruct (decide (Name p = name)) as [<-|];
      [|by apply elem_of_nil in Hv].
    apply list_elem_of_fmap in Hv as ([v' vi] & -> & Hver).
    exists (NodeInfo (Name p) v' (Timestamp vi)). split; [|done].
    apply all_pairs_elem_of. by exists p, (v', vi).
  - intros (info & (p & [v' vi] & Hp & Hver & ->)%all_pairs_elem_of & <- & <-).
    exists p. split; [done|]. simpl. rewrite decide_True by done.
    apply list_elem_of_fmap. by exists (v', vi).
Qed.

Lemma nameToVersion_elem_of packagesInfo name v :
  v ∈ default [] (CreateNameToVersionMap packagesInfo !! name) <->
  v ∈ versions_of name packagesInfo.
Proof.
  rewrite CreateNameToVersionMap_lookup.
  by destruct (versions_of name packagesInfo).
Qed.

Lemma all_pairs_ni_id packagesInfo info :
  info ∈ all_pairs packagesInfo ->
  ni_id info = Sprintf_dash (ni_Name info) (ni_Version info).
Proof. by intros (p & ver & _ & _ & ->)%all_pairs_elem_of. Qed.

Lemma built_world_Ret packagesInfo w :
  built_world packagesInfo = Ret w ->
  w = mkWorld (mkDirectedGraph (dom (CreateMap packagesInfo)) ∅) packagesInfo
        (CreateNameToIDMap (CreateMap packagesInfo))
        (CreateNameToVersionMap packagesInfo).
Proof.
  unfold built_world, CreateGraph.
  rewrite (StoreFacts.CreateGraph_range_nodes (CreateMap packagesInfo)) by done.
  simpl. by intros [= <-].
Qed.

Section BuiltEdges.
Context (ParseRange : string -> string + semver_Range).
Context (Parse : string -> semver_Version * option string).
Context (packagesInfo : list PackageInfo).
Context (Hlen : (Z.of_nat (length (all_pairs packagesInfo)) <= 2 ^ 63)%Z).
Context (Hdistinct : NoDup (ni_id <$> all_pairs packagesInfo)).

Local Abbreviation m := (CreateMap packagesInfo).

Lemma nameToID_lookup b info :
  m !! b = Some info ->
  default 0%Z (CreateNameToIDMap m !! Sprintf_dash (ni_Name info)
                                        (ni_Version info)) = b.
Proof.
  intros Hb.
  destruct (CreateMap_lookup_inv _ Hlen _ _ Hb) as (j & -> & Hj).
  rewrite <- (all_pairs_ni_id packagesInfo)
    by (by eapply list_elem_of_lookup_2).
  unfold CreateNameToIDMap.
  destruct (round_trip_distinct packagesInfo Hlen (map_to_list m))
    as [_ Hget]; [done..|].
  by rewrite (Hget _ _ Hb).
Qed.

Lemma built_attempted w a b :
  built_world packagesInfo = Ret w ->
  (a, b) ∈ attempted ParseRange Parse w <->
  exists (i : nat) p ver dep range c info,
    packagesInfo !! i = Some p /\ ver ∈ Versions p /\
    (dep, range) ∈ Dependencies ver.2 /\ ParseRange range = inr c /\
    m !! b = Some info /\ ni_Name info = dep /\
    c (Parse (ni_Version info)).1 = true /\ a = Z.of_nat i.
Proof.
  intros ->%built_world_Ret. unfold attempted. simpl.
  rewrite elem_of_attempted_from. split.
  - intros (i & p & Hp & (ver & [dep range] & c & v & Hver & Hd & Hc & Hv
                            & Hm & [= -> ->])%elem_of_attempted_package).
    simpl in *.
    apply nameToVersion_elem_of, versions_of_elem_of in Hv
      as (info & Hinfo & <- & <-).
    apply list_elem_of_lookup in Hinfo as [j Hj].
    pose proof (CreateMap_lookup _ Hlen _ _ Hj) as Hb.
    exists i, p, ver, (ni_Name info), range, c, info.
    split_and!; [done..| |done|done|done].
    by rewrite (nameToID_lookup _ _ Hb).
  - intros (i & p & ver & dep & range & c & info & Hp & Hver & Hd & Hc & Hb
              & <- & Hm & ->).
    exists i, p. split; [done|]. apply elem_of_attempted_package.
    exists ver, (ni_Name info, range), c, (ni_Version info). simpl.
    split_and!; [done..| |done|].
    + apply nameToVersion_elem_of, versions_of_elem_of. exists info.
      split; [|done].
      destruct (CreateMap_lookup_inv _ Hlen _ _ Hb) as (j & _ & Hj).
      by eapply list_elem_of_lookup_2.
    + by rewrite (nameToID_lookup _ _ Hb).
Qed.

Lemma built_edges_iff w w' a b :
  built_world packagesInfo = Ret w ->
  CreateEdges ParseRange Parse w = (Ret tt, w') ->
  (a, b) ∈ edges (graph w') <->
  exists (i : nat) p ver dep range c info,
    packagesInfo !! i = Some p /\ ver ∈ Versions p /\
    (dep, range) ∈ Dependencies ver.2 /\ ParseRange range = inr c /\
    m !! b = Some info /\ ni_Name info = dep /\
    c (Parse (ni_Version info)).1 = true /\ a = Z.of_nat i.
Proof.
  intros Hw (_ & _ & ->)%CreateEdges_resolves.
  rewrite <- (built_attempted w a b Hw).
  apply built_world_Ret in Hw. subst w. simpl.
  rewrite elem_of_union, elem_of_list_to_set. set_solver.
Qed.
End BuiltEdges.

(** What [CreateEdges] tests is the value that [Parse] returns, with or
    without an error. *)
Lemma accepts_returned_value (Parse : string -> semver_Version * option string)
  (c : semver_Range) s :
  c (Parse s).1 = true <-> exists v err, Parse s = (v, err) /\ c v = true.
Proof.
  destruct (Parse s) as [v err]. split.
  - intros Hc. by exists v, err.
  - by intros (v' & err' & [= <- <-] & Hc).
Qed.



(** *** One version per package *)

Lemma all_pairs_one_version packagesInfo (i : nat) p ver :
  (forall q, q ∈ packagesInfo -> length (Versions q) = 1%nat) ->
  packagesInfo !! i = Some p -> ver ∈ Versions p ->
  all_pairs packagesInfo !! i
  = Some (NodeInfo (Name p) ver.1 (Timestamp ver.2)).
Proof.
  revert i. induction packagesInfo as [|q qs IH]; intros i Hone Hp Hver;
    [done|].
  assert (Hq : exists ver0, Versions q = [ver0]).
  { specialize (Hone q (list_elem_of_here _ _)).
    destruct (Versions q) as [|ver0 [|? ?]]; simplify_eq/=. by eexists. }
  destruct Hq as [[v0 vi0] Hq].
  unfold all_pairs. cbn [flat_map]. rewrite Hq. cbn [map app].
  destruct i as [|i]; simpl in Hp.
  - injection Hp as <-. rewrite Hq in Hver.
    by apply list_elem_of_singleton in Hver as ->.
  - apply IH; [|done..]. intros q' Hq'. apply Hone. by right.
Qed.

(** X17.  When every package of the list has exactly one version (so that
    the position of a package is the ID of its version), the composite
    strings are pairwise distinct and [CreateEdges] returns, the graph has
    the edge a -> b exactly when a is the ID of a (package, version) pair
    that declares a constraint (dep, range) with a range that parses, and b
    is the ID of a pair of dep and a version string such that the range
    accepts the value [v] that [Parse] returns for that string, with or
    without an error ([err] is unconstrained, as in X16). *)
Theorem CreateEdges_one_version_each ParseRange Parse packagesInfo w w' a b :
  (forall p, p ∈ packagesInfo -> length (Versions p) = 1%nat) ->
  (Z.of_nat (length (all_pairs packagesInfo)) <= 2 ^ 63)%Z ->
  NoDup (ni_id <$> all_pairs packagesInfo) ->
  built_world packagesInfo = Ret w ->
  CreateEdges ParseRange Parse w = (Ret tt, w') ->
  (a, b) ∈ edges (graph w') <->
  exists p ver dep range c tgt v (err : option string),
    p ∈ packagesInfo /\ ver ∈ Versions p /\
    CreateMap packagesInfo !! a
    = Some (NodeInfo (Name p) ver.1 (Timestamp ver.2)) /\
    (dep, range) ∈ Dependencies ver.2 /\ ParseRange range = inr c /\
    CreateMap packagesInfo !! b = Some tgt /\ ni_Name tgt = dep /\
    Parse (ni_Version tgt) = (v, err) /\ c v = true.
Proof.
  intros Hone Hlen Hnd Hw Hrun.
  rewrite (built_edges_iff ParseRange Parse packagesInfo Hlen Hnd w w' a b)
    by done.
  split.
  - intros (i & p & ver & dep & range & c & info & Hp & Hver & Hd & Hc & Hb
              & Hname & (v & err & Hv & Hcv)%accepts_returned_value & ->).
    exists p, ver, dep, range, c, info, v, err.
    split_and!; [by eapply list_elem_of_lookup_2|done| |done..].
    apply CreateMap_lookup; [done|]. by apply all_pairs_one_version.
  - intros (p & ver & dep & range & c & tgt & v & err & Hp & Hver & Ha & Hd
              & Hc & Hb & Hname & Hv & Hcv).
    apply list_elem_of_lookup in Hp as [i Hp].
    exists i, p, ver, dep, range, c, tgt. split_and!; [done..| |].
    { apply accepts_returned_value. by exists v, err. }
    destruct (CreateMap_lookup_inv _ Hlen _ _ Ha) as (j & -> & Hj).
    f_equal.
    pose proof (all_pairs_one_version _ _ _ _ Hone Hp Hver) as Hi.
    eapply (NoDup_lookup _ _ _ _ Hnd); rewrite list_lookup_fmap.
    + by rewrite Hj.
    + by rewrite Hi.
Qed.

Lemma CreateEdges_one_version_each_witness :
  (0, 1)%Z ∈ edges (graph (resolved_world one_version_each)) <->
  exists p ver dep range c tgt v (err : option string),
    p ∈ one_version_each /\ ver ∈ Versions p /\
    CreateMap one_version_each !! 0%Z
    = Some (NodeInfo (Name p) ver.1 (Timestamp ver.2)) /\
    (dep, range) ∈ Dependencies ver.2 /\ ParseRange range = inr c /\
    CreateMap one_version_each !! 1%Z = Some tgt /\ ni_Name tgt = dep /\
    Parse (ni_Version tgt) = (v, err) /\ c v = true.
Proof.
  apply (CreateEdges_one_version_each ParseRange Parse one_version_each
           (world_of one_version_each) (resolved_world one_version_each)
           0 1).
  - intros p Hp. apply list_elem_of_In in Hp. simpl in Hp.
    destruct Hp as [<-|[<-|[]]]; reflexivity.
  - vm_compute. discriminate.
  - apply (bool_decide_unpack _). vm_compute. exact I.
  - vm_compute. reflexivity.
  - vm_compute. reflexivity.
Defined.

(** The edge of [one_version_each] is there, and it runs from the ID of
    A-1.0.0 to the ID of B-1.5.0, which [Parse] reads without an error. *)
Example one_version_each_edge :
  built_edges one_version_each = Some (Ret tt, [(0, 1)]) /\
  (Parse "1.5.0").2 = None.
Proof. split; vm_compute; reflexivity. Qed.

End BuildExtra.

(** * Malformed ranges *)

Module AbortFacts.
Import Build SemverFixture BuildFixtures BuildExtra.
Local Open Scope string_scope.

(** *** Loops over lists that are put together *)

Lemma for_range_app {A} (l1 l2 : list A) body w :
  for_range (l1 ++ l2) body w
  = mseq (for_range l1 body) (fun _ => for_range l2 body) w.
Proof.
  revert w. induction l1 as [|x l1 IH]; intros w; simpl; [done|].
  unfold mseq. destruct (body x w) as [[[]| |] w1]; [|done..].
  rewrite IH. done.
Qed.

Lemma for_range_ext {A} (l : list A) (body1 body2 : A -> M unit) w :
  (forall x w, body1 x w = body2 x w) ->
  for_range l body1 w = for_range l body2 w.
Proof.
  intros Hb. revert w. induction l as [|x l IH]; intros w; simpl; [done|].
  unfold mseq. rewrite Hb. destruct (body2 x w) as [[[]| |] w1]; [|done..].
  apply IH.
Qed.

Lemma for_range_fmap {A B} (f : A -> B) (l : list A) body w :
  for_range (f <$> l) body w = for_range l (fun x => body (f x)) w.
Proof.
  revert w. induction l as [|x l IH]; intros w; simpl; [done|].
  unfold mseq. destruct (body (f x) w) as [[[]| |] w1]; [|done..].
  apply IH.
Qed.

Lemma for_range_flat_map {A B} (f : A -> list B) (l : list A) body w :
  for_range (flat_map f l) body w
  = for_range l (fun x => for_range (f x) body) w.
Proof.
  revert w. induction l as [|x l IH]; intros w; simpl; [done|].
  rewrite for_range_app. unfold mseq.
  destruct (for_range (f x) body w) as [[[]| |] w1]; [|done..].
  apply IH.
Qed.

(** A loop sets a prefix of the edges of its elements. *)
Lemma sets_prefix_for_range {A} (l : list A) (body : A -> M unit)
  (L : A -> world -> list (Z * Z)) :
  (forall x, sets_prefix (body x) (L x)) ->
  (forall x E w, L x (add_edges E w) = L x w) ->
  sets_prefix (for_range l body) (fun w => flat_map (fun x => L x w) l).
Proof.
  intros Hbody Hstable. induction l as [|x l IH]; intros w; simpl.
  { exists (Ret tt), []. by rewrite add_edges_nil. }
  unfold mseq.
  destruct (Hbody x w) as (o1 & E1 & -> & Hfuel1 & Hpre1 & Hret1).
  destruct o1 as [[]|p|]; [| |done].
  - rewrite (Hret1 eq_refl).
    destruct (IH (add_edges (L x w) w)) as (o2 & E2 & -> & Hfuel2 & Hpre2 & Hret2).
    assert (Heq : flat_map (fun y => L y (add_edges (L x w) w)) l
                  = flat_map (fun y => L y w) l).
    { apply flat_map_ext. intros y. apply Hstable. }
    rewrite Heq in Hpre2, Hret2.
    exists o2, (L x w ++ E2)%list. rewrite add_edges_app.
    split_and!; [done..|by apply prefix_app|].
    intros Ho. by rewrite (Hret2 Ho).
  - exists (Panicked p), E1.
    split_and!; [done..|by apply prefix_app_r|done].
Qed.

Section Abort.
Context (ParseRange : string -> string + semver_Range).
Context (Parse : string -> semver_Version * option string).

(** The body of the innermost loop, for one constraint. *)
Local Abbreviation step :=
  (fun c : nat * (string * string) =>
     CreateEdges_dependency ParseRange Parse c.1 c.2).

(** [CreateEdges] is one loop over the constraints. *)
Lemma packages_flat i l w :
  for_range_indexed i l (fun id packageInfo =>
    for_range (Versions packageInfo) (fun '(_, dependencyInfo) =>
      for_range (Dependencies dependencyInfo)
        (CreateEdges_dependency ParseRange Parse id))) w
  = for_range (constraints_from i l) step w.
Proof.
  revert i w. induction l as [|p l IH]; intros i w; simpl; [done|].
  rewrite for_range_app. unfold mseq. rewrite for_range_flat_map.
  assert (Hinner : forall w0,
    for_range (Versions p) (fun '(_, dependencyInfo) =>
      for_range (Dependencies dependencyInfo)
        (CreateEdges_dependency ParseRange Parse i)) w0
    = for_range (Versions p) (fun ver =>
        for_range (pair i <$> Dependencies ver.2) step) w0).
  { intros w0. apply for_range_ext. intros [v vi] w1. cbn [snd].
    by rewrite for_range_fmap. }
  rewrite Hinner.
  destruct (for_range (Versions p) _ w) as [[[]| |] w1]; [|done..].
  apply IH.
Qed.

Lemma CreateEdges_flat w :
  CreateEdges ParseRange Parse w
  = for_range (constraints (inputList w)) step w.
Proof. unfold CreateEdges, mseq, read_inputList. apply packages_flat. Qed.

Lemma attempted_constraints_from w i l :
  attempted_from ParseRange Parse w i l
  = attempted_of ParseRange Parse w (constraints_from i l).
Proof.
  unfold attempted_of. revert i. induction l as [|p l IH]; intros i; [done|].
  simpl. rewrite flat_map_app, IH. f_equal.
  unfold attempted_package. induction (Versions p) as [|ver vs IHv]; [done|].
  simpl. rewrite flat_map_app, IHv. f_equal.
  induction (Dependencies ver.2) as [|d ds IHd]; [done|].
  simpl. by rewrite IHd.
Qed.

(** The edges of the constraints are the edges of [attempted]. *)
Lemma attempted_constraints w :
  attempted ParseRange Parse w
  = attempted_of ParseRange Parse w (constraints (inputList w)).
Proof. apply attempted_constraints_from. Qed.

Lemma CreateEdges_dependency_malformed i dep range err w :
  ParseRange range = inl err ->
  CreateEdges_dependency ParseRange Parse i (dep, range) w
  = (Panicked (PanicError err), w).
Proof. unfold CreateEdges_dependency. by intros ->. Qed.

Lemma CreateEdges_version_sets_prefix i dep c v :
  sets_prefix (CreateEdges_version Parse i dep c v)
    (fun w => attempted_version Parse w i dep c v).
Proof.
  intros w. unfold CreateEdges_version, attempted_version.
  destruct (c (Parse v).1).
  2:{ exists (Ret tt), []. by rewrite add_edges_nil. }
  unfold mseq, read_nameToID, call_Node, call_SetEdge, DirectedGraph_Node,
    SetEdge. cbn [fst snd].
  set (tid := default 0%Z (nameToIDMap w !! Sprintf_dash dep v)).
  assert (Hstop : forall p, exists o E,
            (Panicked p, w) = (o, add_edges E w) /\ o <> OutOfFuel /\
            E `prefix_of` [(Z.of_nat i, tid)] /\
            (o = Ret tt -> E = [(Z.of_nat i, tid)])).
  { intros p. exists (Panicked p), [].
    rewrite add_edges_nil. split_and!; [done..|apply prefix_nil|done]. }
  destruct (decide (tid ∈ nodes (graph w))) as [Ht|Ht];
    destruct (decide (Z.of_nat i ∈ nodes (graph w))) as [Hi|Hi];
    try destruct (decide (Z.of_nat i = tid)) as [He|He]; cbn [fst snd];
    try apply Hstop.
  exists (Ret tt), [(Z.of_nat i, tid)]. by rewrite set_edge_world.
Qed.

Lemma CreateEdges_dependency_sets_prefix i d :
  sets_prefix (CreateEdges_dependency ParseRange Parse i d)
    (fun w => attempted_dependency ParseRange Parse w i d).
Proof.
  destruct d as [dep range]. intros w.
  unfold CreateEdges_dependency, attempted_dependency. cbn [fst snd].
  destruct (ParseRange range) as [err|c].
  { exists (Panicked (PanicError err)), []. by rewrite add_edges_nil. }
  unfold mseq, read_nameToVersion.
  apply (sets_prefix_for_range (default [] (nameToVersionMap w !! dep)) _
           (fun v w => attempted_version Parse w i dep c v)
           (CreateEdges_version_sets_prefix i dep c)
           (fun _ _ _ => eq_refl) w).
Qed.

(** A loop over constraints sets a prefix of their edges. *)
Lemma constraints_set_prefix cs :
  sets_prefix (for_range cs step) (fun w => attempted_of ParseRange Parse w cs).
Proof.
  apply (sets_prefix_for_range cs step
           (fun c w => attempted_dependency ParseRange Parse w c.1 c.2));
    [|done].
  intros c. apply CreateEdges_dependency_sets_prefix.
Qed.

(** When the ranges parse and the edges can be set, it sets them all. *)
Lemma constraints_set_all cs w :
  Forall (parses ParseRange) cs ->
  Forall (can_set (graph w)) (attempted_of ParseRange Parse w cs) ->
  for_range cs step w
  = (Ret tt, add_edges (attempted_of ParseRange Parse w cs) w).
Proof.
  intros Hparse Hcan.
  apply (resolves_for_range cs step (parses ParseRange)
           (fun c w => attempted_dependency ParseRange Parse w c.1 c.2));
    [| |].
  - intros c. apply CreateEdges_dependency_resolves.
  - done.
  - split_and!; [|done..]. by apply Forall_forall.
Qed.

Lemma declares_constraint_from i l p ver d :
  p ∈ l -> ver ∈ Versions p -> d ∈ Dependencies ver.2 ->
  exists j, (j, d) ∈ constraints_from i l.
Proof.
  revert i. induction l as [|q l IH]; intros i Hp Hver Hd;
    [by apply elem_of_nil in Hp|].
  simpl. apply elem_of_cons in Hp as [->|Hp].
  - exists i. apply elem_of_app. left.
    apply list_elem_of_In, in_flat_map. exists ver.
    split; [by apply list_elem_of_In|].
    apply list_elem_of_In, list_elem_of_fmap. by exists d.
  - destruct (IH (S i) Hp Hver Hd) as [j Hj]. exists j.
    apply elem_of_app. by right.
Qed.

(** A list with a malformed constraint has a first one. *)
Lemma first_malformed (cs : list (nat * (string * string))) c err :
  c ∈ cs -> ParseRange c.2.2 = inl err ->
  exists pre c0 err0 post,
    cs = (pre ++ c0 :: post)%list /\ Forall (parses ParseRange) pre /\
    ParseRange c0.2.2 = inl err0.
Proof.
  intros Hc Herr. induction cs as [|x cs IH]; [by apply elem_of_nil in Hc|].
  destruct (ParseRange x.2.2) as [e|r] eqn:Hx.
  { by exists [], x, e, cs. }
  apply elem_of_cons in Hc as [->|Hc]; [congruence|].
  destruct (IH Hc) as (pre & c0 & err0 & post & -> & Hpre & Hc0).
  exists (x :: pre), c0, err0, post. split_and!; [done| |done].
  constructor; [by exists r|done].
Qed.

Lemma CreateEdges_at_malformed w pre c err post :
  constraints (inputList w) = (pre ++ c :: post)%list ->
  ParseRange c.2.2 = inl err ->
  (exists p E, E `prefix_of` attempted_of ParseRange Parse w pre /\
     CreateEdges ParseRange Parse w = (Panicked p, add_edges E w)) /\
  (Forall (parses ParseRange) pre ->
   Forall (can_set (graph w)) (attempted_of ParseRange Parse w pre) ->
   CreateEdges ParseRange Parse w
   = (Panicked (PanicError err),
      add_edges (attempted_of ParseRange Parse w pre) w)).
Proof.
  intros Hcs Herr. rewrite CreateEdges_flat, Hcs, for_range_app.
  destruct c as [i [dep range]]. cbn [fst snd] in Herr.
  unfold mseq. split.
  - destruct (constraints_set_prefix pre w)
      as (o & E & -> & Hfuel & Hpre & _).
    destruct o as [[]|p|]; [|by exists p, E|done].
    cbn [for_range]. unfold mseq. cbn [fst snd].
    rewrite (CreateEdges_dependency_malformed _ _ _ err) by done.
    by exists (PanicError err), E.
  - intros Hparse Hcan. rewrite (constraints_set_all pre w) by done.
    cbn [for_range]. unfold mseq. cbn [fst snd].
    by rewrite (CreateEdges_dependency_malformed _ _ _ err).
Qed.
End Abort.

(** C2, as the code has it.  Whenever the package list declares a range
    that fails to parse, [CreateEdges] ends in a panic, and it does not go
    on to the constraints that come after the first such range: the graph it
    leaves is the graph it started with plus edges of the constraints before
    that one only, in the order of the loop, and nothing for that constraint
    or a later one.  The panic is the parse error of that constraint, raised
    after all edges of the constraints before it were set, unless [SetEdge]
    has panicked on one of those edges before. *)
Theorem CreateEdges_panics_on_malformed_range ParseRange Parse
  (w : world) (dep range err : string) :
  declares (inputList w) dep range -> ParseRange range = inl err ->
  exists pre i dep0 range0 err0 post,
    constraints (inputList w) = (pre ++ (i, (dep0, range0)) :: post)%list /\
    Forall (parses ParseRange) pre /\
    ParseRange range0 = inl err0 /\
    (exists p E, E `prefix_of` attempted_of ParseRange Parse w pre /\
       CreateEdges ParseRange Parse w = (Panicked p, add_edges E w)) /\
    (Forall (can_set (graph w)) (attempted_of ParseRange Parse w pre) ->
     CreateEdges ParseRange Parse w
     = (Panicked (PanicError err0),
        add_edges (attempted_of ParseRange Parse w pre) w)).
Proof.
  intros (p & ver & Hp & Hver & Hd) Herr.
  destruct (declares_constraint_from 0 _ _ _ _ Hp Hver Hd) as [j Hj].
  destruct (first_malformed ParseRange _ _ err Hj Herr)
    as (pre & [i [dep0 range0]] & err0 & post & Hcs & Hpre & Herr0).
  destruct (CreateEdges_at_malformed ParseRange Parse w pre _ err0 post
              Hcs Herr0) as [Hstop Hall].
  exists pre, i, dep0, range0, err0, post.
  split_and!; [done..|]. intros Hcan. by apply Hall.
Qed.

Lemma CreateEdges_panics_on_malformed_range_witness :
  exists pre i dep0 range0 err0 post,
    constraints (inputList malformed_range_world)
    = (pre ++ (i, (dep0, range0)) :: post)%list /\
    Forall (parses ParseRange) pre /\
    ParseRange range0 = inl err0 /\
    (exists p E,
       E `prefix_of` attempted_of ParseRange Parse malformed_range_world pre /\
       CreateEdges ParseRange Parse malformed_range_world
       = (Panicked p, add_edges E malformed_range_world)) /\
    (Forall (can_set (graph malformed_range_world))
       (attempted_of ParseRange Parse malformed_range_world pre) ->
     CreateEdges ParseRange Parse malformed_range_world
     = (Panicked (PanicError err0),
        add_edges (attempted_of ParseRange Parse malformed_range_world pre)
          malformed_range_world)).
Proof.
  apply (CreateEdges_panics_on_malformed_range ParseRange Parse
           malformed_range_world "B" "garbage"
           ("Could not get version from string: " +:+ quoted "garbage")).
  - exists (mkPackageInfo "A"
              [("1.0.0",
                mkVersionInfo "t" [("B", "garbage"); ("C", ">=1.0.0")])]).
    exists ("1.0.0", mkVersionInfo "t" [("B", "garbage"); ("C", ">=1.0.0")]).
    split_and!; apply list_elem_of_In; simpl; tauto.
  - reflexivity.
Defined.

(** C2, as the specification has it, fails: A-1.0.0 has the malformed
    constraint on B and a well-formed constraint on C that C-1.0.0
    satisfies.  [CreateEdges] panics at the first and the edge 0 -> 2 of the
    second is never added. *)
Lemma CreateEdges_stops_at_malformed_range :
  built_world malformed_range = Ret malformed_range_world /\
  built_edges malformed_range
  = Some (Panicked (PanicError
            ("Could not get version from string: " +:+ quoted "garbage")),
          []).
Proof. split; vm_compute; reflexivity. Qed.

(** When the well-formed constraint is visited first, its edge is added
    before the panic. *)
Example CreateEdges_adds_edges_before_the_panic :
  built_edges malformed_range'
  = Some (Panicked (PanicError
            ("Could not get version from string: " +:+ quoted "garbage")),
          [(0, 2)]).
Proof. vm_compute. reflexivity. Qed.

End AbortFacts.
